(** * MacCormack predictor-corrector stepper (macCormack_stepper.py)

    A shallow embedding of [MacCormackStepper.run], of the error loop of the
    script that calls it and of [error_rate], and the facts about them.

    - Scalars (Python floats / numpy float64) are kept behind the small
      interface [Scalar]: the stepper only adds, subtracts, multiplies,
      divides, takes absolute values and compares.  Statements about the
      structure of a step hold for every instance; statements that need
      arithmetic laws are made at the instance of exact rationals [Qc]
      (no rounding, no overflow, no NaN); runs evaluated at the instance of
      binary64 floats show where rounding, an infinity or a NaN makes the
      program differ from them.
    - A two-dimensional numpy array is the list of its columns: [u[:, j]]
      is the [j]-th element, a vector with one entry per variable.
    - numpy arrays are mutable objects: they live in a [heap] and are named
      by locations; [np.copyto] and column assignment write in place,
      [deepcopy] allocates.
    - Python exceptions are results; the [while] loop takes fuel.
    - The error loop of the script (lines 174-181) and [error_rate]
      (error_rate_constant_speed_TBC.py) are embedded over the rationals;
      [np.log] enters [error_rate] as a parameter, and its statements hold
      whatever the values of the logarithm are. *)

From Stdlib Require Import QArith Qcanon Qcabs Lia Lqa PrimFloat.
From stdpp Require Import base tactics option list numbers.

Set Default Proof Using "Type".

(** ** Scalars *)

Class Scalar (F : Type) := {
  f0    : F;                 (* 0.0 *)
  fhalf : F;                 (* 0.5 *)
  fadd  : F → F → F;
  fsub  : F → F → F;
  fmul  : F → F → F;
  fdiv  : F → F → F;         (* numpy's array / scalar, never raises *)
  fabs  : F → F;
  fltb  : F → F → bool;      (* a < b *)
  fleb  : F → F → bool;      (* a <= b *)
  feqb  : F → F → bool       (* a == b *)
}.

(** ** Exceptions and fallible values *)

Inductive exn := NameError | ValueError | IndexError | ZeroDivisionError.

Inductive result (A : Type) : Type :=
| Ok (a : A)
| Raise (e : exn).
Arguments Ok {A} a.
Arguments Raise {A} e.

Definition rbind {A B} (r : result A) (k : A → result B) : result B :=
  match r with
  | Ok a => k a
  | Raise e => Raise e
  end.

Notation "x <~ e1 ;; e2" := (rbind e1 (λ x, e2))
  (at level 100, e1 at next level, right associativity, only parsing).

(** ** Data *)

(** Locations of the heap. *)
Abbreviation loc := nat.

(** Modelled from the spec: Grid1D.py is not among the sources; the stepper
    reads the three attributes the spec lists for the grid descriptor: the
    node count [nx], the spacing [dx] (a real, so a Python float) and the
    coordinate sequence [X]. *)
Record Grid1D (F : Type) := {
  nx : nat;
  dx : F;
  X  : list F
}.
Arguments nx {F} _.
Arguments dx {F} _.
Arguments X {F} _.

(** The model object: the attribute and the four methods [run] uses.  A matrix
    returned by [jacobian] is the list of its rows. *)
Record Model (F : Type) := {
  numVars        : nat;
  jacobian       : F → list (list F);
  jacEigenvalues : F → list F;
  applyLeftBC    : F → F → F → F → list (list F) → list F;
  applyRightBC   : F → F → F → F → list (list F) → list F
}.
Arguments numVars {F} _.
Arguments jacobian {F} _ _.
Arguments jacEigenvalues {F} _ _.
Arguments applyLeftBC {F} _ _ _ _ _ _.
Arguments applyRightBC {F} _ _ _ _ _ _.

(** The immutable attributes of a stepper; [self.history] is mutable and
    lives in the machine state. *)
Record MacCormackStepper (F : Type) := {
  grid    : Grid1D F;
  model   : Model F;
  epsilon : F
}.
Arguments grid {F} _.
Arguments model {F} _.
Arguments epsilon {F} _.

(** What a spy model would record. *)
Inductive event (F : Type) :=
| CallLeftBC  (x t_step dx dt : F) (u_prev : list (list F))
| CallRightBC (x t_step dx dt : F) (u_prev : list (list F)).
Arguments CallLeftBC {F} _ _ _ _ _.
Arguments CallRightBC {F} _ _ _ _ _.

Record mstate (F : Type) := MState {
  heap    : list (list (list F));   (* the arrays allocated so far *)
  history : list (F * loc);         (* self.history: (time, array) tuples *)
  calls   : list (event F)
}.
Arguments MState {F} _ _ _.
Arguments heap {F} _.
Arguments history {F} _.
Arguments calls {F} _.

Inductive outcome (F A : Type) : Type :=
| Returns (a : A) (σ : mstate F)
| Raises (e : exn) (σ : mstate F)
| OutOfFuel.
Arguments Returns {F A} a σ.
Arguments Raises {F A} e σ.
Arguments OutOfFuel {F A}.

(** The local variables of [run] that change. *)
Record frame (F : Type) := Frame {
  u_prev  : loc;
  u_pred  : loc;
  u_cur   : loc;
  t       : F;
  n_steps : nat
}.
Arguments Frame {F} _ _ _ _ _.
Arguments u_prev {F} _.
Arguments u_pred {F} _.
Arguments u_cur {F} _.
Arguments t {F} _.
Arguments n_steps {F} _.

Section Stepper.
Context {F : Type} `{Scalar F}.

Abbreviation vec := (list F).
Abbreviation ndarray := (list (list F)).

(** *** numpy on vectors *)

(** An elementwise binary operator on one-dimensional arrays, with
    numpy's broadcasting of a length-one operand. *)
Definition np_binop (f : F → F → F) (u v : vec) : result vec :=
  if decide (length u = length v) then Ok (zip_with f u v)
  else match u, v with
       | [a], _ => Ok (map (f a) v)
       | _, [b] => Ok (map (λ x, f x b) u)
       | _, _ => Raise ValueError
       end.

Definition scale (c : F) (v : vec) : vec := map (fmul c) v.
Definition divide (v : vec) (c : F) : vec := map (λ x, fdiv x c) v.

Definition dot (r v : vec) : F := foldl fadd f0 (zip_with fmul r v).

(** [np.matmul(J, v)] for a two-dimensional [J] and a one-dimensional [v]. *)
Definition np_matmul (J : list vec) (v : vec) : result vec :=
  if forallb (λ r, Nat.eqb (length r) (length v)) J
  then Ok (map (λ r, dot r v) J)
  else Raise ValueError.

(** The larger of two scalars, decided by [<]. *)
Definition fmax (a b : F) : F := if fltb a b then b else a.

(** Python's [max(a, b)] keeps [a] unless [b > a]; so it keeps [a] when
    [b] is a NaN. *)
Definition py_max (a b : F) : F := fmax a b.

(** numpy's [maximum(a, b)]: [a] when [a >= b] or [a] is a NaN, else [b];
    a NaN operand is the result.  A NaN is a value that is not equal to
    itself; the rationals have none. *)
Definition np_maximum (a b : F) : F :=
  if fleb b a || negb (feqb a a) then a else b.

(** [np.amax(v)], the reduction of [v] by [maximum]: it raises on an empty
    array and returns NaN when an entry is NaN. *)
Definition np_amax (v : vec) : result F :=
  match v with
  | [] => Raise ValueError
  | x :: v' => Ok (foldl np_maximum x v')
  end.

(** Python's float division [a / b], which raises when [b] is zero (the
    divisor at line 102 is a Python float when it is zero, see [py_max]). *)
Definition py_div (a b : F) : result F :=
  if feqb b f0 then Raise ZeroDivisionError else Ok (fdiv a b).

(** [l[i]] for a non-negative [i]. *)
Definition index {A} (l : list A) (i : nat) : result A :=
  match l !! i with
  | Some x => Ok x
  | None => Raise IndexError
  end.

(** [l[-1]] *)
Definition index_last {A} (l : list A) : result A :=
  index l (length l - 1).

(** *** numpy on two-dimensional arrays *)

(** [np.zeros((rows, cols))] *)
Definition np_zeros (rows cols : nat) : ndarray :=
  replicate cols (replicate rows f0).

Definition nrows (u : ndarray) : nat :=
  match u with
  | c :: _ => length c
  | [] => 0
  end.

(** A vector assigned to a column of [n] entries: of that length, or of
    length one and repeated; anything else raises. *)
Definition broadcast_to (n : nat) (v : vec) : result vec :=
  if decide (length v = n) then Ok v
  else match v with
       | [x] => Ok (replicate n x)
       | _ => Raise ValueError
       end.

Fixpoint broadcast_cols (n : nat) (src : ndarray) : result ndarray :=
  match src with
  | [] => Ok []
  | c :: src' =>
      c' <~ broadcast_to n c ;;
      rest <~ broadcast_cols n src' ;;
      Ok (c' :: rest)
  end.

(** The new contents of [dst] after [np.copyto(dst, src)]. *)
Definition np_copyto (dst src : ndarray) : result ndarray :=
  if decide (length src = length dst) then broadcast_cols (nrows dst) src
  else match src with
       | [c] => c' <~ broadcast_to (nrows dst) c ;;
                Ok (replicate (length dst) c')
       | _ => Raise ValueError
       end.

(** The new contents of [u] after [u[:, i] = v]. *)
Definition setcol (u : ndarray) (i : nat) (v : vec) : result ndarray :=
  match u !! i with
  | None => Raise IndexError
  | Some c => v' <~ broadcast_to (length c) v ;; Ok (<[i := v']> u)
  end.

(** *** The machine monad *)

Definition M (A : Type) : Type := mstate F → outcome F A.

Definition ret {A} (a : A) : M A := λ σ, Returns a σ.

Definition bind {A B} (m : M A) (k : A → M B) : M B :=
  λ σ, match m σ with
       | Returns a σ' => k a σ'
       | Raises e σ' => Raises e σ'
       | OutOfFuel => OutOfFuel
       end.

Definition lift {A} (r : result A) : M A :=
  λ σ, match r with
       | Ok a => Returns a σ
       | Raise e => Raises e σ
       end.

Definition alloc (a : ndarray) : M loc :=
  λ σ, Returns (length (heap σ))
               (MState (heap σ ++ [a]) (history σ) (calls σ)).

(** Reading the array at a location; the locations [alloc] hands out are
    always in the heap. *)
Definition load (l : loc) : M ndarray :=
  λ σ, Returns (heap σ !!! l) σ.

Definition store (l : loc) (a : ndarray) : M unit :=
  λ σ, Returns tt (MState (<[l := a]> (heap σ)) (history σ) (calls σ)).

Definition history_clear : M unit :=
  λ σ, Returns tt (MState (heap σ) [] (calls σ)).

Definition history_append (e : F * loc) : M unit :=
  λ σ, Returns tt (MState (heap σ) (history σ ++ [e]) (calls σ)).

Definition emit (e : event F) : M unit :=
  λ σ, Returns tt (MState (heap σ) (history σ) (calls σ ++ [e])).

Notation "x <- e1 ;; e2" := (bind e1 (λ x, e2))
  (at level 100, e1 at next level, right associativity, only parsing).
Notation "e1 ;;; e2" := (bind e1 (λ _, e2))
  (at level 100, right associativity, only parsing).

(** [u[:, i]] and [u[:, i] = v] on the array at location [l]. *)
Definition getcol (l : loc) (i : nat) : M vec :=
  u <- load l ;; lift (index u i).

Definition putcol (l : loc) (i : nat) (v : vec) : M unit :=
  u <- load l ;;
  u' <- lift (setcol u i v) ;;
  store l u'.

(** [u[:, -1] = v] *)
Definition putcol_last (l : loc) (v : vec) : M unit :=
  u <- load l ;;
  u' <- lift (setcol u (length u - 1) v) ;;
  store l u'.

(** [np.copyto(dst, src)] between two arrays of the heap. *)
Definition copyto (dst src : loc) : M unit :=
  d <- load dst ;;
  s <- load src ;;
  d' <- lift (np_copyto d s) ;;
  store dst d'.

(** [np.copyto(dst, src)] from an argument of [run]. *)
Definition copyto_from (dst : loc) (src : ndarray) : M unit :=
  d <- load dst ;;
  d' <- lift (np_copyto d src) ;;
  store dst d'.

(** [deepcopy(u)]: a new array with the contents of [u]. *)
Definition deepcopy (l : loc) : M loc :=
  u <- load l ;; alloc u.

Fixpoint for_each {A} (l : list A) (body : A → M unit) : M unit :=
  match l with
  | [] => ret tt
  | x :: l' => body x ;;; for_each l' body
  end.

(** [range(lo, hi)] *)
Definition range (lo hi : nat) : list nat := seq lo (hi - lo).

(** *** MacCormackStepper.run

    [self] is the stepper, [t_final] the argument of [run], and
    [module_grid] the module-level name [grid], which lines 55-57 read
    (it is bound only when the file runs as a script). *)

(** Lines 95-100. *)
Fixpoint cfl_scan (self : MacCormackStepper F) (xs : list F) (lambda_max : F)
    : result F :=
  match xs with
  | [] => Ok lambda_max
  | x :: xs' =>
      let lam := jacEigenvalues (model self) x in
      let abs_of_ews := map fabs lam in
      local_lambda_max <~ np_amax abs_of_ews ;;
      cfl_scan self xs' (py_max lambda_max local_lambda_max)
  end.

Definition cfl_lambda_max (self : MacCormackStepper F) : result F :=
  cfl_scan self (X (grid self)) f0.

(** Line 102. *)
Definition cfl_dt (self : MacCormackStepper F) : result F :=
  lambda_max <~ cfl_lambda_max self ;;
  q <~ py_div (dx (grid self)) lambda_max ;;
  Ok (fmul (epsilon self) q).

(** Lines 105-106. *)
Definition clamp_dt (t_final t dt : F) : F :=
  if fleb (fsub t_final t) dt then fsub t_final t else dt.

(** Lines 113-115, the value assigned to [u_pred[:, i]]. *)
Definition predictor_rhs (self : MacCormackStepper F) (dt : F)
    (u_prev : ndarray) (i : nat) : result vec :=
  a <~ index u_prev (i + 1) ;;
  b <~ index u_prev i ;;
  d <~ np_binop fsub a b ;;
  let dudx := divide d (dx (grid self)) in
  x <~ index (X (grid self)) i ;;
  let J := jacobian (model self) x in
  b' <~ index u_prev i ;;
  Jd <~ np_matmul J dudx ;;
  np_binop fsub b' (scale dt Jd).

(** Lines 125-128, the value assigned to [u_cur[:, i]]. *)
Definition corrector_rhs (self : MacCormackStepper F) (dt : F)
    (u_prev u_pred : ndarray) (i : nat) : result vec :=
  a <~ index u_pred i ;;
  b <~ index u_pred (i - 1) ;;
  d <~ np_binop fsub a b ;;
  let dudx := divide d (dx (grid self)) in
  x <~ index (X (grid self)) i ;;
  let J := jacobian (model self) x in
  p <~ index u_pred i ;;
  q <~ index u_prev i ;;
  s <~ np_binop fadd p q ;;
  let uMid := scale fhalf s in
  Jd <~ np_matmul J dudx ;;
  np_binop fsub uMid (scale (fmul fhalf dt) Jd).

(** Lines 112-115. *)
Definition predictor (self : MacCormackStepper F) (fr : frame F) (dt : F)
    : M unit :=
  for_each (range 1 (nx (grid self))) (λ i,
    up <- load (u_prev fr) ;;
    v <- lift (predictor_rhs self dt up i) ;;
    putcol (u_pred fr) i v).

(** Lines 118-121. *)
Definition left_boundary (self : MacCormackStepper F) (fr : frame F)
    (t_step dt : F) : M unit :=
  x0 <- lift (index (X (grid self)) 0) ;;
  up <- load (u_prev fr) ;;
  emit (CallLeftBC x0 t_step (dx (grid self)) dt up) ;;;
  putcol (u_cur fr) 0
         (applyLeftBC (model self) x0 t_step (dx (grid self)) dt up) ;;;
  c <- getcol (u_cur fr) 0 ;;
  putcol (u_pred fr) 0 c.

(** Lines 124-128. *)
Definition corrector (self : MacCormackStepper F) (fr : frame F) (dt : F)
    : M unit :=
  for_each (range 1 (nx (grid self))) (λ i,
    uq <- load (u_pred fr) ;;
    up <- load (u_prev fr) ;;
    v <- lift (corrector_rhs self dt up uq i) ;;
    putcol (u_cur fr) i v).

(** Lines 131-133. *)
Definition right_boundary (self : MacCormackStepper F) (fr : frame F)
    (t_step dt : F) : M unit :=
  xn <- lift (index_last (X (grid self))) ;;
  up <- load (u_prev fr) ;;
  emit (CallRightBC xn t_step (dx (grid self)) dt up) ;;;
  putcol_last (u_cur fr)
         (applyRightBC (model self) xn t_step (dx (grid self)) dt up).

(** Lines 136-139. *)
Definition record (fr : frame F) (t_step : F) : M (frame F) :=
  snapshot <- deepcopy (u_cur fr) ;;
  history_append (t_step, snapshot) ;;;
  ret (Frame (u_prev fr) (u_pred fr) (u_cur fr) t_step (n_steps fr)).

(** Lines 109-139, once [dt] is chosen. *)
Definition advance (self : MacCormackStepper F) (fr : frame F) (dt : F)
    : M (frame F) :=
  let t_step := fadd (t fr) dt in
  predictor self fr dt ;;;
  left_boundary self fr t_step dt ;;;
  corrector self fr dt ;;;
  right_boundary self fr t_step dt ;;;
  record fr t_step.

(** Lines 89-92. *)
Definition begin_step (fr : frame F) : M (frame F) :=
  let fr' := Frame (u_prev fr) (u_pred fr) (u_cur fr) (t fr) (n_steps fr + 1) in
  copyto (u_prev fr') (u_cur fr') ;;;
  ret fr'.

(** Lines 89-139, one pass through the body of the [while] loop. *)
Definition loop_body (self : MacCormackStepper F) (t_final : F)
    (fr0 : frame F) : M (frame F) :=
  fr <- begin_step fr0 ;;
  dt <- lift (cfl_dt self) ;;
  advance self fr (clamp_dt t_final (t fr) dt).

(** Lines 87-139. *)
Fixpoint while_loop (self : MacCormackStepper F) (t_final : F) (fuel : nat)
    (fr : frame F) : M (frame F) :=
  if fltb (t fr) t_final then
    match fuel with
    | 0 => λ _, OutOfFuel
    | S fuel' =>
        fr' <- loop_body self t_final fr ;;
        while_loop self t_final fuel' fr'
    end
  else ret fr.

(** Lines 55-82. *)
Definition run_init (module_grid : option (Grid1D F))
    (self : MacCormackStepper F) (t_init : F) (u_init : ndarray)
    : M (frame F) :=
  g <- lift (match module_grid with
             | Some g => Ok g
             | None => Raise NameError
             end) ;;
  u_prev <- alloc (np_zeros (numVars (model self)) (nx g + 1)) ;;
  u_pred <- alloc (np_zeros (numVars (model self)) (nx g + 1)) ;;
  u_cur <- alloc (np_zeros (numVars (model self)) (nx g + 1)) ;;
  copyto_from u_cur u_init ;;;
  history_clear ;;;
  snapshot <- deepcopy u_cur ;;
  history_append (t_init, snapshot) ;;;
  ret (Frame u_prev u_pred u_cur t_init 0).

(** [run] returns nothing in Python; here it returns its final locals,
    so that statements can name [n_steps] and the working buffers. *)
Definition run (module_grid : option (Grid1D F)) (self : MacCormackStepper F)
    (fuel : nat) (t_init t_final : F) (u_init : ndarray) : M (frame F) :=
  fr <- run_init module_grid self t_init u_init ;;
  while_loop self t_final fuel fr.

(** *** Vocabulary of the statements *)

(** [u.shape == (r, c)] *)
Definition shape (r c : nat) (u : ndarray) : Prop :=
  length u = c ∧ Forall (λ col, length col = r) u.

#[global] Instance shape_dec r c u : Decision (shape r c u).
Proof. unfold shape. apply _. Defined.

(** Location [l] names an array of shape [(r, c)]. *)
Definition holds (h : list ndarray) (l : loc) (r c : nat) : Prop :=
  ∃ u, h !! l = Some u ∧ shape r c u.

(** The three working buffers are three different arrays of shape [(r, c)],
    with at least one column. *)
Definition bufs_ok (r c : nat) (fr : frame F) (h : list ndarray) : Prop :=
  0 < c ∧
  u_prev fr ≠ u_pred fr ∧ u_prev fr ≠ u_cur fr ∧ u_pred fr ≠ u_cur fr ∧
  holds h (u_prev fr) r c ∧ holds h (u_pred fr) r c ∧ holds h (u_cur fr) r c.

Definition is_buffer (fr : frame F) (l : loc) : Prop :=
  l = u_prev fr ∨ l = u_pred fr ∨ l = u_cur fr.

(** The interface the spec gives the model: an n-by-n Jacobian, n
    eigenvalues and n boundary values, for n = numVars. *)
Definition jacobian_ok (m : Model F) : Prop :=
  ∀ x, length (jacobian m x) = numVars m ∧
       Forall (λ row, length row = numVars m) (jacobian m x).

Definition model_ok (m : Model F) : Prop :=
  jacobian_ok m ∧
  (∀ x, length (jacEigenvalues m x) = numVars m) ∧
  (∀ x t dx dt u, length (applyLeftBC m x t dx dt u) = numVars m) ∧
  (∀ x t dx dt u, length (applyRightBC m x t dx dt u) = numVars m).

(** The Jacobian is the zero matrix at every point. *)
Definition jac_zero (m : Model F) : Prop :=
  ∀ x, jacobian m x = replicate (numVars m) (replicate (numVars m) f0).

(** The grid's invariant: nx + 1 coordinates. *)
Definition grid_ok (g : Grid1D F) : Prop := length (X g) = nx g + 1.

(** What the loop body needs in order not to raise: the model keeps to its
    interface, the buffers have one row per variable and enough columns,
    and the grid has its coordinates. *)
Definition total_ok (self : MacCormackStepper F) (r c : nat) : Prop :=
  model_ok (model self) ∧ r = numVars (model self) ∧
  nx (grid self) < c ∧ grid_ok (grid self).

(** The two update formulas in the spec's words (steps 3 and 5 of its
    algorithm), on vectors of equal length, to be compared with
    [predictor_rhs] and [corrector_rhs]. *)
Definition vsub (u v : vec) : vec := zip_with fsub u v.
Definition vadd (u v : vec) : vec := zip_with fadd u v.
Definition matvec (J : list vec) (v : vec) : vec := map (λ row, dot row v) J.

(** [u_prev[:,i] - dt * J @ ((u_prev[:,i+1] - u_prev[:,i]) / dx)] *)
Definition predictor_formula (dt dx : F) (J : list vec)
    (prev_i prev_next : vec) : vec :=
  let dudx := divide (vsub prev_next prev_i) dx in
  vsub prev_i (scale dt (matvec J dudx)).

(** [0.5*(u_pred[:,i] + u_prev[:,i])
     - 0.5*dt * J @ ((u_pred[:,i] - u_pred[:,i-1]) / dx)] *)
Definition corrector_formula (dt dx : F) (J : list vec)
    (prev_i pred_i pred_before : vec) : vec :=
  let dudx := divide (vsub pred_i pred_before) dx in
  let uMid := scale fhalf (vadd pred_i prev_i) in
  vsub uMid (scale (fmul fhalf dt) (matvec J dudx)).

(** What one call of [advance] does, from [σ] to [σ'], with time step [dt]:
    [U], [P0], [C0] are the contents of [u_prev], [u_pred], [u_cur] before;
    [P] and [C] those of [u_pred] and [u_cur] after; [Cc] is [u_cur] when
    the corrector loop ends; [σa] and [σb] are the machine states in which
    the corrector loop starts (the one the predictor loop and lines 118-121
    lead to) and ends; [x0], [xn] are the boundary coordinates and [vL],
    [vR] the boundary values as stored. *)
Record pass_facts (self : MacCormackStepper F) (r c : nat) (fr : frame F)
    (dt : F) (σ σ' : mstate F) (U P0 C0 P Cc C : ndarray) (x0 xn : F)
    (vL vR : vec) (σa σb : mstate F) : Prop := {
  pf_U  : heap σ !! u_prev fr = Some U;
  pf_P0 : heap σ !! u_pred fr = Some P0;
  pf_C0 : heap σ !! u_cur fr = Some C0;
  pf_x0 : X (grid self) !! 0 = Some x0;
  pf_xn : index_last (X (grid self)) = Ok xn;
  pf_vL : broadcast_to r
            (applyLeftBC (model self) x0 (fadd (t fr) dt) (dx (grid self)) dt U)
          = Ok vL;
  pf_vR : broadcast_to r
            (applyRightBC (model self) xn (fadd (t fr) dt) (dx (grid self)) dt U)
          = Ok vR;
  pf_pre     : bind (predictor self fr dt)
                    (λ _, left_boundary self fr (fadd (t fr) dt) dt) σ
               = Returns tt σa;
  pf_corr    : corrector self fr dt σa = Returns tt σb;
  pf_a_prev  : heap σa !! u_prev fr = Some U;
  pf_a_pred  : heap σa !! u_pred fr = Some P;
  pf_a_cur   : heap σa !! u_cur fr = Some (<[0 := vL]> C0);
  pf_a_calls : calls σa = calls σ ++
                 [CallLeftBC x0 (fadd (t fr) dt) (dx (grid self)) dt U];
  pf_b_pred  : heap σb !! u_pred fr = Some P;
  pf_b_cur   : heap σb !! u_cur fr = Some Cc;
  pf_b_calls : calls σb = calls σa;
  pf_P_shape : shape r c P;
  pf_P_0     : P !! 0 = Some vL;
  pf_P_in    : ∀ i, 1 ≤ i < nx (grid self) →
                 ∃ v, predictor_rhs self dt U i = Ok v ∧ P !! i = Some v;
  pf_P_out   : ∀ j, 0 < j → nx (grid self) ≤ j → P !! j = P0 !! j;
  pf_Cc_0    : Cc !! 0 = Some vL;
  pf_Cc_in   : ∀ i, 1 ≤ i < nx (grid self) →
                 ∃ v, corrector_rhs self dt U P i = Ok v ∧ Cc !! i = Some v;
  pf_Cc_out  : ∀ j, 0 < j → nx (grid self) ≤ j → Cc !! j = C0 !! j;
  pf_C       : C = <[c - 1 := vR]> Cc;
  pf_C_shape : shape r c C;
  pf_len     : length (heap σ') = S (length (heap σ));
  pf_prev'   : heap σ' !! u_prev fr = Some U;
  pf_pred'   : heap σ' !! u_pred fr = Some P;
  pf_cur'    : heap σ' !! u_cur fr = Some C;
  pf_snap    : heap σ' !! length (heap σ) = Some C;
  pf_frame   : ∀ l, ¬ is_buffer fr l → l < length (heap σ) →
                 heap σ' !! l = heap σ !! l;
  pf_hist    : history σ' = history σ ++ [(fadd (t fr) dt, length (heap σ))];
  pf_calls   : calls σ' = calls σ ++
                 [CallLeftBC x0 (fadd (t fr) dt) (dx (grid self)) dt U;
                  CallRightBC xn (fadd (t fr) dt) (dx (grid self)) dt U]
}.

(** One pass through the loop body, from [σ] to [σ']: the time step is the
    clamped CFL step, [u_prev] receives the contents [U] of [u_cur], and
    [advance] runs from there. *)
Definition pass (self : MacCormackStepper F) (r c : nat) (t_final : F)
    (fr : frame F) (σ : mstate F) (fr' : frame F) (σ' : mstate F)
    (dt : F) (U P C : ndarray) : Prop :=
  ∃ dt0 P0 C0 Cc x0 xn vL vR σa σb,
    cfl_dt self = Ok dt0 ∧
    dt = clamp_dt t_final (t fr) dt0 ∧
    heap σ !! u_cur fr = Some U ∧
    fr' = Frame (u_prev fr) (u_pred fr) (u_cur fr) (fadd (t fr) dt)
                (n_steps fr + 1) ∧
    pass_facts self r c fr dt (MState (<[u_prev fr := U]> (heap σ))
                                      (history σ) (calls σ)) σ'
               U P0 C0 P Cc C x0 xn vL vR σa σb.

(** The invariant of the [while] loop of a run started at [t_init]. *)
Record run_inv (r c : nat) (t_init : F) (fr : frame F) (σ : mstate F)
    : Prop := {
  ri_bufs    : bufs_ok r c fr (heap σ);
  ri_len     : length (history σ) = S (n_steps fr);
  ri_first   : ∃ l, history σ !! 0 = Some (t_init, l);
  ri_last    : ∃ l, history σ !! n_steps fr = Some (t fr, l) ∧
                    heap σ !! l = heap σ !! u_cur fr;
  ri_entries : ∀ k tk l, history σ !! k = Some (tk, l) →
                 ¬ is_buffer fr l ∧ holds (heap σ) l r c
}.

(** The machine states in which [run] tests the condition of its [while]
    loop: after the preparation, and after every completed pass. *)
Inductive reach (module_grid : option (Grid1D F)) (self : MacCormackStepper F)
    (t_init t_final : F) (u_init : ndarray) (σ0 : mstate F)
    : frame F → mstate F → Prop :=
| reach_init fr σ :
    run_init module_grid self t_init u_init σ0 = Returns fr σ →
    reach module_grid self t_init t_final u_init σ0 fr σ
| reach_step fr σ fr' σ' :
    reach module_grid self t_init t_final u_init σ0 fr σ →
    fltb (t fr) t_final = true →
    loop_body self t_final fr σ = Returns fr' σ' →
    reach module_grid self t_init t_final u_init σ0 fr' σ'.

(** What step [k + 1] of a run leaves in the state [σ], for a run started
    from [σ0]: history entry [k] holds the time [tk] and the state [S], the
    step is the clamped CFL step, history entry [k + 1] holds the new time
    and state [S'], the two boundary calls are in the call log, and the
    boundary columns of [S'] hold the values they returned. *)
Definition recorded_step (self : MacCormackStepper F) (t_final : F)
    (σ0 σ : mstate F) (k : nat) : Prop :=
  ∃ tk l S dt0 dt l' S' x0 xn vL vR,
    history σ !! k = Some (tk, l) ∧ heap σ !! l = Some S ∧
    cfl_dt self = Ok dt0 ∧ dt = clamp_dt t_final tk dt0 ∧
    history σ !! (k + 1) = Some (fadd tk dt, l') ∧ heap σ !! l' = Some S' ∧
    X (grid self) !! 0 = Some x0 ∧ index_last (X (grid self)) = Ok xn ∧
    calls σ !! (length (calls σ0) + 2 * k)
      = Some (CallLeftBC x0 (fadd tk dt) (dx (grid self)) dt S) ∧
    calls σ !! (length (calls σ0) + 2 * k + 1)
      = Some (CallRightBC xn (fadd tk dt) (dx (grid self)) dt S) ∧
    broadcast_to (numVars (model self))
      (applyLeftBC (model self) x0 (fadd tk dt) (dx (grid self)) dt S) = Ok vL ∧
    broadcast_to (numVars (model self))
      (applyRightBC (model self) xn (fadd tk dt) (dx (grid self)) dt S) = Ok vR ∧
    S' !! (length S' - 1) = Some vR ∧
    (2 ≤ length S' → S' !! 0 = Some vL).

(** Writing [a] over the array at [l]. *)
Definition upd (l : loc) (a : ndarray) (σ : mstate F) : mstate F :=
  MState (<[l := a]> (heap σ)) (history σ) (calls σ).

(** [wp tot m Q σ]: running [m] from [σ] ends in a state satisfying [Q];
    with [tot = false] an exception or exhausted fuel is also accepted,
    with [tot = true] it is not. *)
Definition wp {A} (tot : bool) (m : M A) (Q : A → mstate F → Prop)
    (σ : mstate F) : Prop :=
  match m σ with
  | Returns a σ' => Q a σ'
  | _ => tot = false
  end.

End Stepper.

Arguments M : clear implicits.

(** ** Two instances of the scalars *)

(** Exact rationals: the arithmetic of the stepper without rounding. *)
#[global] Instance Qc_scalar : Scalar Qc := {|
  f0 := Q2Qc 0;
  fhalf := Q2Qc (1 # 2);
  fadd := Qcplus;
  fsub := Qcminus;
  fmul := Qcmult;
  fdiv := Qcdiv;
  fabs := Qcabs;
  fltb := λ a b, match (a ?= b)%Qc with Lt => true | _ => false end;
  fleb := λ a b, match (a ?= b)%Qc with Gt => false | _ => true end;
  feqb := Qc_eq_bool
|}.

(** IEEE 754 binary64, the arithmetic of Python floats and numpy float64. *)
#[global] Instance float_scalar : Scalar float := {|
  f0 := 0%float;
  fhalf := 0.5%float;
  fadd := PrimFloat.add;
  fsub := PrimFloat.sub;
  fmul := PrimFloat.mul;
  fdiv := PrimFloat.div;
  fabs := PrimFloat.abs;
  fltb := PrimFloat.ltb;
  fleb := PrimFloat.leb;
  feqb := PrimFloat.eqb
|}.

(** ** Small problems to evaluate the stepper on *)

Definition qc (n : Z) (d : positive) : Qc := Q2Qc (n # d).

(** Transport at speed one, one variable, five nodes on [0, 1]. *)
Definition ex_model : Model Qc := {|
  numVars := 1;
  jacobian := λ _, [[qc 1 1]];
  jacEigenvalues := λ _, [qc 1 1];
  applyLeftBC := λ _ _ _ _ _, [qc 7 1];
  applyRightBC := λ _ _ _ _ _, [qc 9 1]
|}.

Definition ex_grid : Grid1D Qc := {|
  nx := 4;
  dx := qc 1 4;
  X := [qc 0 1; qc 1 4; qc 1 2; qc 3 4; qc 1 1]
|}.

Definition ex_stepper : MacCormackStepper Qc :=
  {| grid := ex_grid; model := ex_model; epsilon := qc 1 4 |}.

Definition ex_u_init : list (list Qc) :=
  [[qc 1 1]; [qc 2 1]; [qc 4 1]; [qc 8 1]; [qc 16 1]].

Definition ex_empty : mstate Qc := MState [] [] [].

(** The state of the run from 0 to 1/8 when the loop is first reached, and
    after its first pass. *)
Definition ex_start : frame Qc * mstate Qc :=
  Eval vm_compute in
    match run_init (Some ex_grid) ex_stepper (qc 0 1) ex_u_init ex_empty with
    | Returns fr σ => (fr, σ)
    | _ => (Frame 0 0 0 (qc 0 1) 0, ex_empty)
    end.

Definition ex_next : frame Qc * mstate Qc :=
  Eval vm_compute in
    match loop_body ex_stepper (qc 1 8) ex_start.1 ex_start.2 with
    | Returns fr σ => (fr, σ)
    | _ => ex_start
    end.

Definition ex_last : frame Qc * mstate Qc :=
  Eval vm_compute in
    match loop_body ex_stepper (qc 1 8) ex_next.1 ex_next.2 with
    | Returns fr σ => (fr, σ)
    | _ => ex_next
    end.

Definition ex_dt0 : Qc :=
  Eval vm_compute in
    match cfl_dt ex_stepper with Ok dt => dt | Raise _ => qc 0 1 end.

(** The same grid with a model whose Jacobian is zero. *)
Definition ex_still_model : Model Qc := {|
  numVars := 1;
  jacobian := λ _, [[qc 0 1]];
  jacEigenvalues := λ _, [qc 1 1];
  applyLeftBC := λ _ _ _ _ _, [qc 7 1];
  applyRightBC := λ _ _ _ _ _, [qc 9 1]
|}.

Definition ex_still : MacCormackStepper Qc :=
  {| grid := ex_grid; model := ex_still_model; epsilon := qc 1 4 |}.

Definition ex_still_start : frame Qc * mstate Qc :=
  Eval vm_compute in
    match run_init (Some ex_grid) ex_still (qc 0 1) ex_u_init ex_empty with
    | Returns fr σ => (fr, σ)
    | _ => (Frame 0 0 0 (qc 0 1) 0, ex_empty)
    end.

Definition ex_still_next : frame Qc * mstate Qc :=
  Eval vm_compute in
    match loop_body ex_still (qc 1 8) ex_still_start.1 ex_still_start.2 with
    | Returns fr σ => (fr, σ)
    | _ => ex_still_start
    end.

(** A model all of whose eigenvalues are zero. *)
Definition ex_frozen_model : Model Qc := {|
  numVars := 1;
  jacobian := λ _, [[qc 0 1]];
  jacEigenvalues := λ _, [qc 0 1];
  applyLeftBC := λ _ _ _ _ _, [qc 7 1];
  applyRightBC := λ _ _ _ _ _, [qc 9 1]
|}.

Definition ex_frozen : MacCormackStepper Qc :=
  {| grid := ex_grid; model := ex_frozen_model; epsilon := qc 1 4 |}.

(** A grid of seven nodes, bound to the module-level name [grid] while the
    stepper holds [ex_grid]. *)
Definition ex_other_grid : Grid1D Qc := {|
  nx := 6;
  dx := qc 1 6;
  X := [qc 0 1; qc 1 6; qc 1 3; qc 1 2; qc 2 3; qc 5 6; qc 1 1]
|}.

(** In binary64: a model with an infinite eigenvalue, three nodes. *)
Definition ex_inf_model : Model float := {|
  numVars := 1;
  jacobian := λ _, [[1%float]];
  jacEigenvalues := λ _, [infinity];
  applyLeftBC := λ _ _ _ _ _, [7%float];
  applyRightBC := λ _ _ _ _ _, [9%float]
|}.

Definition ex_inf_grid : Grid1D float :=
  {| nx := 2; dx := 0.5%float; X := [0%float; 0.5%float; 1%float] |}.

Definition ex_inf : MacCormackStepper float :=
  {| grid := ex_inf_grid; model := ex_inf_model; epsilon := 0.25%float |}.

Definition ex_inf_u_init : list (list float) :=
  [[1%float]; [2%float]; [4%float]].

(** The preparation of a run followed by one pass of the loop body. *)
Definition first_pass {F} `{Scalar F} (module_grid : option (Grid1D F))
    (self : MacCormackStepper F) (t_init t_final : F)
    (u_init : list (list F)) : M F (frame F) :=
  bind (run_init module_grid self t_init u_init) (loop_body self t_final).

(** The recorded states of a run over the rationals, as fractions. *)
Definition fractions (l : list (option (list (list Qc))))
    : list (option (list (list Q))) :=
  map (option_map (map (map this))) l.

(** The one-variable state with the given row. *)
Definition row_state (row : list Q) : list (list Q) := map (λ x, [x]) row.

(** What can be observed of an outcome. *)
Definition returned {F A} (o : outcome F A) : option (A * mstate F) :=
  match o with
  | Returns a σ => Some (a, σ)
  | _ => None
  end.

Definition raised {F A} (o : outcome F A) : option exn :=
  match o with
  | Raises e _ => Some e
  | _ => None
  end.

Definition gave_up {F A} (o : outcome F A) : bool :=
  match o with
  | OutOfFuel => true
  | _ => false
  end.

(** The recorded states, in order. *)
Definition recorded {F} (σ : mstate F) : list (option (list (list F))) :=
  map (λ e, heap σ !! e.2) (history σ).

(** ** The error loop of the script (macCormack_stepper.py, lines 174-181) *)

Section Script.
Context {F : Type} `{Scalar F}.

(** The values of a list of fallible computations, or the first exception. *)
Fixpoint collect {A} (l : list (result A)) : result (list A) :=
  match l with
  | [] => Ok []
  | r :: l' => x <~ r ;; rest <~ collect l' ;; Ok (x :: rest)
  end.

(** An elementwise binary operator on two-dimensional arrays (lists of
    columns), with numpy's broadcasting along both axes. *)
Definition np_binop2 (f : F → F → F) (a b : list (list F))
    : result (list (list F)) :=
  if decide (length a = length b)
  then collect (zip_with (np_binop f) a b)
  else match a, b with
       | [u], _ => collect (map (np_binop f u) b)
       | _, [v] => collect (map (λ u, np_binop f u v) a)
       | _, _ => Raise ValueError
       end.

(** [sum(abs(col))] *)
Definition abs_sum (col : list F) : F := foldl fadd f0 (map fabs col).

(** [np.linalg.norm(a, 1)] for a two-dimensional [a]: the largest of the
    sums of magnitudes of the columns. *)
Definition np_linalg_norm_1 (a : list (list F)) : result F :=
  np_amax (map abs_sum a).

End Script.

(** [np.linalg.norm(err, 1)/nx/2], lines 179-180. *)
Definition err_norm (nx : nat) (Wex W : list (list Qc)) : result Qc :=
  err <~ np_binop2 fsub Wex W ;;
  n <~ np_linalg_norm_1 err ;;
  Ok (n / Q2Qc (inject_Z (Z.of_nat nx)) / Q2Qc 2)%Qc.

(** Lines 174-181 without the plots: the loop over [stepper.history], with
    the entries read from the heap; [exact_solution] stands for
    [model.exact_solution], [X] for [grid.X]. *)
Fixpoint max_err_scan (exact_solution : list Qc → Qc → list (list Qc))
    (X : list Qc) (nx : nat) (entries : list (Qc * list (list Qc)))
    (max_err : Qc) : result Qc :=
  match entries with
  | [] => Ok max_err
  | v :: rest =>
      let t := v.1 in
      let W := v.2 in
      let Wex := exact_solution X t in
      e <~ err_norm nx Wex W ;;
      max_err_scan exact_solution X nx rest (py_max e max_err)
  end.

(** [stepper.history] as the loop reads it: each time with the array its
    entry names. *)
Definition history_entries (σ : mstate Qc) : list (Qc * list (list Qc)) :=
  map (λ e, (e.1, heap σ !!! e.2)) (history σ).

(** The loop started with [max_err = 0.0] (line 174). *)
Definition script_max_err (exact_solution : list Qc → Qc → list (list Qc))
    (X : list Qc) (nx : nat) (σ : mstate Qc) : result Qc :=
  max_err_scan exact_solution X nx (history_entries σ) f0.

(** ** error_rate (error_rate_constant_speed_TBC.py) *)

(** What the operations of [error_rate] can raise: ValueError, for operands
    of [matmul] whose shapes do not fit, IndexError, for an index out of
    range, and numpy.linalg.LinAlgError, for a singular matrix. *)
Inductive np_exn := NpValueError | NpIndexError | LinAlgError.

Inductive np_result (A : Type) : Type :=
| Value (a : A)
| Throws (e : np_exn).
Arguments Value {A} a.
Arguments Throws {A} e.

(** A two-dimensional array of exact rationals: its rows and the length of
    a row (a list of rows alone cannot tell shape (0, 2) from (0, 0)). *)
Record array2 := Array2 {
  a2_ncols : nat;
  a2_rows  : list (list Qc)
}.

(** [a[:, j]] *)
Definition a2_column (a : array2) (j : nat) : list Qc :=
  map (λ row, nth j row (Q2Qc 0)) (a2_rows a).

(** [a.transpose()] *)
Definition a2_transpose (a : array2) : array2 :=
  Array2 (length (a2_rows a)) (map (a2_column a) (seq 0 (a2_ncols a))).

(** [np.array([r0, r1])] for two one-dimensional arrays of one length. *)
Definition np_array_of_two (r0 r1 : list Qc) : array2 :=
  Array2 (length r0) [r0; r1].

(** [np.matmul(a, b)] for two-dimensional [a] and [b]. *)
Definition np_matmul_2d (a b : array2) : np_result array2 :=
  if decide (a2_ncols a = length (a2_rows b)) then
    Value (Array2 (a2_ncols b)
             (map (λ row, map (λ j, dot row (a2_column b j))
                            (seq 0 (a2_ncols b))) (a2_rows a)))
  else Throws NpValueError.

(** [np.matmul(a, v)] for a two-dimensional [a] and a one-dimensional [v]. *)
Definition np_matmul_2d_1d (a : array2) (v : list Qc) : np_result (list Qc) :=
  if decide (a2_ncols a = length v) then
    Value (map (λ row, dot row v) (a2_rows a))
  else Throws NpValueError.

(** [np.linalg.solve(A, b)] for a 2-by-2 matrix and a vector of two entries,
    the only shapes [error_rate] passes: LAPACK's elimination with partial
    pivoting (the row with the larger first entry in magnitude comes first,
    the first on a tie), which reports a singular matrix when a pivot is
    exactly zero. *)
Definition np_linalg_solve (A : array2) (b : list Qc) : np_result (list Qc) :=
  match a2_rows A, b with
  | [[a11; a12]; [a21; a22]], [b1; b2] =>
      let '(p1, p2, q1, q2, c1, c2) :=
        if fltb (fabs a11) (fabs a21)
        then (a21, a22, a11, a12, b2, b1)
        else (a11, a12, a21, a22, b1, b2) in
      if feqb p1 f0 then Throws LinAlgError
      else
        let l := fdiv q1 p1 in
        let u22 := fsub q2 (fmul l p2) in
        if feqb u22 f0 then Throws LinAlgError
        else
          let y2 := fsub c2 (fmul l c1) in
          let x2 := fdiv y2 u22 in
          let x1 := fdiv (fsub c1 (fmul p2 x2)) p1 in
          Value [x1; x2]
  | _, _ => Throws LinAlgError
  end.

(** Sequencing: the first exception ends the computation. *)
Definition np_bind {A B} (r : np_result A) (k : A → np_result B)
    : np_result B :=
  match r with
  | Value a => k a
  | Throws e => Throws e
  end.

(** [error_rate(Nx, error)], lines 4-20.  [np_log] stands for [np.log] on a
    number; the statements hold whatever its values are. *)
Definition error_rate (np_log : Qc → Qc) (Nx error : list Qc) : np_result Qc :=
  let logNx := map np_log Nx in
  let logError := map np_log error in
  let ones := replicate (length logNx) (Q2Qc 1) in
  let V := a2_transpose (np_array_of_two ones logNx) in
  np_bind (np_matmul_2d (a2_transpose V) V) (λ A,
  np_bind (np_matmul_2d_1d (a2_transpose V) logError) (λ b,
  np_bind (np_linalg_solve A b) (λ c,
  match c !! 1%nat with
  | Some c1 => Value c1
  | None => Throws NpIndexError
  end))).

(** The sums of the least-squares fit of a line to the points [(x, y)]. *)
Definition qsum (l : list Qc) : Qc := foldr Qcplus (Q2Qc 0) l.
Definition qcount (l : list Qc) : Qc := Q2Qc (inject_Z (Z.of_nat (length l))).
Definition products (xs ys : list Qc) : list Qc := zip_with Qcmult xs ys.

(** [n * sum x^2 - (sum x)^2] *)
Definition spread (xs : list Qc) : Qc :=
  (qcount xs * qsum (products xs xs) - qsum xs * qsum xs)%Qc.

(** The slope of the least-squares line:
    [(n * sum x y - sum x * sum y) / (n * sum x^2 - (sum x)^2)]. *)
Definition ols_slope (xs ys : list Qc) : Qc :=
  ((qcount xs * qsum (products xs ys) - qsum xs * qsum ys) / spread xs)%Qc.

(** The sum of the squared residuals of the line [a + b x]. *)
Definition sq_residuals (xs ys : list Qc) (a b : Qc) : Qc :=
  qsum (zip_with (λ x y, (y - (a + b * x)) * (y - (a + b * x)))%Qc xs ys).

(** ** Vocabulary of the statements over the rationals *)

(** The time [k] unclamped steps of size [dt0] after [t_init]. *)
Definition after_steps (t_init : Qc) (k : nat) (dt0 : Qc) : Qc :=
  (t_init + Q2Qc (inject_Z (Z.of_nat k)) * dt0)%Qc.

(** The Lax-Wendroff update of a column [u] between [um] and [up], with
    [nu = dt / dx] and a constant matrix [J]:
    [u - nu/2 * J (up - um) + nu^2/2 * J J (up - 2 u + um)]. *)
Definition lax_wendroff (nu : Qc) (J : list (list Qc)) (um u up : list Qc)
    : list Qc :=
  vadd (vsub u (scale (nu * fhalf)%Qc (matvec J (vsub up um))))
       (scale (nu * nu * fhalf)%Qc
          (matvec J (matvec J (vadd (vsub up (vadd u u)) um)))).

(** ** Further small problems *)

(** A stepper with safety factor zero. *)
Definition ex_stalled : MacCormackStepper Qc :=
  {| grid := ex_grid; model := ex_model; epsilon := qc 0 1 |}.

Definition ex_stalled_dt0 : Qc :=
  Eval vm_compute in
    match cfl_dt ex_stalled with Ok dt => dt | Raise _ => qc 1 1 end.

(** The run from 0 to 1/8 made a second time, from the machine state the
    first run left. *)
Definition ex_again : frame Qc * mstate Qc :=
  Eval vm_compute in
    match run (Some ex_grid) ex_stepper 7 (qc 0 1) (qc 1 8) ex_u_init ex_last.2
    with
    | Returns fr σ => (fr, σ)
    | _ => ex_last
    end.

(** Three points on the line [y = 7 - 2 x], with the identity in place of
    the logarithm. *)
Definition ex_nodes : list Qc := [qc 1 1; qc 2 1; qc 4 1].
Definition ex_errors : list Qc := [qc 5 1; qc 3 1; qc (-1) 1].

Definition ex_rate : Qc :=
  Eval vm_compute in
    match error_rate (λ x, x) ex_nodes ex_errors with
    | Value p => p
    | Throws _ => qc 0 1
    end.

(** The initial state of [ex_u_init] made flat around node 2. *)
Definition ex_flat_u_init : list (list Qc) :=
  [[qc 1 1]; [qc 5 1]; [qc 5 1]; [qc 5 1]; [qc 16 1]].

Definition ex_flat_start : frame Qc * mstate Qc :=
  Eval vm_compute in
    match run_init (Some ex_grid) ex_stepper (qc 0 1) ex_flat_u_init ex_empty
    with
    | Returns fr σ => (fr, σ)
    | _ => (Frame 0 0 0 (qc 0 1) 0, ex_empty)
    end.

Definition ex_flat_next : frame Qc * mstate Qc :=
  Eval vm_compute in
    match loop_body ex_stepper (qc 1 8) ex_flat_start.1 ex_flat_start.2 with
    | Returns fr σ => (fr, σ)
    | _ => ex_flat_start
    end.

(** *** In binary64 *)

(** The decimal literals 0.2, 0.3 and 0.9 as Python reads them, that is,
    the nearest binary64 values; and the two neighbours of 0.9, which
    Python prints as 0.8999999999999999 and 0.9000000000000001. *)
Definition float_0_2 : float := 0x1.999999999999ap-3%float.
Definition float_0_3 : float := 0x1.3333333333333p-2%float.
Definition float_0_9 : float := 0x1.ccccccccccccdp-1%float.
Definition float_below_0_9 : float := 0x1.cccccccccccccp-1%float.
Definition float_above_0_9 : float := 0x1.ccccccccccccep-1%float.

(** One variable, transport at speed one, with the eigenvalue [lam]
    reported at every node. *)
Definition ex_float_model (lam : float) : Model float := {|
  numVars := 1;
  jacobian := λ _, [[1%float]];
  jacEigenvalues := λ _, [lam];
  applyLeftBC := λ _ _ _ _ _, [7%float];
  applyRightBC := λ _ _ _ _ _, [9%float]
|}.

(** A stepper whose CFL step is 1.0: 0.25 * (0.5 / 0.125). *)
Definition ex_unit_step : MacCormackStepper float :=
  {| grid := ex_inf_grid; model := ex_float_model 0.125%float;
     epsilon := 0.25%float |}.

(** Its run from 0.3 to 0.9. *)
Definition ex_unit_run : frame float * mstate float :=
  Eval vm_compute in
    match run (Some ex_inf_grid) ex_unit_step 5 float_0_3 float_0_9
            ex_inf_u_init (MState [] [] [])
    with
    | Returns fr σ => (fr, σ)
    | _ => (Frame 0 0 0 0%float 0, MState [] [] [])
    end.




(** Two variables, with a NaN as second eigenvalue. *)
Definition ex_nan_model : Model float := {|
  numVars := 2;
  jacobian := λ _, [[1%float; 0%float]; [0%float; 1%float]];
  jacEigenvalues := λ _, [1%float; nan];
  applyLeftBC := λ _ _ _ _ _, [7%float; 7%float];
  applyRightBC := λ _ _ _ _ _, [9%float; 9%float]
|}.

Definition ex_nan : MacCormackStepper float :=
  {| grid := ex_inf_grid; model := ex_nan_model; epsilon := 0.25%float |}.

Definition ex_nan_u_init : list (list float) :=
  [[1%float; 1%float]; [2%float; 2%float]; [4%float; 4%float]].

(** A zero Jacobian and a state with the interior value 2^1023. *)
Definition ex_still_float_model : Model float := {|
  numVars := 1;
  jacobian := λ _, [[0%float]];
  jacEigenvalues := λ _, [1%float];
  applyLeftBC := λ _ _ _ _ _, [7%float];
  applyRightBC := λ _ _ _ _ _, [9%float]
|}.

Definition ex_still_float : MacCormackStepper float :=
  {| grid := ex_inf_grid; model := ex_still_float_model;
     epsilon := 0.25%float |}.

Definition ex_huge_u_init : list (list float) :=
  [[1%float]; [0x1p+1023%float]; [4%float]].

(** ** Facts *)

Section Facts.
Context {F : Type} `{Scalar F}.

Abbreviation vec := (list F).
Abbreviation ndarray := (list (list F)).

(** *** Rules of the program logic *)



Lemma wp_ret {A} tot (a : A) Q (σ : mstate F) : Q a σ → wp tot (ret a) Q σ.
Proof. done. Qed.

Lemma wp_bind {A B} tot (m : M F A) (k : A → M F B) Q (σ : mstate F) :
  wp tot m (λ a σ', wp tot (k a) Q σ') σ → wp tot (bind m k) Q σ.
Proof. unfold wp, bind. by destruct (m σ). Qed.

Lemma wp_lift {A} tot (r : result A) Q (σ : mstate F) :
  match r with Ok a => Q a σ | Raise _ => tot = false end →
  wp tot (lift r) Q σ.
Proof. unfold wp, lift. by destruct r. Qed.

Lemma wp_load tot l Q (σ : mstate F) : Q (heap σ !!! l) σ → wp tot (load l) Q σ.
Proof. done. Qed.

Lemma wp_store tot l a Q (σ : mstate F) : Q tt (upd l a σ) → wp tot (store l a) Q σ.
Proof. done. Qed.

Lemma wp_alloc tot a Q (σ : mstate F) :
  Q (length (heap σ)) (MState (heap σ ++ [a]) (history σ) (calls σ)) →
  wp tot (alloc a) Q σ.
Proof. done. Qed.

Lemma wp_emit tot e Q (σ : mstate F) :
  Q tt (MState (heap σ) (history σ) (calls σ ++ [e])) → wp tot (emit e) Q σ.
Proof. done. Qed.

Lemma wp_history_append tot e Q (σ : mstate F) :
  Q tt (MState (heap σ) (history σ ++ [e]) (calls σ)) →
  wp tot (history_append e) Q σ.
Proof. done. Qed.

Lemma wp_history_clear tot Q (σ : mstate F) :
  Q tt (MState (heap σ) [] (calls σ)) → wp tot history_clear Q σ.
Proof. done. Qed.

Lemma wp_mono {A} tot (m : M F A) (Q Q' : A → mstate F → Prop) σ :
  wp tot m Q σ → (∀ a s, Q a s → Q' a s) → wp tot m Q' σ.
Proof. unfold wp. destruct (m σ); auto. Qed.

Lemma wp_elim {A} tot (m : M F A) Q (σ : mstate F) a σ' :
  wp tot m Q σ → m σ = Returns a σ' → Q a σ'.
Proof. unfold wp. intros Hwp Heq. by rewrite Heq in Hwp. Qed.

Lemma wp_total {A} (m : M F A) Q (σ : mstate F) :
  wp true m Q σ → ∃ a σ', m σ = Returns a σ' ∧ Q a σ'.
Proof. unfold wp. destruct (m σ); naive_solver. Qed.

Lemma wp_ext {A} tot (m m' : M F A) Q (σ : mstate F) :
  m σ = m' σ → wp tot m' Q σ → wp tot m Q σ.
Proof. unfold wp. by intros ->. Qed.

Lemma wp_for_each_from {A} tot (I : list A → mstate F → Prop)
    (body : A → M F unit) (l pre : list A) σ :
  I pre σ →
  (∀ pre' x post s, pre ++ l = pre' ++ x :: post → I pre' s →
     wp tot (body x) (λ _ s', I (pre' ++ [x]) s') s) →
  wp tot (for_each l body) (λ _ s', I (pre ++ l) s') σ.
Proof.
  revert pre σ. induction l as [|x l IH]; intros pre σ HI Hbody; simpl.
  - apply wp_ret. by rewrite app_nil_r.
  - apply wp_bind. eapply wp_mono; [by apply (Hbody pre x l)|].
    intros [] s Hs. simpl in *.
    replace (pre ++ x :: l) with ((pre ++ [x]) ++ l) by by rewrite <-app_assoc.
    apply IH; [done|]. intros pre' y post s0 Heq. apply (Hbody pre' y post).
    by rewrite <-Heq, <-app_assoc.
Qed.

Lemma wp_for_each {A} tot (I : list A → mstate F → Prop)
    (body : A → M F unit) (l : list A) σ :
  I [] σ →
  (∀ pre x post s, l = pre ++ x :: post → I pre s →
     wp tot (body x) (λ _ s', I (pre ++ [x]) s') s) →
  wp tot (for_each l body) (λ _ s', I l s') σ.
Proof. intros. by apply (wp_for_each_from tot I body l []). Qed.

Lemma seq_split_at lo n (pre : list nat) x post :
  seq lo n = pre ++ x :: post → x = lo + length pre ∧ length pre < n.
Proof.
  intros Heq. split.
  - assert (seq lo n !! length pre = Some x) as Hl.
    { rewrite Heq. by rewrite list_lookup_middle. }
    apply lookup_seq in Hl. lia.
  - apply (f_equal length) in Heq.
    rewrite length_seq, length_app in Heq. simpl in Heq. lia.
Qed.

(** The counting loop [for i in range(lo, hi)], with an invariant indexed
    by the next value of [i]. *)
Lemma wp_for_range tot (I : nat → mstate F → Prop) (body : nat → M F unit)
    lo hi σ :
  I lo σ →
  (∀ i s, lo ≤ i < hi → I i s → wp tot (body i) (λ _ s', I (S i) s') s) →
  wp tot (for_each (range lo hi) body) (λ _ s', I (lo + (hi - lo)) s') σ.
Proof.
  intros H0 Hbody.
  eapply wp_mono.
  - apply (wp_for_each tot (λ pre s, I (lo + length pre) s)).
    + simpl. by rewrite Nat.add_0_r.
    + intros pre x post s Heq HI. apply seq_split_at in Heq as [-> Hlt].
      eapply wp_mono; [apply Hbody; [lia|done]|].
      intros [] s' Hs'. simpl in *. rewrite length_app. simpl.
      by replace (lo + (length pre + 1)) with (S (lo + length pre)) by lia.
  - intros [] s Hs. simpl in Hs. unfold range in Hs. by rewrite length_seq in Hs.
Qed.

(** *** Shapes *)


Lemma shape_lookup r c (u : ndarray) i col :
  shape r c u → u !! i = Some col → length col = r ∧ i < c.
Proof.
  intros [Hc Hr] Hi. split.
  - by eapply (Forall_lookup_1 _ _ _ _ Hr).
  - rewrite <-Hc. by eapply lookup_lt_Some.
Qed.

Lemma shape_lookup_lt r c (u : ndarray) i :
  shape r c u → i < c → ∃ col, u !! i = Some col ∧ length col = r.
Proof.
  intros Hs Hi. destruct (lookup_lt_is_Some_2 u i) as [col Hcol].
  { destruct Hs as [-> _]. done. }
  exists col. split; [done|]. by eapply shape_lookup.
Qed.

Lemma shape_insert r c (u : ndarray) i v :
  shape r c u → length v = r → shape r c (<[i := v]> u).
Proof.
  intros [Hc Hr] Hv. split; [by rewrite length_insert|].
  apply Forall_insert; done.
Qed.

Lemma shape_nrows r c (u : ndarray) : shape r c u → 0 < c → nrows u = r.
Proof.
  intros [Hc Hr] Hpos. destruct u as [|col u]; simpl in *; [lia|].
  by inversion Hr.
Qed.

Lemma shape_np_zeros r c : shape r c (np_zeros r c).
Proof.
  split; [apply length_replicate|].
  apply Forall_replicate, length_replicate.
Qed.

Lemma broadcast_to_length n (v v' : vec) : broadcast_to n v = Ok v' → length v' = n.
Proof.
  unfold broadcast_to. case_decide; [naive_solver|].
  destruct v as [|x [|]]; try done. intros [= <-]. apply length_replicate.
Qed.

Lemma broadcast_to_same n (v : vec) : length v = n → broadcast_to n v = Ok v.
Proof. intros. unfold broadcast_to. by case_decide. Qed.

(** Broadcasting to the length a vector already has, or a one-element
    vector to length one, changes nothing. *)
Lemma broadcast_to_id n (v v' : vec) :
  broadcast_to n v = Ok v' → length v = n ∨ n = 1 → v' = v.
Proof.
  unfold broadcast_to. case_decide; [naive_solver|].
  destruct v as [|x [|]]; try done. intros [= <-] [?| ->]; done.
Qed.

Lemma broadcast_cols_shape r (src d : ndarray) :
  broadcast_cols r src = Ok d → shape r (length src) d.
Proof.
  revert d. induction src as [|c src IH]; intros d; simpl.
  - intros [= <-]. by split.
  - destruct (broadcast_to r c) as [c'|] eqn:Hc; [|done]. simpl.
    destruct (broadcast_cols r src) as [rest|] eqn:Hrest; [|done]. simpl.
    intros [= <-]. destruct (IH rest eq_refl) as [Hl Hf].
    split; [simpl; by rewrite Hl|].
    constructor; [by eapply broadcast_to_length|done].
Qed.

Lemma broadcast_cols_same r (src : ndarray) :
  Forall (λ col, length col = r) src → broadcast_cols r src = Ok src.
Proof.
  induction 1 as [|c src Hc _ IH]; simpl; [done|].
  by rewrite (broadcast_to_same _ _ Hc), IH.
Qed.

Lemma np_copyto_shape r c (dst src d : ndarray) :
  shape r c dst → 0 < c → np_copyto dst src = Ok d → shape r c d.
Proof.
  intros Hdst Hpos. unfold np_copyto.
  rewrite (shape_nrows _ _ _ Hdst Hpos). destruct Hdst as [Hl _].
  case_decide as Hlen.
  - intros Hb%broadcast_cols_shape. by rewrite Hlen, Hl in Hb.
  - destruct src as [|col [|]]; try done.
    destruct (broadcast_to r col) as [c'|] eqn:Hc; [|done]. simpl.
    intros [= <-]. rewrite Hl. split; [apply length_replicate|].
    apply Forall_replicate. by eapply broadcast_to_length.
Qed.

Lemma np_copyto_same r c (dst src : ndarray) :
  shape r c dst → shape r c src → 0 < c → np_copyto dst src = Ok src.
Proof.
  intros Hdst [Hl Hf] Hpos. unfold np_copyto.
  rewrite (shape_nrows _ _ _ Hdst Hpos). destruct Hdst as [Hl' _].
  rewrite decide_True by congruence. by apply broadcast_cols_same.
Qed.

Lemma setcol_inv r c (u : ndarray) i (v : vec) (u' : ndarray) :
  shape r c u → setcol u i v = Ok u' →
  ∃ v', broadcast_to r v = Ok v' ∧ u' = <[i := v']> u ∧ i < c.
Proof.
  intros Hs. unfold setcol. destruct (u !! i) as [col|] eqn:Hi; [|done].
  destruct (shape_lookup _ _ _ _ _ Hs Hi) as [-> Hlt].
  destruct (broadcast_to _ v) as [v'|] eqn:Hv; [|done]. simpl.
  intros [= <-]. by exists v'.
Qed.

Lemma setcol_same r c (u : ndarray) i (v : vec) :
  shape r c u → i < c → length v = r → setcol u i v = Ok (<[i := v]> u).
Proof.
  intros Hs Hi Hv. unfold setcol.
  destruct (shape_lookup_lt _ _ _ _ Hs Hi) as (col & -> & Hcol).
  by rewrite broadcast_to_same by congruence.
Qed.

Lemma np_binop_length f (u v w : vec) :
  np_binop f u v = Ok w → length w = length u ∨ length u = 1.
Proof.
  unfold np_binop. case_decide as Hl.
  - intros [= <-]. left. rewrite length_zip_with. lia.
  - destruct u as [|a [|]], v as [|b [|]]; simpl in *; try done;
      intros [= <-]; simpl; rewrite ?length_map; auto.
Qed.

Lemma np_binop_same f (u v : vec) :
  length u = length v → np_binop f u v = Ok (zip_with f u v).
Proof. intros. unfold np_binop. by case_decide. Qed.

Lemma np_matmul_same (J : list vec) (v : vec) :
  Forall (λ row, length row = length v) J →
  np_matmul J v = Ok (map (λ row, dot row v) J).
Proof.
  intros HJ. unfold np_matmul.
  assert (forallb (λ r, Nat.eqb (length r) (length v)) J = true) as ->; [|done].
  apply forallb_forall. intros row Hin.
  apply Nat.eqb_eq. rewrite Forall_forall in HJ. apply HJ.
  first [done | by apply list_elem_of_In].
Qed.

Lemma index_Ok {A} (l : list A) i x : index l i = Ok x ↔ l !! i = Some x.
Proof. unfold index. destruct (l !! i); naive_solver. Qed.

(** *** The heap *)

Lemma lookup_total_Some (h : list ndarray) l u : h !! l = Some u → h !!! l = u.
Proof. apply list_lookup_total_correct. Qed.

Lemma lookup_upd_eq l a (σ : mstate F) :
  l < length (heap σ) → heap (upd l a σ) !! l = Some a.
Proof. intros. simpl. by apply list_lookup_insert_eq. Qed.

Lemma lookup_upd_ne l l' a (σ : mstate F) :
  l ≠ l' → heap (upd l a σ) !! l' = heap σ !! l'.
Proof. intros. simpl. by apply list_lookup_insert_ne. Qed.

Lemma upd_upd_eq l a b (σ : mstate F) : upd l a (upd l b σ) = upd l a σ.
Proof. unfold upd. simpl. by rewrite list_insert_insert_eq. Qed.

Lemma upd_id l a (σ : mstate F) : heap σ !! l = Some a → upd l a σ = σ.
Proof.
  intros Hl. destruct σ as [h hi ca]. unfold upd. simpl in *.
  by rewrite list_insert_id.
Qed.

Lemma holds_valid (h : list ndarray) l r c : holds h l r c → l < length h.
Proof. intros (u & Hl & _). by eapply lookup_lt_Some. Qed.

Lemma holds_insert_eq (h : list ndarray) l r c a :
  holds h l r c → shape r c a → holds (<[l := a]> h) l r c.
Proof.
  intros Hh Hs. exists a. split; [|done].
  apply list_lookup_insert_eq. by eapply holds_valid.
Qed.

Lemma holds_insert_ne (h : list ndarray) l l' r c a :
  l ≠ l' → holds h l' r c → holds (<[l := a]> h) l' r c.
Proof.
  intros Hne (u & Hl & Hs). exists u. by rewrite list_lookup_insert_ne.
Qed.

Lemma holds_app (h : list ndarray) l r c a :
  holds h l r c → holds (h ++ [a]) l r c.
Proof.
  intros (u & Hl & Hs). exists u. split; [|done].
  rewrite lookup_app_l; [done|]. by eapply lookup_lt_Some.
Qed.

Lemma bufs_ok_insert r c fr (h : list ndarray) l a :
  bufs_ok r c fr h → is_buffer fr l → shape r c a →
  bufs_ok r c fr (<[l := a]> h).
Proof.
  intros (Hc & N1 & N2 & N3 & H1 & H2 & H3) Hl Hs.
  destruct Hl as [-> | [-> | ->] ]; repeat split; try done;
    first [ by apply holds_insert_eq | by apply holds_insert_ne ].
Qed.

(** *** Rules for the statements on arrays *)

Lemma wp_getcol tot l i Q (σ : mstate F) :
  match index (heap σ !!! l) i with
  | Ok v => Q v σ
  | Raise _ => tot = false
  end →
  wp tot (getcol l i) Q σ.
Proof. intros. unfold getcol. apply wp_bind, wp_load. by apply wp_lift. Qed.

Lemma wp_putcol tot l i v Q (σ : mstate F) :
  match setcol (heap σ !!! l) i v with
  | Ok u' => Q tt (upd l u' σ)
  | Raise _ => tot = false
  end →
  wp tot (putcol l i v) Q σ.
Proof.
  intros Hs. unfold putcol. apply wp_bind, wp_load, wp_bind, wp_lift.
  destruct (setcol _ i v); [|done]. by apply wp_store.
Qed.

Lemma wp_putcol_last tot l v Q (σ : mstate F) :
  match setcol (heap σ !!! l) (length (heap σ !!! l) - 1) v with
  | Ok u' => Q tt (upd l u' σ)
  | Raise _ => tot = false
  end →
  wp tot (putcol_last l v) Q σ.
Proof.
  intros Hs. unfold putcol_last. apply wp_bind, wp_load, wp_bind, wp_lift.
  destruct (setcol _ _ v); [|done]. by apply wp_store.
Qed.

Lemma wp_copyto tot dst src Q (σ : mstate F) :
  match np_copyto (heap σ !!! dst) (heap σ !!! src) with
  | Ok d' => Q tt (upd dst d' σ)
  | Raise _ => tot = false
  end →
  wp tot (copyto dst src) Q σ.
Proof.
  intros Hs. unfold copyto.
  apply wp_bind, wp_load, wp_bind, wp_load, wp_bind, wp_lift.
  destruct (np_copyto _ _); [|done]. by apply wp_store.
Qed.

Lemma wp_copyto_from tot dst src Q (σ : mstate F) :
  match np_copyto (heap σ !!! dst) src with
  | Ok d' => Q tt (upd dst d' σ)
  | Raise _ => tot = false
  end →
  wp tot (copyto_from dst src) Q σ.
Proof.
  intros Hs. unfold copyto_from. apply wp_bind, wp_load, wp_bind, wp_lift.
  destruct (np_copyto _ _); [|done]. by apply wp_store.
Qed.

Lemma wp_deepcopy tot l Q (σ : mstate F) :
  Q (length (heap σ))
    (MState (heap σ ++ [heap σ !!! l]) (history σ) (calls σ)) →
  wp tot (deepcopy l) Q σ.
Proof. intros. unfold deepcopy. apply wp_bind, wp_load. by apply wp_alloc. Qed.

(** *** The predictor and the corrector *)

Lemma rbind_Ok {A B} (e : result A) (k : A → result B) b :
  rbind e k = Ok b → ∃ a, e = Ok a ∧ k a = Ok b.
Proof. destruct e as [a|]; [|done]. simpl. by exists a. Qed.

Ltac inv_rbind H :=
  repeat (let a := fresh "a" in let E := fresh "E" in
          apply rbind_Ok in H as (a & E & H)).

Lemma length_divide (v : vec) c : length (divide v c) = length v.
Proof. apply length_map. Qed.

Lemma length_scale c (v : vec) : length (scale c v) = length v.
Proof. apply length_map. Qed.

Lemma predictor_rhs_length self dt r c (U : ndarray) i v :
  shape r c U → predictor_rhs self dt U i = Ok v → length v = r ∨ r = 1.
Proof.
  intros HU Hv. unfold predictor_rhs in Hv. inv_rbind Hv.
  match goal with E : index U i = Ok ?b |- _ =>
    apply index_Ok in E; destruct (shape_lookup _ _ _ _ _ HU E) as [Hb _] end.
  apply np_binop_length in Hv. rewrite Hb in Hv. done.
Qed.

Lemma predictor_rhs_total self dt r c (U : ndarray) i :
  total_ok self r c → shape r c U → 1 ≤ i < nx (grid self) →
  ∃ v, predictor_rhs self dt U i = Ok v ∧ length v = r.
Proof.
  intros ((HJ & _) & -> & Hc & HX) HU Hi. unfold predictor_rhs.
  destruct (shape_lookup_lt _ _ U (i + 1) HU) as (a & Ha & Hla); [lia|].
  destruct (shape_lookup_lt _ _ U i HU) as (b & Hb & Hlb); [lia|].
  destruct (lookup_lt_is_Some_2 (X (grid self)) i) as [x Hx].
  { unfold grid_ok in HX. lia. }
  apply index_Ok in Ha, Hb, Hx. rewrite Ha, Hb. simpl.
  rewrite np_binop_same by congruence. simpl. rewrite Hx. simpl.
  destruct (HJ x) as [HJl HJr].
  rewrite np_matmul_same; simpl.
  2:{ eapply Forall_impl; [|exact HJr]. intros row Hrow. simpl in Hrow.
      rewrite length_divide, length_zip_with. lia. }
  rewrite np_binop_same by (rewrite length_scale, length_map; congruence).
  eexists. split; [done|].
  rewrite length_zip_with, length_scale, length_map. lia.
Qed.

(** A loop [for i in range(1, n): d[:, i] = rhs(i)] whose right-hand side
    does not read [d]: afterwards the columns 1 .. n-1 of [d] hold the
    values of the right-hand side, and the others are as before. *)
Lemma column_loop tot r c (σ : mstate F) d (D0 : ndarray) n
    (rhs : nat → result vec) (body : nat → M F unit) :
  heap σ !! d = Some D0 → shape r c D0 →
  (∀ i D, 1 ≤ i < n → shape r c D →
     body i (upd d D σ) = bind (lift (rhs i)) (λ v, putcol d i v) (upd d D σ)) →
  (∀ i v, 1 ≤ i < n → rhs i = Ok v → length v = r ∨ r = 1) →
  (tot = true → n ≤ c ∧ ∀ i, 1 ≤ i < n → ∃ v, rhs i = Ok v ∧ length v = r) →
  wp tot (for_each (range 1 n) body)
     (λ _ σ', ∃ D, σ' = upd d D σ ∧ shape r c D ∧
        (∀ i, 1 ≤ i < n → ∃ v, rhs i = Ok v ∧ D !! i = Some v) ∧
        (∀ j, ¬ (1 ≤ j < n) → D !! j = D0 !! j)) σ.
Proof.
  intros Hd HsD Hbody Hlen Htot.
  eapply wp_mono.
  - apply (wp_for_range tot (λ k s, ∃ D, s = upd d D σ ∧ shape r c D ∧
        (∀ i, 1 ≤ i < k → ∃ v, rhs i = Ok v ∧ D !! i = Some v) ∧
        (∀ j, ¬ (1 ≤ j < k) → D !! j = D0 !! j))).
    + exists D0. split; [by rewrite upd_id|]. split; [done|]. split; [lia|done].
    + intros i s Hi (D & -> & HsD' & Hdone & Hrest).
      eapply wp_ext; [by apply Hbody|].
      apply wp_bind, wp_lift.
      destruct (rhs i) as [v|e] eqn:Hv.
      2:{ destruct tot; [|done].
          destruct (Htot eq_refl) as [_ Hok].
          destruct (Hok i Hi) as (? & ? & _). congruence. }
      apply wp_putcol.
      rewrite (lookup_total_Some _ _ D).
      2:{ apply lookup_upd_eq. by eapply lookup_lt_Some. }
      destruct (setcol D i v) as [u'|e] eqn:Hset.
      2:{ destruct tot; [|done].
          destruct (Htot eq_refl) as [Hn Hok].
          destruct (Hok i Hi) as (v0 & Hv0 & Hl0).
          assert (v0 = v) as -> by congruence.
          rewrite (setcol_same r c) in Hset; [done..| |done]. lia. }
      destruct (setcol_inv _ _ _ _ _ _ HsD' Hset) as (v' & Hbc & -> & Hic).
      assert (v' = v) as ->.
      { eapply broadcast_to_id; [done|]. by eapply Hlen. }
      exists (<[i := v]> D). split; [by rewrite upd_upd_eq|]. split.
      { apply shape_insert; [done|]. by eapply broadcast_to_length. }
      split.
      * intros i' Hi'. destruct (decide (i' = i)) as [->|Hne].
        -- exists v. split; [done|]. apply list_lookup_insert_eq.
           by destruct HsD' as [-> _].
        -- destruct (Hdone i') as (w & Hw & Hlw); [lia|].
           exists w. split; [done|]. by rewrite list_lookup_insert_ne.
      * intros j Hj. rewrite list_lookup_insert_ne by lia. apply Hrest. lia.
  - intros [] s (D & -> & HsD' & Hdone & Hrest). exists D.
    split; [done|]. split; [done|]. split.
    + intros i Hi. apply Hdone. lia.
    + intros j Hj. apply Hrest. lia.
Qed.

Lemma predictor_spec tot self r c fr dt (σ : mstate F) U P0 :
  bufs_ok r c fr (heap σ) →
  heap σ !! u_prev fr = Some U → heap σ !! u_pred fr = Some P0 →
  (tot = true → total_ok self r c) →
  wp tot (predictor self fr dt)
     (λ _ σ', ∃ P, σ' = upd (u_pred fr) P σ ∧ shape r c P ∧
        (∀ i, 1 ≤ i < nx (grid self) →
              ∃ v, predictor_rhs self dt U i = Ok v ∧ P !! i = Some v) ∧
        (∀ j, ¬ (1 ≤ j < nx (grid self)) → P !! j = P0 !! j)) σ.
Proof.
  intros Hb HU HP0 Htot.
  destruct Hb as (Hc & N1 & N2 & N3 & (U' & HU' & HsU) & (P0' & HP0' & HsP) & HC).
  assert (U' = U) as -> by congruence. assert (P0' = P0) as -> by congruence.
  unfold predictor.
  apply (column_loop tot r c σ (u_pred fr) P0 (nx (grid self))
           (predictor_rhs self dt U)); try done.
  - intros i D Hi HsD. unfold bind at 1, load.
    by rewrite (lookup_total_Some _ _ U) by by rewrite lookup_upd_ne.
  - intros i v _ Hv. exact (predictor_rhs_length self dt r c U i v HsU Hv).
  - intros ->. pose proof (Htot eq_refl) as Hok.
    split; [destruct Hok as (? & ? & ? & ?); lia|].
    intros i Hi. by apply (predictor_rhs_total self dt r c).
Qed.

Lemma corrector_rhs_length self dt r c (U P : ndarray) i v :
  shape r c U → shape r c P →
  corrector_rhs self dt U P i = Ok v → length v = r ∨ r = 1.
Proof.
  intros HU HP Hv. unfold corrector_rhs in Hv. inv_rbind Hv.
  repeat match goal with E : index _ _ = Ok _ |- _ => apply index_Ok in E end.
  repeat match goal with
         | E : U !! _ = Some _ |- _ => apply (shape_lookup _ _ _ _ _ HU) in E as [? _]
         | E : P !! _ = Some _ |- _ => apply (shape_lookup _ _ _ _ _ HP) in E as [? _]
         end.
  apply np_binop_length in Hv. rewrite length_scale in Hv.
  match goal with E : np_binop fadd _ _ = Ok _ |- _ =>
    rewrite np_binop_same in E by congruence; injection E as <- end.
  rewrite length_zip_with in Hv. lia.
Qed.

Lemma corrector_rhs_total self dt r c (U P : ndarray) i :
  total_ok self r c → shape r c U → shape r c P → 1 ≤ i < nx (grid self) →
  ∃ v, corrector_rhs self dt U P i = Ok v ∧ length v = r.
Proof.
  intros ((HJ & _) & -> & Hc & HX) HU HP Hi. unfold corrector_rhs.
  destruct (shape_lookup_lt _ _ P i HP) as (a & Ha & Hla); [lia|].
  destruct (shape_lookup_lt _ _ P (i - 1) HP) as (b & Hb & Hlb); [lia|].
  destruct (shape_lookup_lt _ _ U i HU) as (q & Hq & Hlq); [lia|].
  destruct (lookup_lt_is_Some_2 (X (grid self)) i) as [x Hx].
  { unfold grid_ok in HX. lia. }
  apply index_Ok in Ha, Hb, Hq, Hx. rewrite Ha, Hb. simpl.
  rewrite np_binop_same by congruence. simpl. rewrite Hx. simpl.
  rewrite Hq. simpl. rewrite np_binop_same by congruence. simpl.
  destruct (HJ x) as [HJl HJr].
  rewrite np_matmul_same; simpl.
  2:{ eapply Forall_impl; [|exact HJr]. intros row Hrow. simpl in Hrow.
      rewrite length_divide, length_zip_with. lia. }
  rewrite np_binop_same
    by (rewrite !length_scale, length_map, length_zip_with; lia).
  eexists. split; [done|].
  rewrite length_zip_with, !length_scale, length_map, length_zip_with. lia.
Qed.

Lemma corrector_spec tot self r c fr dt (σ : mstate F) U P C0 :
  bufs_ok r c fr (heap σ) →
  heap σ !! u_prev fr = Some U → heap σ !! u_pred fr = Some P →
  heap σ !! u_cur fr = Some C0 →
  (tot = true → total_ok self r c) →
  wp tot (corrector self fr dt)
     (λ _ σ', ∃ C, σ' = upd (u_cur fr) C σ ∧ shape r c C ∧
        (∀ i, 1 ≤ i < nx (grid self) →
              ∃ v, corrector_rhs self dt U P i = Ok v ∧ C !! i = Some v) ∧
        (∀ j, ¬ (1 ≤ j < nx (grid self)) → C !! j = C0 !! j)) σ.
Proof.
  intros Hb HU HP HC0 Htot.
  destruct Hb as (Hc & N1 & N2 & N3 & (U' & HU' & HsU) & (P' & HP' & HsP)
                  & (C0' & HC0' & HsC)).
  assert (U' = U) as -> by congruence. assert (P' = P) as -> by congruence.
  assert (C0' = C0) as -> by congruence.
  unfold corrector.
  apply (column_loop tot r c σ (u_cur fr) C0 (nx (grid self))
           (corrector_rhs self dt U P)); try done.
  - intros i D Hi HsD. unfold bind at 1 2, load.
    rewrite (lookup_total_Some _ (u_pred fr) P) by by rewrite lookup_upd_ne.
    by rewrite (lookup_total_Some _ (u_prev fr) U) by by rewrite lookup_upd_ne.
  - intros i v _ Hv. exact (corrector_rhs_length self dt r c U P i v HsU HsP Hv).
  - intros ->. pose proof (Htot eq_refl) as Hok.
    split; [destruct Hok as (? & ? & ? & ?); lia|].
    intros i Hi. by apply (corrector_rhs_total self dt r c).
Qed.

(** *** The boundary columns, the copy of the state, the snapshot *)

Ltac msimpl := cbn [u_prev u_pred u_cur t n_steps heap history calls].

Lemma begin_step_spec tot r c fr (σ : mstate F) C :
  bufs_ok r c fr (heap σ) → heap σ !! u_cur fr = Some C →
  wp tot (begin_step fr)
     (λ fr' σ',
        fr' = Frame (u_prev fr) (u_pred fr) (u_cur fr) (t fr) (n_steps fr + 1) ∧
        σ' = upd (u_prev fr) C σ) σ.
Proof.
  intros (Hc & N1 & N2 & N3 & (U & HU & HsU) & _ & (C' & HC' & HsC)) HC.
  assert (C' = C) as -> by congruence.
  unfold begin_step. msimpl. apply wp_bind, wp_copyto.
  rewrite (lookup_total_Some _ _ U HU), (lookup_total_Some _ _ C HC).
  rewrite (np_copyto_same r c) by done. by apply wp_ret.
Qed.

Lemma left_boundary_spec tot self r c fr t_step dt (σ : mstate F) U P C :
  bufs_ok r c fr (heap σ) →
  heap σ !! u_prev fr = Some U → heap σ !! u_pred fr = Some P →
  heap σ !! u_cur fr = Some C →
  (tot = true → total_ok self r c) →
  wp tot (left_boundary self fr t_step dt)
     (λ _ σ', ∃ x0 vL,
        X (grid self) !! 0 = Some x0 ∧
        broadcast_to r
          (applyLeftBC (model self) x0 t_step (dx (grid self)) dt U) = Ok vL ∧
        σ' = MState (<[u_pred fr := <[0 := vL]> P]>
                       (<[u_cur fr := <[0 := vL]> C]> (heap σ)))
                    (history σ)
                    (calls σ ++ [CallLeftBC x0 t_step (dx (grid self)) dt U])) σ.
Proof.
  intros (Hc & N1 & N2 & N3 & (U' & HU' & HsU) & (P' & HP' & HsP)
          & (C' & HC' & HsC)) HU HP HC Htot.
  assert (U' = U) as -> by congruence. assert (P' = P) as -> by congruence.
  assert (C' = C) as -> by congruence.
  unfold left_boundary. apply wp_bind, wp_lift.
  destruct (index (X (grid self)) 0) as [x0|e] eqn:Hx0.
  2:{ destruct tot; [|done]. destruct (Htot eq_refl) as (_ & _ & _ & HX).
      unfold grid_ok in HX. unfold index in Hx0.
      destruct (X (grid self)); simpl in *; [lia|done]. }
  apply index_Ok in Hx0.
  apply wp_bind, wp_load. rewrite (lookup_total_Some _ _ U HU).
  apply wp_bind, wp_emit, wp_bind, wp_putcol. msimpl.
  rewrite (lookup_total_Some _ _ C HC).
  destruct (setcol C 0 _) as [C1|e] eqn:Hset.
  2:{ destruct tot; [|done].
      destruct (Htot eq_refl) as ((_ & _ & HL & _) & -> & _).
      by rewrite (setcol_same (numVars (model self)) c) in Hset. }
  destruct (setcol_inv _ _ _ _ _ _ HsC Hset) as (vL & HvL & -> & _).
  apply wp_bind, wp_getcol. unfold upd. msimpl.
  rewrite (lookup_total_Some _ (u_cur fr) (<[0 := vL]> C)).
  2:{ apply list_lookup_insert_eq. by eapply lookup_lt_Some. }
  assert (index (<[0 := vL]> C) 0 = Ok vL) as ->.
  { apply index_Ok, list_lookup_insert_eq. by destruct HsC as [-> _]. }
  apply wp_putcol. msimpl.
  rewrite (lookup_total_Some _ (u_pred fr) P) by by rewrite list_lookup_insert_ne.
  rewrite (setcol_same r c) by (eauto using broadcast_to_length).
  by exists x0, vL.
Qed.

Lemma right_boundary_spec tot self r c fr t_step dt (σ : mstate F) U C :
  bufs_ok r c fr (heap σ) →
  heap σ !! u_prev fr = Some U → heap σ !! u_cur fr = Some C →
  (tot = true → total_ok self r c) →
  wp tot (right_boundary self fr t_step dt)
     (λ _ σ', ∃ xn vR,
        index_last (X (grid self)) = Ok xn ∧
        broadcast_to r
          (applyRightBC (model self) xn t_step (dx (grid self)) dt U) = Ok vR ∧
        σ' = MState (<[u_cur fr := <[c - 1 := vR]> C]> (heap σ))
                    (history σ)
                    (calls σ ++ [CallRightBC xn t_step (dx (grid self)) dt U])) σ.
Proof.
  intros (Hc & N1 & N2 & N3 & (U' & HU' & HsU) & _ & (C' & HC' & HsC)) HU HC Htot.
  assert (U' = U) as -> by congruence. assert (C' = C) as -> by congruence.
  unfold right_boundary. apply wp_bind, wp_lift.
  destruct (index_last (X (grid self))) as [xn|e] eqn:Hxn.
  2:{ destruct tot; [|done]. destruct (Htot eq_refl) as (_ & _ & _ & HX).
      unfold grid_ok in HX. unfold index_last, index in Hxn.
      destruct (lookup_lt_is_Some_2 (X (grid self)) (length (X (grid self)) - 1))
        as [x Hx]; [lia|]. by rewrite Hx in Hxn. }
  apply wp_bind, wp_load. rewrite (lookup_total_Some _ _ U HU).
  apply wp_bind, wp_emit, wp_putcol_last. msimpl.
  rewrite (lookup_total_Some _ _ C HC).
  assert (length C = c) as -> by by destruct HsC.
  destruct (setcol C (c - 1) _) as [C1|e] eqn:Hset.
  2:{ destruct tot; [|done].
      destruct (Htot eq_refl) as ((_ & _ & _ & HR) & -> & _).
      rewrite (setcol_same (numVars (model self)) c) in Hset; [done..| |done]. lia. }
  destruct (setcol_inv _ _ _ _ _ _ HsC Hset) as (vR & HvR & -> & _).
  by exists xn, vR.
Qed.

Lemma record_spec tot fr t_step (σ : mstate F) C :
  heap σ !! u_cur fr = Some C →
  wp tot (record fr t_step)
     (λ fr' σ',
        fr' = Frame (u_prev fr) (u_pred fr) (u_cur fr) t_step (n_steps fr) ∧
        σ' = MState (heap σ ++ [C]) (history σ ++ [(t_step, length (heap σ))])
                    (calls σ)) σ.
Proof.
  intros HC. unfold record. apply wp_bind, wp_deepcopy.
  rewrite (lookup_total_Some _ _ C HC).
  apply wp_bind, wp_history_append. by apply wp_ret.
Qed.

(** *** One pass *)

Lemma wp_witness {A} tot (m : M F A) Q (σ : mstate F) :
  wp tot m Q σ → wp tot m (λ a σ', Q a σ' ∧ m σ = Returns a σ') σ.
Proof. unfold wp. by destruct (m σ). Qed.

Ltac heap_lookup :=
  repeat first
    [ rewrite list_lookup_insert_ne by (first [done | congruence])
    | rewrite list_lookup_insert_eq
        by (rewrite ?length_insert; eauto using lookup_lt_Some) ].

Lemma advance_spec tot self r c fr dt (σ : mstate F) :
  bufs_ok r c fr (heap σ) →
  (tot = true → total_ok self r c) →
  wp tot (advance self fr dt)
     (λ fr' σ',
        fr' = Frame (u_prev fr) (u_pred fr) (u_cur fr) (fadd (t fr) dt)
                    (n_steps fr) ∧
        ∃ U P0 C0 P Cc C x0 xn vL vR σa σb,
          pass_facts self r c fr dt σ σ' U P0 C0 P Cc C x0 xn vL vR σa σb) σ.
Proof.
  intros Hb Htot.
  pose proof Hb as (Hc & N1 & N2 & N3 & (U & HU & HsU) & (P0 & HP0 & HsP0)
                    & (C0 & HC0 & HsC0)).
  unfold advance. apply wp_bind.
  eapply wp_mono;
    [by apply wp_witness, (predictor_spec tot self r c fr dt σ U P0)|].
  intros [] ? ((P1 & -> & HsP1 & HP1in & HP1out) & Hpred).
  apply wp_bind.
  eapply wp_mono.
  { apply wp_witness.
    apply (left_boundary_spec tot self r c fr _ dt _ U P1 C0); try done.
    - by apply bufs_ok_insert; [|right; left|].
    - unfold upd; msimpl. by heap_lookup.
    - unfold upd; msimpl. by heap_lookup.
    - unfold upd; msimpl. by heap_lookup. }
  intros [] σa ((x0 & vL & Hx0 & HvL & ->) & Hleft).
  pose proof (broadcast_to_length _ _ _ HvL) as HlvL.
  set (σa := MState _ _ _).
  assert (bufs_ok r c fr (heap σa)) as Hba.
  { unfold σa, upd; msimpl.
    apply bufs_ok_insert; [|by right; left|by apply shape_insert].
    apply bufs_ok_insert; [|by right; right|by apply shape_insert].
    by apply bufs_ok_insert; [|right; left|]. }
  assert (heap σa !! u_prev fr = Some U) as HaU.
  { unfold σa, upd; msimpl. by heap_lookup. }
  assert (heap σa !! u_pred fr = Some (<[0 := vL]> P1)) as HaP.
  { unfold σa, upd; msimpl. by heap_lookup. }
  assert (heap σa !! u_cur fr = Some (<[0 := vL]> C0)) as HaC.
  { unfold σa, upd; msimpl. by heap_lookup. }
  apply wp_bind.
  eapply wp_mono.
  { apply wp_witness.
    by apply (corrector_spec tot self r c fr dt σa U (<[0 := vL]> P1)
                (<[0 := vL]> C0)). }
  intros [] ? ((Cc & -> & HsCc & HCcin & HCcout) & Hcorr).
  apply wp_bind.
  eapply wp_mono.
  { apply (right_boundary_spec tot self r c fr _ dt _ U Cc); try done.
    - by apply bufs_ok_insert; [|right; right|].
    - unfold upd; msimpl. by heap_lookup.
    - unfold upd; msimpl. by heap_lookup. }
  intros [] ? (xn & vR & Hxn & HvR & ->).
  pose proof (broadcast_to_length _ _ _ HvR) as HlvR.
  eapply wp_mono.
  { apply (record_spec tot fr _ _ (<[c - 1 := vR]> Cc)).
    unfold upd; msimpl. by heap_lookup. }
  intros fr' σ' [-> ->]. split; [done|].
  exists U, P0, C0, (<[0 := vL]> P1), Cc, (<[c - 1 := vR]> Cc), x0, xn, vL, vR,
         σa, (upd (u_cur fr) Cc σa).
  assert (length P1 = c) as HlP1 by by destruct HsP1.
  assert (length C0 = c) as HlC0 by by destruct HsC0.
  assert (length Cc = c) as HlCc by by destruct HsCc.
  assert (u_cur fr < length (heap σ)) as Hvc by by eapply lookup_lt_Some.
  assert (u_pred fr < length (heap σ)) as Hvp by by eapply lookup_lt_Some.
  assert (u_prev fr < length (heap σ)) as Hvu by by eapply lookup_lt_Some.
  split; try done.
  - unfold bind. by rewrite Hpred.
  - unfold upd; msimpl. by heap_lookup.
  - unfold upd; msimpl. by heap_lookup.
  - by apply shape_insert.
  - apply list_lookup_insert_eq. lia.
  - intros i Hi. destruct (HP1in i Hi) as (v & Hv & Hl). exists v.
    split; [done|]. by rewrite list_lookup_insert_ne by lia.
  - intros j Hj Hn. rewrite list_lookup_insert_ne by lia. apply HP1out. lia.
  - rewrite HCcout by lia. apply list_lookup_insert_eq. lia.
  - intros j Hj Hn. rewrite HCcout by lia. by rewrite list_lookup_insert_ne by lia.
  - by apply shape_insert.
  - unfold σa, upd; msimpl. rewrite length_app, !length_insert. simpl. lia.
  - unfold σa, upd; msimpl. rewrite lookup_app_l by (by rewrite !length_insert).
    by heap_lookup.
  - unfold σa, upd; msimpl. rewrite lookup_app_l by (by rewrite !length_insert).
    by heap_lookup.
  - unfold σa, upd; msimpl. rewrite lookup_app_l by (by rewrite !length_insert).
    by heap_lookup.
  - unfold σa, upd; msimpl.
    rewrite lookup_app_r by (by rewrite !length_insert).
    rewrite !length_insert, Nat.sub_diag. done.
  - intros l Hl Hlt. unfold σa, upd; msimpl.
    rewrite lookup_app_l by (by rewrite !length_insert).
    assert (l ≠ u_prev fr ∧ l ≠ u_pred fr ∧ l ≠ u_cur fr) as (? & ? & ?)
      by (unfold is_buffer in Hl; tauto).
    by rewrite !list_lookup_insert_ne by congruence.
  - unfold σa, upd; msimpl. by rewrite !length_insert.
  - unfold σa, upd; msimpl. by rewrite <-app_assoc.
Qed.

Lemma pass_facts_frame self r c fr1 fr2 dt (σ σ' : mstate F)
    U P0 C0 P Cc C x0 xn vL vR σa σb :
  u_prev fr1 = u_prev fr2 → u_pred fr1 = u_pred fr2 → u_cur fr1 = u_cur fr2 →
  t fr1 = t fr2 →
  pass_facts self r c fr1 dt σ σ' U P0 C0 P Cc C x0 xn vL vR σa σb →
  pass_facts self r c fr2 dt σ σ' U P0 C0 P Cc C x0 xn vL vR σa σb.
Proof.
  intros E1 E2 E3 E4 [].
  assert (corrector self fr1 dt = corrector self fr2 dt) as Ec.
  { unfold corrector. by rewrite E1, E2, E3. }
  assert (predictor self fr1 dt = predictor self fr2 dt) as Ep.
  { unfold predictor. by rewrite E1, E2. }
  assert (left_boundary self fr1 = left_boundary self fr2) as El.
  { unfold left_boundary. by rewrite E1, E2, E3. }
  assert (∀ l, is_buffer fr2 l ↔ is_buffer fr1 l) as Eb.
  { intros l. unfold is_buffer. by rewrite E1, E2, E3. }
  split; rewrite <-?E1, <-?E2, <-?E3, <-?E4, <-?Ec, <-?Ep, <-?El; try done.
  intros l Hl. by apply pf_frame0, (not_iff_compat (Eb l)).
Qed.

Lemma loop_body_spec tot self r c t_final fr (σ : mstate F) :
  bufs_ok r c fr (heap σ) →
  (tot = true → total_ok self r c ∧ ∃ dt0, cfl_dt self = Ok dt0) →
  wp tot (loop_body self t_final fr)
     (λ fr' σ', ∃ dt U P C, pass self r c t_final fr σ fr' σ' dt U P C) σ.
Proof.
  intros Hb Htot.
  pose proof Hb as (Hc & N1 & N2 & N3 & HU & HP & (U & HC & HsU)).
  unfold loop_body. apply wp_bind.
  eapply wp_mono; [by apply (begin_step_spec tot r c fr σ U)|].
  intros fr1 ? [-> ->].
  apply wp_bind, wp_lift.
  destruct (cfl_dt self) as [dt0|e] eqn:Hdt.
  2:{ destruct tot; [|done]. destruct (Htot eq_refl) as (_ & ? & ?). done. }
  msimpl. set (fr1 := Frame _ _ _ _ _). set (dt := clamp_dt _ _ _).
  eapply wp_mono.
  { apply (advance_spec tot self r c fr1 dt).
    - apply (bufs_ok_insert r c fr); [done|by left|done].
    - intros Ht. by destruct (Htot Ht). }
  intros fr' σ' (-> & U' & P0 & C0 & P & Cc & C & x0 & xn & vL & vR & σa & σb
                 & Hf).
  assert (U' = U) as ->.
  { destruct Hf. unfold upd in *; simpl in *.
    rewrite list_lookup_insert_eq in pf_U0 by by eapply holds_valid.
    congruence. }
  exists dt, U, P, C, dt0, P0, C0, Cc, x0, xn, vL, vR, σa, σb.
  do 4 (split; [done|]).
  by apply (pass_facts_frame self r c fr1 fr).
Qed.

(** *** The preparation and the invariant of the loop *)

Lemma run_init_spec tot module_grid self t_init u_init (σ : mstate F) :
  (tot = true → ∃ g C, module_grid = Some g ∧
      np_copyto (np_zeros (numVars (model self)) (nx g + 1)) u_init = Ok C) →
  wp tot (run_init module_grid self t_init u_init)
     (λ fr σ', ∃ g C,
        module_grid = Some g ∧
        np_copyto (np_zeros (numVars (model self)) (nx g + 1)) u_init = Ok C ∧
        fr = Frame (length (heap σ)) (length (heap σ) + 1)
                   (length (heap σ) + 2) t_init 0 ∧
        heap σ' = heap σ ++
                    [np_zeros (numVars (model self)) (nx g + 1);
                     np_zeros (numVars (model self)) (nx g + 1); C; C] ∧
        history σ' = [(t_init, length (heap σ) + 3)] ∧
        calls σ' = calls σ) σ.
Proof.
  intros Htot. unfold run_init. apply wp_bind, wp_lift.
  destruct module_grid as [g|].
  2:{ destruct tot; [|done]. by destruct (Htot eq_refl) as (? & ? & ? & _). }
  set (Z := np_zeros _ _).
  apply wp_bind, wp_alloc, wp_bind, wp_alloc, wp_bind, wp_alloc. msimpl.
  apply wp_bind, wp_copyto_from. msimpl.
  rewrite <-!app_assoc, !length_app. simpl.
  assert ((heap σ ++ [Z; Z; Z]) !!! (length (heap σ) + 2) = Z) as ->.
  { apply list_lookup_total_correct.
    rewrite lookup_app_r by lia.
    by replace (length (heap σ) + 2 - length (heap σ)) with 2 by lia. }
  destruct (np_copyto Z u_init) as [C|e] eqn:HC.
  2:{ destruct tot; [|done]. destruct (Htot eq_refl) as (? & ? & [= <-] & HC').
      unfold Z in HC. congruence. }
  apply wp_bind, wp_history_clear, wp_bind, wp_deepcopy. unfold upd. msimpl.
  apply wp_bind, wp_history_append, wp_ret. msimpl.
  assert (<[length (heap σ) + 2 := C]> (heap σ ++ [Z; Z; Z])
          = heap σ ++ [Z; Z; C]) as ->.
  { rewrite insert_app_r_alt by lia.
    by replace (length (heap σ) + 2 - length (heap σ)) with 2 by lia. }
  assert ((heap σ ++ [Z; Z; C]) !!! (length (heap σ) + 2) = C) as ->.
  { apply list_lookup_total_correct.
    rewrite lookup_app_r by lia.
    by replace (length (heap σ) + 2 - length (heap σ)) with 2 by lia. }
  exists g, C. split; [done|]. split; [done|].
  rewrite <-!app_assoc, length_app. simpl.
  repeat split; try done.
Qed.

Lemma run_init_inv module_grid self t_init u_init (σ0 : mstate F) fr σ :
  run_init module_grid self t_init u_init σ0 = Returns fr σ →
  ∃ g, module_grid = Some g ∧
       run_inv (numVars (model self)) (nx g + 1) t_init fr σ.
Proof.
  intros Hrun.
  pose proof (wp_elim false _ _ _ _ _
               (run_init_spec false module_grid self t_init u_init σ0
                  (λ E, False_ind _ (Bool.diff_false_true E))) Hrun)
    as (g & C & -> & HC & -> & Hh & Hhist & Hcalls).
  exists g. split; [done|].
  set (n := length (heap σ0)) in *. set (Z := np_zeros _ _) in *.
  assert (shape (numVars (model self)) (nx g + 1) Z) as HZ
    by apply shape_np_zeros.
  assert (shape (numVars (model self)) (nx g + 1) C) as HsC.
  { eapply np_copyto_shape; [exact HZ|lia|exact HC]. }
  assert (∀ k a, [Z; Z; C; C] !! k = Some a →
                 holds (heap σ) (n + k) (numVars (model self)) (nx g + 1)) as Hk.
  { intros k a Hka. exists a. split.
    - rewrite Hh, lookup_app_r by (unfold n; lia).
      by replace (n + k - length (heap σ0)) with k by (unfold n; lia).
    - destruct k as [|[|[|[|]]]]; simpl in Hka; by simplify_eq. }
  split; msimpl.
  - unfold bufs_ok. msimpl. do 4 (split; [lia|]). split; [|split].
    + rewrite <-(Nat.add_0_r n). by apply (Hk 0 Z).
    + by apply (Hk 1 Z).
    + by apply (Hk 2 C).
  - by rewrite Hhist.
  - rewrite Hhist. by eexists.
  - rewrite Hhist. eexists. split; [done|].
    rewrite Hh, !lookup_app_r by (unfold n; lia).
    replace (n + 3 - length (heap σ0)) with 3 by (unfold n; lia).
    by replace (n + 2 - length (heap σ0)) with 2 by (unfold n; lia).
  - intros k tk l. rewrite Hhist. intros Hl.
    destruct k; simpl in Hl; [|done]. simplify_eq. split.
    + unfold is_buffer. simpl. lia.
    + by apply (Hk 3 C).
Qed.

Lemma pass_inv self r c t_init t_final fr (σ : mstate F) fr' σ' dt U P C :
  run_inv r c t_init fr σ →
  pass self r c t_final fr σ fr' σ' dt U P C →
  run_inv r c t_init fr' σ'.
Proof.
  intros [Hb Hlen (l0 & Hfirst) (ll & Hlast & Hlastc) Hent]
         (dt0 & P0 & C0 & Cc & x0 & xn & vL & vR & σa & σb
          & Hdt & -> & HU & -> & Hf).
  destruct Hf. simpl in *. rewrite length_insert in *.
  pose proof Hb as (Hc & N1 & N2 & N3 & HhU & HhP & (U' & HC' & HsU)).
  assert (U' = U) as -> by congruence.
  assert (u_cur fr < length (heap σ)) as Hvc by by eapply lookup_lt_Some.
  split; msimpl.
  - repeat split; try done.
    + by exists U.
    + by exists P.
    + by eexists.
  - rewrite pf_hist0, length_app. simpl. lia.
  - exists l0. rewrite pf_hist0. apply lookup_app_l_Some. done.
  - exists (length (heap σ)). rewrite pf_hist0. split.
    + rewrite lookup_app_r by lia.
      by replace (n_steps fr + 1 - length (history σ)) with 0 by lia.
    + congruence.
  - intros k tk l. rewrite pf_hist0. intros Hl.
    apply lookup_app_Some in Hl as [Hl|[_ Hl]].
    + destruct (Hent k tk l Hl) as [Hnb (S & HS & HsS)].
      split; [done|]. exists S. split; [|done].
      rewrite pf_frame0; [|done|by eapply lookup_lt_Some].
      rewrite list_lookup_insert_ne; [done|]. intros <-. apply Hnb. by left.
    + destruct (k - length (history σ)); simpl in Hl; [|done]. simplify_eq.
      split.
      * unfold is_buffer. simpl.
        pose proof (holds_valid _ _ _ _ HhU). pose proof (holds_valid _ _ _ _ HhP).
        lia.
      * by eexists.
Qed.

Lemma reach_inv module_grid self t_init t_final u_init (σ0 : mstate F) fr σ :
  reach module_grid self t_init t_final u_init σ0 fr σ →
  ∃ g, module_grid = Some g ∧
       run_inv (numVars (model self)) (nx g + 1) t_init fr σ.
Proof.
  induction 1 as [fr σ Hinit|fr σ fr' σ' _ (g & Hg & IH) _ Hbody].
  - by eapply run_init_inv.
  - exists g. split; [done|].
    pose proof (wp_elim false _ _ _ _ _
      (loop_body_spec false self _ _ t_final fr σ (ri_bufs _ _ _ _ _ IH)
         (λ E, False_ind _ (Bool.diff_false_true E))) Hbody)
      as (dt & U & P & C & Hpass).
    by eapply pass_inv.
Qed.

(** Every pass of a run is described by [pass]. *)
Lemma reach_pass module_grid self t_init t_final u_init (σ0 : mstate F)
    fr σ fr' σ' :
  reach module_grid self t_init t_final u_init σ0 fr σ →
  loop_body self t_final fr σ = Returns fr' σ' →
  ∃ g dt U P C,
    module_grid = Some g ∧
    run_inv (numVars (model self)) (nx g + 1) t_init fr σ ∧
    pass self (numVars (model self)) (nx g + 1) t_final fr σ fr' σ' dt U P C.
Proof.
  intros Hr Hbody. destruct (reach_inv _ _ _ _ _ _ _ _ Hr) as (g & Hg & Hinv).
  pose proof (wp_elim false _ _ _ _ _
    (loop_body_spec false self _ _ t_final fr σ (ri_bufs _ _ _ _ _ Hinv)
       (λ E, False_ind _ (Bool.diff_false_true E))) Hbody)
    as (dt & U & P & C & Hpass).
  by exists g, dt, U, P, C.
Qed.

(** *** Runs and reachable states *)

Lemma bind_Returns {A B} (m : M F A) (k : A → M F B) (σ : mstate F) b σ' :
  bind m k σ = Returns b σ' →
  ∃ a σ1, m σ = Returns a σ1 ∧ k a σ1 = Returns b σ'.
Proof. unfold bind. destruct (m σ) as [a σ1| |]; [|done..]. by exists a, σ1. Qed.

Lemma while_loop_reach module_grid self t_init t_final u_init (σ0 : mstate F)
    fuel fr σ fr' σ' :
  reach module_grid self t_init t_final u_init σ0 fr σ →
  while_loop self t_final fuel fr σ = Returns fr' σ' →
  reach module_grid self t_init t_final u_init σ0 fr' σ' ∧
  fltb (t fr') t_final = false.
Proof.
  revert fr σ. induction fuel as [|fuel IH]; intros fr σ Hr; simpl;
    destruct (fltb (t fr) t_final) eqn:Hlt; try done.
  - intros [= <- <-]. done.
  - intros (fr1 & σ1 & Hbody & Hloop)%bind_Returns.
    apply (IH fr1 σ1); [|done]. by eapply reach_step.
  - intros [= <- <-]. done.
Qed.

Lemma run_reach module_grid self fuel t_init t_final u_init (σ0 : mstate F)
    fr σ :
  run module_grid self fuel t_init t_final u_init σ0 = Returns fr σ →
  reach module_grid self t_init t_final u_init σ0 fr σ ∧
  fltb (t fr) t_final = false.
Proof.
  unfold run. intros (fr1 & σ1 & Hinit & Hloop)%bind_Returns.
  eapply while_loop_reach; [|done]. by apply reach_init.
Qed.

(** More fuel does not change a result. *)
Lemma while_loop_fuel self t_final fuel fuel' fr (σ : mstate F) fr' σ' :
  while_loop self t_final fuel fr σ = Returns fr' σ' → fuel ≤ fuel' →
  while_loop self t_final fuel' fr σ = Returns fr' σ'.
Proof.
  revert fuel' fr σ. induction fuel as [|fuel IH]; intros fuel' fr σ; simpl.
  - destruct (fltb (t fr) t_final) eqn:Hlt; [done|].
    intros [= <- <-] _. destruct fuel'; simpl; by rewrite Hlt.
  - destruct (fltb (t fr) t_final) eqn:Hlt.
    + intros (fr1 & σ1 & Hbody & Hloop)%bind_Returns Hle.
      destruct fuel' as [|fuel']; [lia|]. simpl. rewrite Hlt.
      unfold bind. rewrite Hbody. apply IH; [done|lia].
    + intros [= <- <-] _. destruct fuel'; simpl; by rewrite Hlt.
Qed.

(** *** The update formulas *)

Lemma predictor_rhs_formula self dt r c (U : ndarray) i v :
  jacobian_ok (model self) → r = numVars (model self) → shape r c U →
  predictor_rhs self dt U i = Ok v →
  ∃ x b a,
    X (grid self) !! i = Some x ∧ U !! i = Some b ∧ U !! (i + 1) = Some a ∧
    v = predictor_formula dt (dx (grid self)) (jacobian (model self) x) b a.
Proof.
  intros HJ -> HU Hv. unfold predictor_rhs in Hv. inv_rbind Hv.
  repeat match goal with E : index _ _ = Ok _ |- _ => apply index_Ok in E end.
  match goal with E : X (grid self) !! i = Some ?x |- _ => exists x end.
  match goal with E : U !! (i + 1) = Some ?a, E' : U !! i = Some ?b |- _ =>
    exists b, a; destruct (shape_lookup _ _ _ _ _ HU E) as [Ha _];
    destruct (shape_lookup _ _ _ _ _ HU E') as [Hb _] end.
  simplify_eq.
  repeat match goal with
         | E : np_binop _ _ _ = Ok _ |- _ =>
             rewrite np_binop_same in E by congruence; injection E as <-
         end.
  match goal with E : np_matmul (jacobian _ ?x) _ = Ok _ |- _ =>
    destruct (HJ x) as [HJl HJr]; rewrite np_matmul_same in E;
    [injection E as <-|] end.
  2:{ eapply Forall_impl; [|exact HJr]. intros row Hrow. simpl in Hrow.
      rewrite length_divide, length_zip_with. lia. }
  rewrite np_binop_same in Hv by (rewrite length_scale, length_map; congruence).
  injection Hv as <-. done.
Qed.

Lemma corrector_rhs_formula self dt r c (U P : ndarray) i v :
  jacobian_ok (model self) → r = numVars (model self) →
  shape r c U → shape r c P →
  corrector_rhs self dt U P i = Ok v →
  ∃ x b p p',
    X (grid self) !! i = Some x ∧ U !! i = Some b ∧ P !! i = Some p ∧
    P !! (i - 1) = Some p' ∧
    v = corrector_formula dt (dx (grid self)) (jacobian (model self) x) b p p'.
Proof.
  intros HJ -> HU HP Hv. unfold corrector_rhs in Hv. inv_rbind Hv.
  repeat match goal with E : index _ _ = Ok _ |- _ => apply index_Ok in E end.
  match goal with E : X (grid self) !! i = Some ?x |- _ => exists x end.
  match goal with
    E : U !! i = Some ?b, E' : P !! (i - 1) = Some ?p' |- _ =>
    destruct (shape_lookup _ _ _ _ _ HU E) as [Hb _];
    destruct (shape_lookup _ _ _ _ _ HP E') as [Hp' _]; exists b end.
  match goal with E : P !! i = Some ?p |- _ =>
    destruct (shape_lookup _ _ _ _ _ HP E) as [Hp _]; exists p end.
  simplify_eq.
  match goal with E' : P !! (i - 1) = Some ?p' |- _ => exists p' end.
  repeat match goal with
         | E : np_binop _ _ _ = Ok _ |- _ =>
             rewrite np_binop_same in E by congruence; injection E as <-
         end.
  match goal with E : np_matmul (jacobian _ ?x) _ = Ok _ |- _ =>
    destruct (HJ x) as [HJl HJr]; rewrite np_matmul_same in E;
    [injection E as <-|] end.
  2:{ eapply Forall_impl; [|exact HJr]. intros row Hrow. simpl in Hrow.
      rewrite length_divide, length_zip_with. lia. }
  rewrite np_binop_same in Hv
    by (rewrite !length_scale, length_map, length_zip_with; lia).
  injection Hv as <-. done.
Qed.

(** *** What a pass leaves behind *)

Lemma pass_buffers self r c t_final fr (σ : mstate F) fr' σ' dt U P C :
  pass self r c t_final fr σ fr' σ' dt U P C →
  heap σ !! u_cur fr = Some U ∧
  heap σ' !! u_prev fr = Some U ∧
  heap σ' !! u_pred fr = Some P ∧
  heap σ' !! u_cur fr = Some C.
Proof.
  intros (dt0 & P0 & C0 & Cc & x0 & xn & vL & vR & σa & σb
          & Hdt & -> & HU & -> & Hf).
  by destruct Hf.
Qed.

Lemma pass_interior self r c t_final fr (σ : mstate F) fr' σ' dt U P C :
  jacobian_ok (model self) → r = numVars (model self) → shape r c U →
  pass self r c t_final fr σ fr' σ' dt U P C →
  ∀ i, 1 ≤ i < nx (grid self) →
    ∃ x prev_i prev_next pred_i pred_before,
      X (grid self) !! i = Some x ∧
      U !! i = Some prev_i ∧ U !! (i + 1) = Some prev_next ∧
      P !! i = Some pred_i ∧ P !! (i - 1) = Some pred_before ∧
      pred_i = predictor_formula dt (dx (grid self))
                 (jacobian (model self) x) prev_i prev_next ∧
      C !! i = Some (corrector_formula dt (dx (grid self))
                       (jacobian (model self) x) prev_i pred_i pred_before).
Proof.
  intros Hm -> HsU (dt0 & P0 & C0 & Cc & x0 & xn & vL & vR & σa & σb
                    & Hdt & Edt & HU & -> & Hf) i Hi.
  destruct Hf.
  destruct (pf_P_in0 i Hi) as (vp & Hvp & HPi).
  destruct (pf_Cc_in0 i Hi) as (vc & Hvc & HCi).
  destruct (predictor_rhs_formula _ _ _ _ _ _ _ Hm eq_refl HsU Hvp)
    as (x & b & a & Hx & Hb & Ha & ->).
  destruct (corrector_rhs_formula _ _ _ _ _ _ _ _ Hm eq_refl HsU
              pf_P_shape0 Hvc)
    as (x' & b' & p & p' & Hx' & Hb' & Hp & Hp' & ->).
  simplify_eq.
  eexists x, b, a, _, p'. do 6 (split; [done|]).
  rewrite list_lookup_insert_ne; [done|].
  destruct (shape_lookup _ _ _ _ _ HsU Ha). lia.
Qed.

Lemma pass_history self r c t_init t_final fr (σ : mstate F) fr' σ' dt U P C :
  run_inv r c t_init fr σ →
  pass self r c t_final fr σ fr' σ' dt U P C →
  history σ' = history σ ++ [(t fr', length (heap σ))] ∧
  heap σ' !! length (heap σ) = Some C ∧
  ∀ k tk l, history σ !! k = Some (tk, l) →
    history σ' !! k = Some (tk, l) ∧ heap σ' !! l = heap σ !! l.
Proof.
  intros Hinv (dt0 & P0 & C0 & Cc & x0 & xn & vL & vR & σa & σb
               & Hdt & Edt & HU & -> & Hf).
  destruct Hf. simpl in *. rewrite length_insert in *.
  split; [done|]. split; [done|].
  intros k tk l Hl.
  destruct (ri_entries _ _ _ _ _ Hinv k tk l Hl) as [Hnb (S & HS & _)].
  split.
  - rewrite pf_hist0. by apply lookup_app_l_Some.
  - rewrite pf_frame0; [|done|].
    + apply list_lookup_insert_ne. intros E. apply Hnb. by left.
    + by eapply lookup_lt_Some.
Qed.

(** *** Statements about every pass of a run *)

(** C1. In every pass of the loop of a run, with [dt] the time step of the
    pass and [U] the state the pass starts from (the contents of [u_prev]),
    and a Jacobian of numVars rows and columns,
    every interior column [i] (1 <= i < nx) of [u_pred] is
    [U[:,i] - dt * J(X[i]) @ ((U[:,i+1] - U[:,i]) / dx)], and the same column
    of [u_cur] is then
    [0.5*(u_pred[:,i] + U[:,i]) - 0.5*dt * J(X[i]) @ ((u_pred[:,i] - u_pred[:,i-1]) / dx)],
    with the Jacobian taken at [X[i]] in both. *)
Theorem interior_columns_updated module_grid self t_init t_final u_init
    (σ0 : mstate F) fr σ fr' σ' :
  jacobian_ok (model self) →
  reach module_grid self t_init t_final u_init σ0 fr σ →
  loop_body self t_final fr σ = Returns fr' σ' →
  ∃ dt0 dt U P C,
    cfl_dt self = Ok dt0 ∧ dt = clamp_dt t_final (t fr) dt0 ∧
    heap σ !! u_cur fr = Some U ∧
    heap σ' !! u_prev fr = Some U ∧
    heap σ' !! u_pred fr = Some P ∧
    heap σ' !! u_cur fr = Some C ∧
    ∀ i, 1 ≤ i < nx (grid self) →
      ∃ x prev_i prev_next pred_i pred_before,
        X (grid self) !! i = Some x ∧
        U !! i = Some prev_i ∧ U !! (i + 1) = Some prev_next ∧
        P !! i = Some pred_i ∧ P !! (i - 1) = Some pred_before ∧
        pred_i = predictor_formula dt (dx (grid self))
                   (jacobian (model self) x) prev_i prev_next ∧
        C !! i = Some (corrector_formula dt (dx (grid self))
                         (jacobian (model self) x) prev_i pred_i pred_before).
Proof.
  intros Hm Hr Hbody.
  destruct (reach_pass _ _ _ _ _ _ _ _ _ _ Hr Hbody)
    as (g & dt & U & P & C & Hg & Hinv & Hpass).
  destruct (pass_buffers _ _ _ _ _ _ _ _ _ _ _ _ Hpass) as (HU & HU' & HP & HC).
  assert (shape (numVars (model self)) (nx g + 1) U) as HsU.
  { destruct (ri_bufs _ _ _ _ _ Hinv) as (_ & _ & _ & _ & _ & _ & (U' & HU0 & HsU)).
    congruence. }
  pose proof (pass_interior _ _ _ _ _ _ _ _ _ _ _ _ Hm eq_refl HsU Hpass)
    as Hint.
  destruct Hpass as (dt0 & _ & _ & _ & _ & _ & _ & _ & _ & _ & Hdt & Edt & _).
  by exists dt0, dt, U, P, C.
Qed.

(** C4. In every pass of the loop of a run, [applyLeftBC] and [applyRightBC]
    are each called exactly once, with the boundary coordinate, the advanced
    time [t + dt], [dx], [dt] and the previous state [U].  The pass is
    followed stage by stage: [σ1] is the machine state after line 92, [σp]
    the state after the predictor loop, [σa] the state after lines 118-121,
    in which the corrector loop starts, [σb] the state in which it ends and
    [σc] the state after lines 131-133.  When the corrector loop starts, and
    still when it ends, column 0 of [u_pred] and of [u_cur] both hold the
    left boundary value, and the left call is the only one made so far; when
    the pass ends the last column of [u_cur] holds the right boundary
    value. *)
Theorem boundary_calls_once module_grid self t_init t_final u_init
    (σ0 : mstate F) fr σ fr' σ' :
  reach module_grid self t_init t_final u_init σ0 fr σ →
  loop_body self t_final fr σ = Returns fr' σ' →
  ∃ dt0 dt U x0 xn vL vR frb σ1 σp σa σb σc Pa Ca Cb C,
    cfl_dt self = Ok dt0 ∧ dt = clamp_dt t_final (t fr) dt0 ∧
    heap σ !! u_cur fr = Some U ∧
    X (grid self) !! 0 = Some x0 ∧ index_last (X (grid self)) = Ok xn ∧
    begin_step fr σ = Returns frb σ1 ∧
    predictor self frb dt σ1 = Returns tt σp ∧
    left_boundary self frb (fadd (t fr) dt) dt σp = Returns tt σa ∧
    corrector self frb dt σa = Returns tt σb ∧
    right_boundary self frb (fadd (t fr) dt) dt σb = Returns tt σc ∧
    record frb (fadd (t fr) dt) σc = Returns fr' σ' ∧
    calls σ' = calls σ ++
      [CallLeftBC x0 (fadd (t fr) dt) (dx (grid self)) dt U;
       CallRightBC xn (fadd (t fr) dt) (dx (grid self)) dt U] ∧
    broadcast_to (numVars (model self))
      (applyLeftBC (model self) x0 (fadd (t fr) dt) (dx (grid self)) dt U)
      = Ok vL ∧
    broadcast_to (numVars (model self))
      (applyRightBC (model self) xn (fadd (t fr) dt) (dx (grid self)) dt U)
      = Ok vR ∧
    heap σa !! u_prev fr = Some U ∧
    heap σa !! u_pred fr = Some Pa ∧ Pa !! 0 = Some vL ∧
    heap σa !! u_cur fr = Some Ca ∧ Ca !! 0 = Some vL ∧
    calls σa = calls σ ++
      [CallLeftBC x0 (fadd (t fr) dt) (dx (grid self)) dt U] ∧
    heap σb !! u_pred fr = Some Pa ∧
    heap σb !! u_cur fr = Some Cb ∧ Cb !! 0 = Some vL ∧
    calls σb = calls σ ++
      [CallLeftBC x0 (fadd (t fr) dt) (dx (grid self)) dt U] ∧
    heap σ' !! u_cur fr = Some C ∧ C !! (length C - 1) = Some vR.
Proof.
  intros Hr Hbody.
  destruct (reach_pass _ _ _ _ _ _ _ _ _ _ Hr Hbody)
    as (g & dt & U & P & C & Hg & Hinv & Hpass).
  destruct Hpass as (dt0 & P0 & C0 & Cc & x0 & xn & vL & vR & σa & σb
                     & Hdt & Edt & HU & -> & Hf).
  (* the stages of the pass, as they were executed *)
  pose proof Hbody as Hexec. unfold loop_body in Hexec.
  apply bind_Returns in Hexec as (frb & σ1 & Hbegin & Hexec).
  apply bind_Returns in Hexec as (dt0' & σ1' & Hlift & Hadv).
  unfold lift in Hlift. rewrite Hdt in Hlift. injection Hlift as <- <-.
  pose proof (wp_elim false _ _ _ _ _
                (begin_step_spec false _ _ fr σ U (ri_bufs _ _ _ _ _ Hinv) HU)
                Hbegin) as [Efrb Eσ1].
  assert (t frb = t fr) as Et by (by rewrite Efrb).
  rewrite Et, <-Edt in Hadv. unfold advance in Hadv. rewrite Et in Hadv.
  apply bind_Returns in Hadv as ([] & σp & Hpred & Hadv).
  apply bind_Returns in Hadv as ([] & σa' & Hleft & Hadv).
  apply bind_Returns in Hadv as ([] & σb' & Hcorr & Hadv).
  apply bind_Returns in Hadv as ([] & σc & Hright & Hrec).
  (* they are the states the description of the pass speaks of *)
  destruct Hf. simpl in *.
  assert (σa' = σa) as ->.
  { assert (Returns tt σa' = Returns (F := F) tt σa) as [= ->]; [|done].
    rewrite <-pf_pre0. unfold bind.
    replace (predictor self fr dt
               (MState (<[u_prev fr := U]> (heap σ)) (history σ) (calls σ)))
      with (Returns (F := F) tt σp); [by subst frb|].
    by subst frb σ1. }
  assert (σb' = σb) as ->.
  { assert (Returns tt σb' = Returns (F := F) tt σb) as [= ->]; [|done].
    rewrite <-pf_corr0. by subst frb. }
  exists dt0, dt, U, x0, xn, vL, vR, frb, σ1, σp, σa, σb, σc,
         P, (<[0 := vL]> C0), Cc, C.
  do 11 (split; [done|]).
  do 5 (split; [first [done | congruence]|]).
  assert (shape (numVars (model self)) (nx g + 1) C0) as [HlC0 _].
  { destruct (ri_bufs _ _ _ _ _ Hinv) as (_ & _ & N2 & _ & _ & _ & (C' & HC' & HsC)).
    rewrite list_lookup_insert_ne in pf_C1 by done. congruence. }
  destruct pf_C_shape0 as [HlC _].
  do 2 (split; [done|]). split; [apply list_lookup_insert_eq; lia|].
  do 4 (split; [first [done | congruence]|]).
  split; [congruence|]. split; [done|].
  rewrite HlC. subst C. apply list_lookup_insert_eq.
  rewrite length_insert in HlC. lia.
Qed.

(** C5. Every history entry names an array of its own: it is none of the
    three working buffers, so overwriting the buffers with anything leaves
    it as it is; the newest entry has the contents [u_cur] had when it was
    recorded; and a later pass of the loop changes no recorded entry. *)
Theorem history_entries_are_copies module_grid self t_init t_final u_init
    (σ0 : mstate F) fr σ :
  reach module_grid self t_init t_final u_init σ0 fr σ →
  (∀ k tk l, history σ !! k = Some (tk, l) →
     ¬ is_buffer fr l ∧ is_Some (heap σ !! l) ∧
     ∀ a b c : ndarray,
       <[u_prev fr := a]> (<[u_pred fr := b]> (<[u_cur fr := c]> (heap σ))) !! l
       = heap σ !! l) ∧
  (∃ l, history σ !! n_steps fr = Some (t fr, l) ∧
        heap σ !! l = heap σ !! u_cur fr) ∧
  (∀ fr' σ', loop_body self t_final fr σ = Returns fr' σ' →
     ∀ k tk l, history σ !! k = Some (tk, l) →
       history σ' !! k = Some (tk, l) ∧ heap σ' !! l = heap σ !! l).
Proof.
  intros Hr. destruct (reach_inv _ _ _ _ _ _ _ _ Hr) as (g & Hg & Hinv).
  split; [|split].
  - intros k tk l Hl.
    destruct (ri_entries _ _ _ _ _ Hinv k tk l Hl) as [Hnb (S & HS & _)].
    split; [done|]. split; [by exists S|]. intros a b c.
    unfold is_buffer in Hnb.
    by rewrite !list_lookup_insert_ne by (intros E; apply Hnb; auto).
  - apply (ri_last _ _ _ _ _ Hinv).
  - intros fr' σ' Hbody.
    destruct (reach_pass _ _ _ _ _ _ _ _ _ _ Hr Hbody)
      as (g' & dt & U & P & C & Hg' & Hinv' & Hpass).
    by destruct (pass_history _ _ _ _ _ _ _ _ _ _ _ _ _ Hinv' Hpass) as (_ & _ & ?).
Qed.


(** *** The arrays and the calls of a whole run *)

Lemma run_init_unfold module_grid self t_init u_init (σ0 : mstate F) fr σ :
  run_init module_grid self t_init u_init σ0 = Returns fr σ →
  ∃ g C,
    module_grid = Some g ∧
    np_copyto (np_zeros (numVars (model self)) (nx g + 1)) u_init = Ok C ∧
    fr = Frame (length (heap σ0)) (length (heap σ0) + 1)
               (length (heap σ0) + 2) t_init 0 ∧
    heap σ = heap σ0 ++
               [np_zeros (numVars (model self)) (nx g + 1);
                np_zeros (numVars (model self)) (nx g + 1); C; C] ∧
    history σ = [(t_init, length (heap σ0) + 3)] ∧
    calls σ = calls σ0.
Proof.
  intros Hinit.
  exact (wp_elim false _ _ _ _ _
           (run_init_spec false module_grid self t_init u_init σ0
              (λ E, False_ind _ (Bool.diff_false_true E))) Hinit).
Qed.

(** The arrays of a run: the three buffers sit right after the arrays that
    existed before, the [k]-th history entry right after them, and nothing
    that existed before is written. *)
Lemma reach_layout module_grid self t_init t_final u_init (σ0 : mstate F) fr σ :
  reach module_grid self t_init t_final u_init σ0 fr σ →
  u_prev fr = length (heap σ0) ∧ u_pred fr = length (heap σ0) + 1 ∧
  u_cur fr = length (heap σ0) + 2 ∧
  length (heap σ) = length (heap σ0) + 4 + n_steps fr ∧
  (∀ l, l < length (heap σ0) → heap σ !! l = heap σ0 !! l) ∧
  (∀ k, k ≤ n_steps fr →
     ∃ tk, history σ !! k = Some (tk, length (heap σ0) + 3 + k)).
Proof.
  induction 1 as [fr σ Hinit|fr σ fr' σ' Hr IH Hlt Hbody].
  - apply run_init_unfold in Hinit
      as (g & C & Hg & HC & -> & Hh & Hhist & Hcalls).
    msimpl. do 3 (split; [done|]). split.
    { rewrite Hh, length_app. simpl. lia. }
    split.
    { intros l Hl. by rewrite Hh, lookup_app_l. }
    intros k Hk. assert (k = 0) as -> by lia. rewrite Hhist. eexists.
    by rewrite Nat.add_0_r.
  - destruct IH as (E1 & E2 & E3 & Hlen & Hold & Hent).
    destruct (reach_pass _ _ _ _ _ _ _ _ _ _ Hr Hbody)
      as (g & dt & U & P & C & Hg & Hinv & Hpass).
    destruct Hpass as (dt0 & P0 & C0 & Cc & x0 & xn & vL & vR & σa & σb
                       & Hdt & Edt & HU & -> & Hf).
    pose proof (pf_frame _ _ _ _ _ _ _ _ _ _ _ _ _ _ _ _ _ _ _ Hf) as Hframe.
    pose proof (pf_hist _ _ _ _ _ _ _ _ _ _ _ _ _ _ _ _ _ _ _ Hf) as Hhist.
    destruct Hf. simpl in *. rewrite length_insert in *.
    do 3 (split; [done|]). split; [lia|]. split.
    + intros l Hl. rewrite Hframe.
      * rewrite list_lookup_insert_ne by lia. by apply Hold.
      * unfold is_buffer. lia.
      * lia.
    + intros k Hk. rewrite Hhist.
      destruct (decide (k = n_steps fr + 1)) as [->|Hne].
      * eexists. rewrite lookup_app_r by (rewrite (ri_len _ _ _ _ _ Hinv); lia).
        rewrite (ri_len _ _ _ _ _ Hinv).
        replace (n_steps fr + 1 - S (n_steps fr)) with 0 by lia. simpl.
        do 2 f_equal. lia.
      * destruct (Hent k) as [tk Htk]; [lia|]. exists tk.
        by apply lookup_app_l_Some.
Qed.

(** X1. A run that returns has written to no array that existed before it:
    the heap it leaves starts with the heap it found.  It has allocated the
    three buffers and one array for each history entry, [n_steps + 4] arrays
    in all, and history entry [k] names the array allocated [k + 3] places
    after the old heap, so that no two entries name the same array. *)
Theorem run_only_allocates module_grid self fuel t_init t_final u_init
    (σ0 : mstate F) fr σ :
  run module_grid self fuel t_init t_final u_init σ0 = Returns fr σ →
  take (length (heap σ0)) (heap σ) = heap σ0 ∧
  length (heap σ) = length (heap σ0) + 4 + n_steps fr ∧
  length (history σ) = n_steps fr + 1 ∧
  ∀ k tk l, history σ !! k = Some (tk, l) → l = length (heap σ0) + 3 + k.
Proof.
  intros [Hr _]%run_reach.
  destruct (reach_layout _ _ _ _ _ _ _ _ Hr) as (_ & _ & _ & Hlen & Hold & Hent).
  destruct (reach_inv _ _ _ _ _ _ _ _ Hr) as (g & _ & Hinv).
  pose proof (ri_len _ _ _ _ _ Hinv) as Hhl.
  split.
  { apply list_eq. intros l. destruct (decide (l < length (heap σ0))) as [Hl|Hl].
    - rewrite lookup_take_lt by done. by apply Hold.
    - rewrite lookup_take_ge by lia. symmetry. apply lookup_ge_None. lia. }
  split; [done|]. split; [lia|].
  intros k tk l Hk.
  destruct (Hent k) as [tk' Htk'].
  { apply lookup_lt_Some in Hk. lia. }
  congruence.
Qed.

Lemma reach_steps module_grid self t_init t_final u_init (σ0 : mstate F) fr σ :
  reach module_grid self t_init t_final u_init σ0 fr σ →
  length (calls σ) = length (calls σ0) + 2 * n_steps fr ∧
  take (length (calls σ0)) (calls σ) = calls σ0 ∧
  ∀ k, k < n_steps fr → recorded_step self t_final σ0 σ k.
Proof.
  induction 1 as [fr σ Hinit|fr σ fr' σ' Hr IH Hlt Hbody].
  - apply run_init_unfold in Hinit
      as (g & C & Hg & HC & -> & Hh & Hhist & Hcalls).
    msimpl. rewrite Hcalls. split; [lia|]. split; [by rewrite take_ge|].
    intros k Hk. lia.
  - destruct IH as (Hcl & Hct & IH).
    destruct (reach_pass _ _ _ _ _ _ _ _ _ _ Hr Hbody)
      as (g & dt & U & P & C & Hg & Hinv & Hpass).
    destruct (pass_history _ _ _ _ _ _ _ _ _ _ _ _ _ Hinv Hpass)
      as (Hhist & Hsnap & Hold).
    destruct Hpass as (dt0 & P0 & C0 & Cc & x0 & xn & vL & vR & σa & σb
                       & Hdt & Edt & HU & -> & Hf).
    pose proof (pf_calls _ _ _ _ _ _ _ _ _ _ _ _ _ _ _ _ _ _ _ Hf) as Hcalls.
    pose proof (pf_C_shape _ _ _ _ _ _ _ _ _ _ _ _ _ _ _ _ _ _ _ Hf) as HsC.
    pose proof (pf_C _ _ _ _ _ _ _ _ _ _ _ _ _ _ _ _ _ _ _ Hf) as HC.
    destruct Hf. simpl in *. rewrite length_insert in *.
    pose proof (ri_len _ _ _ _ _ Hinv) as Hhl.
    split; [rewrite Hcalls, length_app; simpl; lia|]. split.
    { rewrite Hcalls, take_app_le by lia. done. }
    intros k Hk. destruct (decide (k = n_steps fr)) as [->|Hne].
    + destruct (ri_last _ _ _ _ _ Hinv) as (ll & Hll & Hllc).
      destruct (Hold _ _ _ Hll) as [Hll' Hllh].
      exists (t fr), ll, U, dt0, dt, (length (heap σ)), C, x0, xn, vL, vR.
      split; [done|]. split; [congruence|]. do 2 (split; [done|]).
      split.
      { rewrite Hhist, lookup_app_r by lia.
        by replace (n_steps fr + 1 - length (history σ)) with 0 by lia. }
      do 3 (split; [done|]).
      split.
      { rewrite Hcalls, lookup_app_r by lia.
        by replace (length (calls σ0) + 2 * n_steps fr - length (calls σ))
          with 0 by lia. }
      split.
      { rewrite Hcalls, lookup_app_r by lia.
        by replace (length (calls σ0) + 2 * n_steps fr + 1 - length (calls σ))
          with 1 by lia. }
      do 2 (split; [done|]).
      destruct HsC as [HlC _].
      assert (length Cc = nx g + 1) as HlCc.
      { rewrite HC, length_insert in HlC. done. }
      rewrite HlC. split.
      * rewrite HC. apply list_lookup_insert_eq. lia.
      * intros Hc. rewrite HC, list_lookup_insert_ne by lia. done.
    + destruct (IH k) as (tk & l & S & dt0' & dt' & l' & S' & x0' & xn' & vL'
                          & vR' & H1 & H2 & H3 & H4 & H5 & H6 & H7 & H8 & H9
                          & H10 & H11 & H12 & H13 & H14); [lia|].
      destruct (Hold _ _ _ H1) as [H1' H1h].
      destruct (Hold _ _ _ H5) as [H5' H5h].
      exists tk, l, S, dt0', dt', l', S', x0', xn', vL', vR'.
      split; [done|]. split; [congruence|]. do 2 (split; [done|]).
      split; [done|]. split; [congruence|]. do 2 (split; [done|]).
      split; [rewrite Hcalls; by apply lookup_app_l_Some|].
      split; [rewrite Hcalls; by apply lookup_app_l_Some|].
      done.
Qed.

(** X7. When [run] returns, the call log holds what it held before followed
    by two calls for each step, [applyLeftBC] then [applyRightBC]; the calls
    of step [k + 1] receive the time of history entry [k + 1], which is the
    time of entry [k] plus their argument [dt], and as previous state the
    state recorded in history entry [k]. *)
Theorem boundary_calls_follow_history module_grid self fuel t_init t_final
    u_init (σ0 : mstate F) fr σ :
  run module_grid self fuel t_init t_final u_init σ0 = Returns fr σ →
  length (calls σ) = length (calls σ0) + 2 * n_steps fr ∧
  take (length (calls σ0)) (calls σ) = calls σ0 ∧
  ∀ k, k < n_steps fr →
    ∃ tk l S t' l' dt x0 xn,
      history σ !! k = Some (tk, l) ∧ heap σ !! l = Some S ∧
      history σ !! (k + 1) = Some (t', l') ∧ t' = fadd tk dt ∧
      X (grid self) !! 0 = Some x0 ∧ index_last (X (grid self)) = Ok xn ∧
      calls σ !! (length (calls σ0) + 2 * k)
        = Some (CallLeftBC x0 t' (dx (grid self)) dt S) ∧
      calls σ !! (length (calls σ0) + 2 * k + 1)
        = Some (CallRightBC xn t' (dx (grid self)) dt S).
Proof.
  intros [Hr _]%run_reach.
  destruct (reach_steps _ _ _ _ _ _ _ _ Hr) as (Hlen & Htake & Hsteps).
  do 2 (split; [done|]). intros k Hk.
  destruct (Hsteps k Hk) as (tk & l & S & dt0 & dt & l' & S' & x0 & xn & vL
                             & vR & H1 & H2 & H3 & H4 & H5 & H6 & H7 & H8 & H9
                             & H10 & _).
  by exists tk, l, S, (fadd tk dt), l', dt, x0, xn.
Qed.

(** X8. When [run] returns, the state recorded by step [k + 1] holds in its
    last column what [applyRightBC] returned for the state recorded before
    it (at the last coordinate, the new time and the clamped CFL step), and in
    column 0 what [applyLeftBC] returned, provided there are at least two
    columns; with a single column the right value has overwritten the left
    one. *)
Theorem recorded_boundary_columns module_grid self fuel t_init t_final
    u_init (σ0 : mstate F) fr σ :
  run module_grid self fuel t_init t_final u_init σ0 = Returns fr σ →
  ∀ k, k < n_steps fr →
    ∃ tk l S dt0 dt l' S' x0 xn vL vR,
      history σ !! k = Some (tk, l) ∧ heap σ !! l = Some S ∧
      cfl_dt self = Ok dt0 ∧ dt = clamp_dt t_final tk dt0 ∧
      history σ !! (k + 1) = Some (fadd tk dt, l') ∧ heap σ !! l' = Some S' ∧
      X (grid self) !! 0 = Some x0 ∧ index_last (X (grid self)) = Ok xn ∧
      broadcast_to (numVars (model self))
        (applyLeftBC (model self) x0 (fadd tk dt) (dx (grid self)) dt S)
        = Ok vL ∧
      broadcast_to (numVars (model self))
        (applyRightBC (model self) xn (fadd tk dt) (dx (grid self)) dt S)
        = Ok vR ∧
      S' !! (length S' - 1) = Some vR ∧
      (2 ≤ length S' → S' !! 0 = Some vL).
Proof.
  intros [Hr _]%run_reach.
  destruct (reach_steps _ _ _ _ _ _ _ _ Hr) as (_ & _ & Hsteps).
  intros k Hk.
  destruct (Hsteps k Hk) as (tk & l & S & dt0 & dt & l' & S' & x0 & xn & vL
                             & vR & H1 & H2 & H3 & H4 & H5 & H6 & H7 & H8 & _
                             & _ & H11 & H12 & H13 & H14).
  by exists tk, l, S, dt0, dt, l', S', x0, xn, vL, vR.
Qed.

(** *** The three-point stencil *)

Lemma pass_stencil self r c t_final fr (σ : mstate F) fr' σ' dt U P C :
  jacobian_ok (model self) → r = numVars (model self) → shape r c U →
  pass self r c t_final fr σ fr' σ' dt U P C →
  ∃ x0 vL,
    X (grid self) !! 0 = Some x0 ∧
    broadcast_to r (applyLeftBC (model self) x0 (fadd (t fr) dt)
                      (dx (grid self)) dt U) = Ok vL ∧
    ∀ i, 1 ≤ i < nx (grid self) →
      ∃ x u up pm,
        X (grid self) !! i = Some x ∧ U !! i = Some u ∧ U !! (i + 1) = Some up ∧
        C !! i = Some (corrector_formula dt (dx (grid self))
                         (jacobian (model self) x) u
                         (predictor_formula dt (dx (grid self))
                            (jacobian (model self) x) u up) pm) ∧
        (i = 1 → pm = vL) ∧
        (2 ≤ i → ∃ xm um,
           X (grid self) !! (i - 1) = Some xm ∧ U !! (i - 1) = Some um ∧
           pm = predictor_formula dt (dx (grid self))
                  (jacobian (model self) xm) um u).
Proof.
  intros Hm -> HsU Hpass.
  pose proof (pass_interior _ _ _ _ _ _ _ _ _ _ _ _ Hm eq_refl HsU Hpass) as Hint.
  destruct Hpass as (dt0 & P0 & C0 & Cc & x0 & xn & vL & vR & σa & σb
                     & Hdt & Edt & HU & -> & Hf).
  destruct Hf. simpl in *.
  exists x0, vL. do 2 (split; [done|]). intros i Hi.
  destruct (Hint i Hi) as (x & u & up & p & pm & Hx & Hu & Hup & Hp & Hpm & -> & HC).
  exists x, u, up, pm. do 4 (split; [done|]). split.
  - intros ->. simpl in Hpm. congruence.
  - intros Hi2.
    destruct (Hint (i - 1)) as (xm & um & u' & p' & _ & Hxm & Hum & Hu' & Hp' & _ & E & _);
      [lia|].
    replace (i - 1 + 1) with i in Hu' by lia.
    exists xm, um. do 2 (split; [done|]). congruence.
Qed.

(** X9. In every pass, the new column [i] of the state, for an interior
    [i >= 2], is a function of the columns [i - 1], [i], [i + 1] of the
    previous state and of the Jacobians at [X[i - 1]] and [X[i]]: the
    corrector applied to the predictor values at [i] and at [i - 1].  For
    [i = 1] the left boundary value takes the place of the predictor value
    at 0. *)
Theorem three_point_stencil module_grid self t_init t_final u_init
    (σ0 : mstate F) fr σ fr' σ' :
  jacobian_ok (model self) →
  reach module_grid self t_init t_final u_init σ0 fr σ →
  loop_body self t_final fr σ = Returns fr' σ' →
  ∃ dt0 dt U C x0 vL,
    cfl_dt self = Ok dt0 ∧ dt = clamp_dt t_final (t fr) dt0 ∧
    heap σ !! u_cur fr = Some U ∧ heap σ' !! u_cur fr = Some C ∧
    X (grid self) !! 0 = Some x0 ∧
    broadcast_to (numVars (model self))
      (applyLeftBC (model self) x0 (fadd (t fr) dt) (dx (grid self)) dt U)
      = Ok vL ∧
    ∀ i, 1 ≤ i < nx (grid self) →
      ∃ x u up pm,
        X (grid self) !! i = Some x ∧ U !! i = Some u ∧ U !! (i + 1) = Some up ∧
        C !! i = Some (corrector_formula dt (dx (grid self))
                         (jacobian (model self) x) u
                         (predictor_formula dt (dx (grid self))
                            (jacobian (model self) x) u up) pm) ∧
        (i = 1 → pm = vL) ∧
        (2 ≤ i → ∃ xm um,
           X (grid self) !! (i - 1) = Some xm ∧ U !! (i - 1) = Some um ∧
           pm = predictor_formula dt (dx (grid self))
                  (jacobian (model self) xm) um u).
Proof.
  intros Hm Hr Hbody.
  destruct (reach_pass _ _ _ _ _ _ _ _ _ _ Hr Hbody)
    as (g & dt & U & P & C & Hg & Hinv & Hpass).
  destruct (pass_buffers _ _ _ _ _ _ _ _ _ _ _ _ Hpass) as (HU & _ & _ & HC).
  assert (shape (numVars (model self)) (nx g + 1) U) as HsU.
  { destruct (ri_bufs _ _ _ _ _ Hinv) as (_ & _ & _ & _ & _ & _ & (U' & HU0 & HsU)).
    congruence. }
  destruct (pass_stencil _ _ _ _ _ _ _ _ _ _ _ _ Hm eq_refl HsU Hpass)
    as (x0 & vL & Hx0 & HvL & Hst).
  destruct Hpass as (dt0 & _ & _ & _ & _ & _ & _ & _ & _ & _ & Hdt & Edt & _).
  by exists dt0, dt, U, C, x0, vL.
Qed.

(** *** The initial state *)

Lemma np_copyto_bad_shape r c r' c' (u_init : ndarray) :
  shape r' c' u_init → 0 < c →
  (c' ≠ c ∧ c' ≠ 1) ∨ (0 < c' ∧ r' ≠ r ∧ r' ≠ 1) →
  np_copyto (np_zeros r c) u_init = Raise ValueError.
Proof.
  intros [Hl Hf] Hc Hbad. unfold np_copyto.
  rewrite (shape_nrows r c) by (apply shape_np_zeros || done).
  destruct (shape_np_zeros r c) as [-> _].
  assert (∀ col : vec, length col = r' → r' ≠ r → r' ≠ 1 →
                 broadcast_to r col = Raise ValueError) as Hcol.
  { intros col Hcl N1 N2. unfold broadcast_to.
    rewrite decide_False by congruence.
    destruct col as [|? [|]]; simpl in *; done || lia. }
  case_decide as Hlen.
  - destruct Hbad as [[? ?]|(Hc' & N1 & N2)]; [congruence|].
    destruct u_init as [|col u]; simpl in *; [lia|].
    inversion Hf; subst. by rewrite Hcol.
  - destruct u_init as [|col [|col' u]]; try done.
    destruct Hbad as [[? ?]|(Hc' & N1 & N2)]; [simpl in *; congruence|].
    inversion Hf; subst. by rewrite Hcol.
Qed.

Lemma broadcast_to_lookup r (v v' : vec) i :
  broadcast_to r v = Ok v' → i < r →
  v' !! i = v !! (if decide (length v = r) then i else 0).
Proof.
  unfold broadcast_to. case_decide; [by intros [= <-]|].
  destruct v as [|x [|]]; try done. intros [= <-] Hi.
  by rewrite lookup_replicate_2.
Qed.

Lemma broadcast_cols_lookup r (src d : ndarray) j :
  broadcast_cols r src = Ok d → j < length src →
  ∃ col col', src !! j = Some col ∧ d !! j = Some col' ∧
              broadcast_to r col = Ok col'.
Proof.
  revert d j. induction src as [|c src IH]; intros d j; simpl; [lia|].
  destruct (broadcast_to r c) as [c'|] eqn:Hc; [|done]. simpl.
  destruct (broadcast_cols r src) as [rest|] eqn:Hrest; [|done]. simpl.
  intros [= <-] Hj. destruct j as [|j]; simpl.
  - by exists c, c'.
  - apply (IH rest j eq_refl). lia.
Qed.

(** What [np.copyto] puts into a zero array of [r] rows and [c] columns:
    entry [(i, j)] of the source, with index 0 along an axis of length one
    that is not the destination's length. *)
Lemma np_copyto_lookup r c r' c' (src d : ndarray) i j :
  shape r' c' src → 0 < c → np_copyto (np_zeros r c) src = Ok d →
  i < r → j < c →
  ∃ col col',
    src !! (if decide (c' = c) then j else 0) = Some col ∧
    d !! j = Some col' ∧
    col' !! i = col !! (if decide (r' = r) then i else 0).
Proof.
  intros [Hl Hf] Hc Hd Hi Hj. unfold np_copyto in Hd.
  rewrite (shape_nrows r c) in Hd by (apply shape_np_zeros || done).
  destruct (shape_np_zeros r c) as [Hlz _]. rewrite Hlz in Hd.
  case_decide as Hlen.
  - rewrite decide_True by congruence.
    destruct (broadcast_cols_lookup _ _ _ j Hd) as (col & col' & Hs & Hdj & Hb);
      [lia|].
    exists col, col'. do 2 (split; [done|]).
    rewrite (broadcast_to_lookup _ _ _ _ Hb Hi).
    assert (length col = r') as <-.
    { rewrite Forall_forall in Hf. apply Hf.
      first [by eapply list_elem_of_lookup_2
            | eapply list_elem_of_In, list_elem_of_lookup_2; done]. }
    done.
  - rewrite decide_False by congruence.
    destruct src as [|col [|]]; try done.
    destruct (broadcast_to r col) as [col'|] eqn:Hb; [|done]. simpl in Hd.
    injection Hd as <-. exists col, col'. split; [done|].
    split; [by apply lookup_replicate_2|].
    rewrite (broadcast_to_lookup _ _ _ _ Hb Hi).
    inversion Hf; subst. done.
Qed.

Lemma reach_first_entry module_grid self t_init t_final u_init (σ0 : mstate F)
    fr σ :
  reach module_grid self t_init t_final u_init σ0 fr σ →
  ∃ g S0,
    module_grid = Some g ∧
    np_copyto (np_zeros (numVars (model self)) (nx g + 1)) u_init = Ok S0 ∧
    history σ !! 0 = Some (t_init, length (heap σ0) + 3) ∧
    heap σ !! (length (heap σ0) + 3) = Some S0.
Proof.
  induction 1 as [fr σ Hinit|fr σ fr' σ' Hr IH Hlt Hbody].
  - apply run_init_unfold in Hinit
      as (g & C & Hg & HC & -> & Hh & Hhist & Hcalls).
    exists g, C. do 2 (split; [done|]). rewrite Hhist. split; [done|].
    rewrite Hh, lookup_app_r by lia.
    by replace (length (heap σ0) + 3 - length (heap σ0)) with 3 by lia.
  - destruct IH as (g & S0 & Hg & HS0 & Hh0 & Hl0).
    destruct (reach_pass _ _ _ _ _ _ _ _ _ _ Hr Hbody)
      as (g' & dt & U & P & C & Hg' & Hinv & Hpass).
    destruct (pass_history _ _ _ _ _ _ _ _ _ _ _ _ _ Hinv Hpass)
      as (_ & _ & Hold).
    destruct (Hold _ _ _ Hh0) as [? ?].
    exists g, S0. do 3 (split; [done|]). congruence.
Qed.

(** X4. [run] does not check the shape of [u_init] (the TODO of lines
    62-63); [np.copyto] does.  An initial state whose number of columns is
    neither [nx + 1] (of the module-level grid) nor 1, or whose number of
    rows is neither [numVars] nor 1, makes [run] raise ValueError at line 65,
    before line 81 clears the history: the history of an earlier run is
    still there, no boundary call has been made, and the arrays that existed
    are untouched. *)
Theorem wrong_shape_raises_before_clear module_grid self fuel t_init t_final
    u_init (σ0 : mstate F) g r' c' :
  module_grid = Some g → shape r' c' u_init →
  (c' ≠ nx g + 1 ∧ c' ≠ 1) ∨
  (0 < c' ∧ r' ≠ numVars (model self) ∧ r' ≠ 1) →
  ∃ σ', run module_grid self fuel t_init t_final u_init σ0
          = Raises ValueError σ' ∧
        history σ' = history σ0 ∧ calls σ' = calls σ0 ∧
        take (length (heap σ0)) (heap σ') = heap σ0.
Proof.
  intros -> Hs Hbad.
  pose proof (np_copyto_bad_shape (numVars (model self)) (nx g + 1) r' c'
                u_init Hs ltac:(lia) Hbad) as Hraise.
  set (Z := np_zeros (numVars (model self)) (nx g + 1)) in *.
  exists (MState (heap σ0 ++ [Z; Z; Z]) (history σ0) (calls σ0)).
  split; [|split; [done|split; [done|]]].
  - unfold run, run_init, bind at 1 2 3 4 5 6, lift, alloc. msimpl. fold Z.
    rewrite <-!app_assoc. simpl.
    unfold copyto_from, bind, load. msimpl.
    assert ((heap σ0 ++ [Z; Z; Z]) !!! length (heap σ0 ++ [Z; Z]) = Z) as ->.
    { apply list_lookup_total_correct. rewrite length_app. simpl.
      rewrite lookup_app_r by lia.
      by replace (length (heap σ0) + 2 - length (heap σ0)) with 2 by lia. }
    unfold lift. by rewrite Hraise.
  - simpl. by rewrite take_app_length.
Qed.

(** X5. When [run] returns, the first history entry holds the initial time
    and [u_init] as [np.copyto] broadcast it to shape [(numVars, nx + 1)]: a
    two-dimensional [u_init] has [nx + 1] columns or one, and [numVars] rows
    or one, and entry [(i, j)] of the recorded state is the entry of [u_init]
    at [(i, j)], with index 0 along an axis on which [u_init] was
    stretched. *)
Theorem initial_state_is_broadcast module_grid self fuel t_init t_final
    u_init (σ0 : mstate F) fr σ :
  run module_grid self fuel t_init t_final u_init σ0 = Returns fr σ →
  ∃ g l S0,
    module_grid = Some g ∧
    history σ !! 0 = Some (t_init, l) ∧ heap σ !! l = Some S0 ∧
    shape (numVars (model self)) (nx g + 1) S0 ∧
    ∀ r' c', shape r' c' u_init →
      (c' = nx g + 1 ∨ c' = 1) ∧
      (0 < c' → r' = numVars (model self) ∨ r' = 1) ∧
      ∀ i j, i < numVars (model self) → j < nx g + 1 →
        ∃ col col',
          u_init !! (if decide (c' = nx g + 1) then j else 0) = Some col ∧
          S0 !! j = Some col' ∧
          col' !! i
          = col !! (if decide (r' = numVars (model self)) then i else 0).
Proof.
  intros [Hr _]%run_reach.
  destruct (reach_first_entry _ _ _ _ _ _ _ _ Hr) as (g & S0 & Hg & HS0 & Hh & Hl).
  exists g, (length (heap σ0) + 3), S0. do 3 (split; [done|]). split.
  { eapply np_copyto_shape; [apply shape_np_zeros|lia|exact HS0]. }
  intros r' c' Hs.
  assert (¬ ((c' ≠ nx g + 1 ∧ c' ≠ 1) ∨
             (0 < c' ∧ r' ≠ numVars (model self) ∧ r' ≠ 1))) as Hgood.
  { intros Hbad.
    rewrite (np_copyto_bad_shape (numVars (model self)) (nx g + 1) r' c' u_init
               Hs ltac:(lia) Hbad) in HS0. done. }
  split; [lia|]. split; [lia|].
  intros i j Hi Hj.
  exact (np_copyto_lookup (numVars (model self)) (nx g + 1) r' c' u_init S0 i j
           Hs ltac:(lia) HS0 Hi Hj).
Qed.

(** *** The exceptions of the time step *)

Lemma cfl_scan_raises self xs acc e :
  cfl_scan self xs acc = Raise e ↔
  e = ValueError ∧ ∃ x, x ∈ xs ∧ jacEigenvalues (model self) x = [].
Proof.
  revert acc. induction xs as [|x xs IH]; intros acc; simpl.
  - split; [done|]. intros (_ & x & Hx & _). inversion Hx.
  - destruct (jacEigenvalues (model self) x) as [|lam lams] eqn:Hlam; simpl.
    + split.
      * intros [= <-]. split; [done|]. exists x. split; [by left|done].
      * by intros [-> _].
    + rewrite IH. split.
      * intros (-> & y & Hy & Hey). split; [done|]. exists y. split; [by right|done].
      * intros (-> & y & Hy & Hey). split; [done|]. exists y. split; [|done].
        apply elem_of_cons in Hy as [->|Hy]; [congruence|done].
Qed.

(** X6. The computation of the time step (lines 95-102) raises in two
    cases only: ValueError, from [np.amax], exactly when the model returns
    an empty array of eigenvalues at some grid coordinate; ZeroDivisionError
    exactly when no such array is empty and [lambda_max == 0]. *)
Theorem cfl_dt_raises self e :
  cfl_dt self = Raise e ↔
  (e = ValueError ∧
   ∃ x, x ∈ X (grid self) ∧ jacEigenvalues (model self) x = []) ∨
  (e = ZeroDivisionError ∧
   ∃ lam, cfl_lambda_max self = Ok lam ∧ feqb lam f0 = true).
Proof.
  unfold cfl_dt.
  destruct (cfl_lambda_max self) as [lam|e'] eqn:Hlam; simpl.
  - unfold py_div. destruct (feqb lam f0) eqn:Hz; simpl.
    + split.
      * intros [= <-]. right. split; [done|]. by exists lam.
      * intros [[-> Hx]|[-> _]]; [|done].
        exfalso. unfold cfl_lambda_max in Hlam.
        assert (cfl_scan self (X (grid self)) f0 = Raise ValueError) as E
          by (by apply cfl_scan_raises).
        congruence.
    + split; [done|]. intros [[-> Hx]|[-> (lam' & [= <-] & Hz')]].
      * exfalso. unfold cfl_lambda_max in Hlam.
        assert (cfl_scan self (X (grid self)) f0 = Raise ValueError) as E
          by (by apply cfl_scan_raises).
        congruence.
      * congruence.
  - unfold cfl_lambda_max in Hlam. apply cfl_scan_raises in Hlam as [-> Hx].
    split.
    + intros [= <-]. by left.
    + intros [[-> _]|[-> (lam & ? & _)]]; done.
Qed.

(** *** A well-formed run raises nothing *)

Lemma while_loop_no_raise self r c t_init t_final dt0 fuel fr (σ : mstate F) :
  run_inv r c t_init fr σ → total_ok self r c → cfl_dt self = Ok dt0 →
  raised (while_loop self t_final fuel fr σ) = None.
Proof.
  intros Hinv Hok Hdt. revert fr σ Hinv.
  induction fuel as [|fuel IH]; intros fr σ Hinv; cbn [while_loop];
    destruct (fltb (t fr) t_final); try done.
  destruct (wp_total _ _ _
              (loop_body_spec true self r c t_final fr σ
                 (ri_bufs _ _ _ _ _ Hinv)
                 (λ _, conj Hok (ex_intro _ dt0 Hdt))))
    as (fr1 & σ1 & Hbody & dt & U & P & C & Hpass).
  unfold bind. rewrite Hbody. apply IH.
  by eapply pass_inv.
Qed.

(** X3. With a model that keeps to its interface, a grid of [nx + 1]
    coordinates that is also the module-level [grid], an initial state of
    shape [(numVars, nx + 1)] and a time step that is defined, [run] raises
    no exception, in any arithmetic: no index is out of range and no shapes
    fail to match. *)
Theorem well_formed_run_never_raises self fuel t_init t_final u_init
    (σ0 : mstate F) dt0 :
  model_ok (model self) → grid_ok (grid self) →
  shape (numVars (model self)) (nx (grid self) + 1) u_init →
  cfl_dt self = Ok dt0 →
  raised (run (Some (grid self)) self fuel t_init t_final u_init σ0) = None.
Proof.
  intros Hm Hg Hu Hdt.
  destruct (wp_total _ _ _
              (run_init_spec true (Some (grid self)) self t_init u_init σ0
                 (λ _, ex_intro _ (grid self) (ex_intro _ u_init (conj eq_refl
                    (np_copyto_same _ _ _ _ (shape_np_zeros _ _) Hu
                       ltac:(lia)))))))
    as (fr0 & σ1 & Hinit & _).
  destruct (run_init_inv _ _ _ _ _ _ _ Hinit) as (g & [= <-] & Hinv).
  unfold run, bind. rewrite Hinit.
  apply (while_loop_no_raise self (numVars (model self)) (nx (grid self) + 1)
           t_init t_final dt0); try done.
  split; [done|]. split; [done|]. split; [lia|done].
Qed.

(** *** The results of a run depend on its arguments only *)

Lemma corrector_rhs_ext self dt (U P1 P2 : ndarray) i :
  P1 !! i = P2 !! i → P1 !! (i - 1) = P2 !! (i - 1) →
  corrector_rhs self dt U P1 i = corrector_rhs self dt U P2 i.
Proof. intros E1 E2. unfold corrector_rhs, index. by rewrite E1, E2. Qed.

Lemma pass_same_result self r c t_final
    fr1 (σ1 : mstate F) fr1' σ1' dt1 P1 C1
    fr2 (σ2 : mstate F) fr2' σ2' dt2 P2 C2 U t_init :
  run_inv r c t_init fr1 σ1 → run_inv r c t_init fr2 σ2 →
  pass self r c t_final fr1 σ1 fr1' σ1' dt1 U P1 C1 →
  pass self r c t_final fr2 σ2 fr2' σ2' dt2 U P2 C2 →
  t fr1 = t fr2 →
  dt1 = dt2 ∧ C1 = C2.
Proof.
  intros Hinv1 Hinv2
    (dt0 & P0 & C0 & Cc & x0 & xn & vL & vR & σa & σb
     & Hdt & -> & HU & -> & Hf)
    (dt0' & P0' & C0' & Cc' & x0' & xn' & vL' & vR' & σa' & σb'
     & Hdt' & -> & HU' & -> & Hf') Ht.
  assert (dt0' = dt0) as -> by congruence. rewrite <-Ht.
  split; [done|].
  destruct (ri_bufs _ _ _ _ _ Hinv1) as (Hc & _ & N12 & _).
  destruct (ri_bufs _ _ _ _ _ Hinv2) as (_ & _ & N12' & _).
  pose proof (pf_C0 _ _ _ _ _ _ _ _ _ _ _ _ _ _ _ _ _ _ _ Hf) as HC0.
  pose proof (pf_C0 _ _ _ _ _ _ _ _ _ _ _ _ _ _ _ _ _ _ _ Hf') as HC0'.
  simpl in HC0, HC0'.
  rewrite list_lookup_insert_ne in HC0, HC0' by done.
  assert (C0 = U) as -> by congruence. assert (C0' = U) as -> by congruence.
  pose proof (pf_x0 _ _ _ _ _ _ _ _ _ _ _ _ _ _ _ _ _ _ _ Hf) as Hx0.
  pose proof (pf_x0 _ _ _ _ _ _ _ _ _ _ _ _ _ _ _ _ _ _ _ Hf') as Hx0'.
  assert (x0' = x0) as -> by congruence.
  pose proof (pf_xn _ _ _ _ _ _ _ _ _ _ _ _ _ _ _ _ _ _ _ Hf) as Hxn.
  pose proof (pf_xn _ _ _ _ _ _ _ _ _ _ _ _ _ _ _ _ _ _ _ Hf') as Hxn'.
  assert (xn' = xn) as -> by congruence.
  pose proof (pf_vL _ _ _ _ _ _ _ _ _ _ _ _ _ _ _ _ _ _ _ Hf) as HvL.
  pose proof (pf_vL _ _ _ _ _ _ _ _ _ _ _ _ _ _ _ _ _ _ _ Hf') as HvL'.
  rewrite <-Ht in HvL'. assert (vL' = vL) as -> by congruence.
  pose proof (pf_vR _ _ _ _ _ _ _ _ _ _ _ _ _ _ _ _ _ _ _ Hf) as HvR.
  pose proof (pf_vR _ _ _ _ _ _ _ _ _ _ _ _ _ _ _ _ _ _ _ Hf') as HvR'.
  rewrite <-Ht in HvR'. assert (vR' = vR) as -> by congruence.
  rewrite (pf_C _ _ _ _ _ _ _ _ _ _ _ _ _ _ _ _ _ _ _ Hf),
    (pf_C _ _ _ _ _ _ _ _ _ _ _ _ _ _ _ _ _ _ _ Hf').
  f_equal.
  pose proof (pf_C_shape _ _ _ _ _ _ _ _ _ _ _ _ _ _ _ _ _ _ _ Hf) as [HlC _].
  pose proof (pf_C_shape _ _ _ _ _ _ _ _ _ _ _ _ _ _ _ _ _ _ _ Hf') as [HlC' _].
  rewrite (pf_C _ _ _ _ _ _ _ _ _ _ _ _ _ _ _ _ _ _ _ Hf), length_insert in HlC.
  rewrite (pf_C _ _ _ _ _ _ _ _ _ _ _ _ _ _ _ _ _ _ _ Hf'), length_insert in HlC'.
  pose proof (pf_P_0 _ _ _ _ _ _ _ _ _ _ _ _ _ _ _ _ _ _ _ Hf) as HP0.
  pose proof (pf_P_0 _ _ _ _ _ _ _ _ _ _ _ _ _ _ _ _ _ _ _ Hf') as HP0'.
  pose proof (pf_P_in _ _ _ _ _ _ _ _ _ _ _ _ _ _ _ _ _ _ _ Hf) as HPin.
  pose proof (pf_P_in _ _ _ _ _ _ _ _ _ _ _ _ _ _ _ _ _ _ _ Hf') as HPin'.
  rewrite <-Ht in HPin'.
  assert (∀ i, i < nx (grid self) → P1 !! i = P2 !! i) as HP.
  { intros i Hi. destruct i as [|i]; [congruence|].
    destruct (HPin (S i)) as (v & Hv & ->); [lia|].
    destruct (HPin' (S i)) as (v' & Hv' & ->); [lia|]. congruence. }
  apply list_eq. intros j.
  destruct (decide (j = 0)) as [->|Hj0].
  { rewrite (pf_Cc_0 _ _ _ _ _ _ _ _ _ _ _ _ _ _ _ _ _ _ _ Hf),
      (pf_Cc_0 _ _ _ _ _ _ _ _ _ _ _ _ _ _ _ _ _ _ _ Hf'). done. }
  destruct (decide (j < nx (grid self))) as [Hj|Hj].
  - destruct (pf_Cc_in _ _ _ _ _ _ _ _ _ _ _ _ _ _ _ _ _ _ _ Hf j)
      as (v & Hv & ->); [lia|].
    destruct (pf_Cc_in _ _ _ _ _ _ _ _ _ _ _ _ _ _ _ _ _ _ _ Hf' j)
      as (v' & Hv' & ->); [lia|].
    rewrite <-Ht in Hv'.
    rewrite (corrector_rhs_ext self _ U P1 P2 j) in Hv by (apply HP; lia).
    congruence.
  - rewrite (pf_Cc_out _ _ _ _ _ _ _ _ _ _ _ _ _ _ _ _ _ _ _ Hf j) by lia.
    rewrite (pf_Cc_out _ _ _ _ _ _ _ _ _ _ _ _ _ _ _ _ _ _ _ Hf' j) by lia.
    done.
Qed.

Lemma recorded_pass self r c t_init t_final fr (σ : mstate F) fr' σ' dt U P C :
  run_inv r c t_init fr σ →
  pass self r c t_final fr σ fr' σ' dt U P C →
  map fst (history σ') = map fst (history σ) ++ [t fr'] ∧
  recorded σ' = recorded σ ++ [Some C].
Proof.
  intros Hinv Hpass.
  destruct (pass_history _ _ _ _ _ _ _ _ _ _ _ _ _ Hinv Hpass)
    as (Hhist & Hsnap & Hold).
  unfold recorded. rewrite Hhist, !map_app. simpl. rewrite Hsnap.
  split; [done|]. f_equal.
  apply map_ext_in. intros [tk l] Hin.
  assert ((tk, l) ∈ history σ) as Hel
    by first [done | by apply list_elem_of_In].
  apply list_elem_of_lookup in Hel as [k Hk].
  by destruct (Hold _ _ _ Hk).
Qed.

Lemma reach_lockstep module_grid self t_init t_final u_init
    (σ01 σ02 : mstate F) fr1 σ1 fr2 σ2 :
  reach module_grid self t_init t_final u_init σ01 fr1 σ1 →
  reach module_grid self t_init t_final u_init σ02 fr2 σ2 →
  n_steps fr1 = n_steps fr2 →
  t fr1 = t fr2 ∧ heap σ1 !! u_cur fr1 = heap σ2 !! u_cur fr2 ∧
  map fst (history σ1) = map fst (history σ2) ∧
  recorded σ1 = recorded σ2.
Proof.
  intros Hr1. revert fr2 σ2.
  induction Hr1 as [fr1 σ1 Hinit1|fr1 σ1 fr1' σ1' Hr1 IH Hlt1 Hbody1];
    intros fr2 σ2 Hr2 Hn;
    destruct Hr2 as [fr2 σ2 Hinit2|fr2 σ2 fr2' σ2' Hr2 Hlt2 Hbody2].
  - apply run_init_unfold in Hinit1
      as (g & C & Hg & HC & -> & Hh & Hhist & _).
    apply run_init_unfold in Hinit2
      as (g' & C' & Hg' & HC' & -> & Hh' & Hhist' & _).
    assert (g' = g) as -> by congruence. assert (C' = C) as -> by congruence.
    unfold recorded. rewrite Hhist, Hhist', Hh, Hh'. msimpl. simpl.
    rewrite !lookup_app_r by lia.
    replace (length (heap σ01) + 2 - length (heap σ01)) with 2 by lia.
    replace (length (heap σ02) + 2 - length (heap σ02)) with 2 by lia.
    replace (length (heap σ01) + 3 - length (heap σ01)) with 3 by lia.
    replace (length (heap σ02) + 3 - length (heap σ02)) with 3 by lia.
    done.
  - exfalso.
    apply run_init_unfold in Hinit1 as (g & C & _ & _ & -> & _).
    destruct (reach_pass _ _ _ _ _ _ _ _ _ _ Hr2 Hbody2)
      as (g2 & dt2 & U2 & P2 & C2 & _ & _ & Hpass2).
    destruct Hpass2 as (? & ? & ? & ? & ? & ? & ? & ? & ? & ? & _ & _ & _ & -> & _).
    simpl in Hn. lia.
  - exfalso.
    apply run_init_unfold in Hinit2 as (g & C & _ & _ & -> & _).
    destruct (reach_pass _ _ _ _ _ _ _ _ _ _ Hr1 Hbody1)
      as (g1 & dt1 & U1 & P1 & C1 & _ & _ & Hpass1).
    destruct Hpass1 as (? & ? & ? & ? & ? & ? & ? & ? & ? & ? & _ & _ & _ & -> & _).
    simpl in Hn. lia.
  - destruct (reach_pass _ _ _ _ _ _ _ _ _ _ Hr1 Hbody1)
      as (g1 & dt1 & U1 & P1 & C1 & Hg1 & Hinv1 & Hpass1).
    destruct (reach_pass _ _ _ _ _ _ _ _ _ _ Hr2 Hbody2)
      as (g2 & dt2 & U2 & P2 & C2 & Hg2 & Hinv2 & Hpass2).
    assert (g2 = g1) as -> by congruence.
    destruct (pass_buffers _ _ _ _ _ _ _ _ _ _ _ _ Hpass1) as (HU1 & _ & _ & HC1).
    destruct (pass_buffers _ _ _ _ _ _ _ _ _ _ _ _ Hpass2) as (HU2 & _ & _ & HC2).
    assert (fr1' = Frame (u_prev fr1) (u_pred fr1) (u_cur fr1)
                     (fadd (t fr1) dt1) (n_steps fr1 + 1)) as E1.
    { by destruct Hpass1 as (? & ? & ? & ? & ? & ? & ? & ? & ? & ? & _ & _ & _ & -> & _). }
    assert (fr2' = Frame (u_prev fr2) (u_pred fr2) (u_cur fr2)
                     (fadd (t fr2) dt2) (n_steps fr2 + 1)) as E2.
    { by destruct Hpass2 as (? & ? & ? & ? & ? & ? & ? & ? & ? & ? & _ & _ & _ & -> & _). }
    destruct (IH fr2 σ2 Hr2) as (Ht & HUeq & Htimes & Hrec).
    { rewrite E1, E2 in Hn. simpl in Hn. lia. }
    assert (U2 = U1) as -> by congruence.
    destruct (pass_same_result _ _ _ _ _ _ _ _ _ _ _ _ _ _ _ _ _ _ _ _
                Hinv1 Hinv2 Hpass1 Hpass2 Ht) as [-> ->].
    destruct (recorded_pass _ _ _ _ _ _ _ _ _ _ _ _ _ Hinv1 Hpass1) as [T1 R1].
    destruct (recorded_pass _ _ _ _ _ _ _ _ _ _ _ _ _ Hinv2 Hpass2) as [T2 R2].
    rewrite T1, T2, R1, R2, Htimes, Hrec, E1, E2. msimpl. rewrite Ht.
    split; [done|]. split; [congruence|]. done.
Qed.

Lemma reach_ancestor module_grid self t_init t_final u_init (σ0 : mstate F)
    fr σ k :
  reach module_grid self t_init t_final u_init σ0 fr σ → k < n_steps fr →
  ∃ frk σk,
    reach module_grid self t_init t_final u_init σ0 frk σk ∧
    n_steps frk = k ∧ fltb (t frk) t_final = true.
Proof.
  induction 1 as [fr σ Hinit|fr σ fr' σ' Hr IH Hlt Hbody]; intros Hk.
  - apply run_init_unfold in Hinit as (g & C & _ & _ & -> & _).
    simpl in Hk. lia.
  - destruct (reach_pass _ _ _ _ _ _ _ _ _ _ Hr Hbody)
      as (g & dt & U & P & C & _ & _ & Hpass).
    destruct Hpass as (? & ? & ? & ? & ? & ? & ? & ? & ? & ? & _ & _ & _ & -> & _).
    simpl in Hk. destruct (decide (k = n_steps fr)) as [->|Hne].
    + by exists fr, σ.
    + apply IH. lia.
Qed.

(** X2. What a run that returns leaves behind depends on its arguments, the
    stepper and the module-level [grid] only: started in any other machine
    state (another heap, the history of an earlier run, another call log) and
    with any other fuel, a run that returns has made the same number of
    steps, ends at the same time and has recorded the same times and the same
    states. *)
Theorem run_depends_on_arguments_only module_grid self fuel1 fuel2
    t_init t_final u_init (σ01 σ02 : mstate F) fr1 σ1 fr2 σ2 :
  run module_grid self fuel1 t_init t_final u_init σ01 = Returns fr1 σ1 →
  run module_grid self fuel2 t_init t_final u_init σ02 = Returns fr2 σ2 →
  n_steps fr1 = n_steps fr2 ∧ t fr1 = t fr2 ∧
  map fst (history σ1) = map fst (history σ2) ∧
  recorded σ1 = recorded σ2.
Proof.
  intros [Hr1 Hend1]%run_reach [Hr2 Hend2]%run_reach.
  assert (n_steps fr1 = n_steps fr2) as Hn.
  { destruct (Nat.lt_trichotomy (n_steps fr1) (n_steps fr2)) as [Hlt|[?|Hlt]];
      [|done|]; exfalso.
    - destruct (reach_ancestor _ _ _ _ _ _ _ _ _ Hr2 Hlt)
        as (frk & σk & Hrk & Hnk & Hgo).
      destruct (reach_lockstep _ _ _ _ _ _ _ _ _ _ _ Hr1 Hrk) as (Ht & _);
        [done|]. congruence.
    - destruct (reach_ancestor _ _ _ _ _ _ _ _ _ Hr1 Hlt)
        as (frk & σk & Hrk & Hnk & Hgo).
      destruct (reach_lockstep _ _ _ _ _ _ _ _ _ _ _ Hr2 Hrk) as (Ht & _);
        [done|]. congruence. }
  split; [done|].
  destruct (reach_lockstep _ _ _ _ _ _ _ _ _ _ _ Hr1 Hr2 Hn) as (Ht & _ & ? & ?).
  done.
Qed.

(** *** The recorded times and the final time *)

Lemma reach_times_before module_grid self t_init t_final u_init
    (σ0 : mstate F) fr σ :
  reach module_grid self t_init t_final u_init σ0 fr σ →
  ∀ k tk l, history σ !! k = Some (tk, l) → k < n_steps fr →
    fltb tk t_final = true.
Proof.
  induction 1 as [fr σ Hinit|fr σ fr' σ' Hr IH Hlt Hbody]; intros k tk l Hk Hn.
  - pose proof (wp_elim false _ _ _ _ _
                 (run_init_spec false module_grid self t_init u_init σ0
                    (λ E, False_ind _ (Bool.diff_false_true E))) Hinit)
      as (g & C & Hg & HC & -> & _).
    simpl in Hn. lia.
  - destruct (reach_pass _ _ _ _ _ _ _ _ _ _ Hr Hbody)
      as (g & dt & U & P & C & Hg & Hinv & Hpass).
    destruct (pass_history _ _ _ _ _ _ _ _ _ _ _ _ _ Hinv Hpass)
      as (Hhist & _ & _).
    assert (n_steps fr' = n_steps fr + 1) as Hn'.
    { destruct Hpass
        as (? & ? & ? & ? & ? & ? & ? & ? & ? & ? & _ & _ & _ & -> & _).
      done. }
    destruct Hinv as [_ Hlen _ (ll & Hlast & _) _].
    rewrite Hhist in Hk. rewrite Hn' in Hn.
    destruct (decide (k = n_steps fr)) as [->|Hne].
    + rewrite lookup_app_l in Hk by lia. congruence.
    + apply (IH k tk l); [|lia]. by rewrite lookup_app_l in Hk by lia.
Qed.

(** X20. When [run] returns, every recorded time but the last is less than
    [t_final], by the comparison of line 87, and the last one, the final
    [t], is not: the last history entry is the only one that can reach
    [t_final] or, in an arithmetic that rounds, pass it. *)
Theorem only_last_time_reaches_t_final module_grid self fuel t_init t_final
    u_init (σ0 : mstate F) fr σ :
  run module_grid self fuel t_init t_final u_init σ0 = Returns fr σ →
  (∀ k tk l, history σ !! k = Some (tk, l) → k < n_steps fr →
     fltb tk t_final = true) ∧
  (∃ l, history σ !! n_steps fr = Some (t fr, l)) ∧
  fltb (t fr) t_final = false.
Proof.
  intros [Hr Hend]%run_reach.
  split; [by eapply reach_times_before|]. split; [|done].
  destruct (reach_inv _ _ _ _ _ _ _ _ Hr) as (g & _ & Hinv).
  destruct (ri_last _ _ _ _ _ Hinv) as (l & Hl & _). by exists l.
Qed.

End Facts.

(** ** Exact arithmetic

    The statements below need the laws of arithmetic; they are made for the
    stepper over the rationals, where no operation rounds. *)

Local Open Scope Qc_scope.

Lemma Qc_this_eq (a b : Qc) : a = b → (this a == this b)%Q.
Proof. by intros ->. Qed.

(** Linear arithmetic on [Qc], through [Q]. *)
Ltac qc_to_q :=
  unfold fadd, fsub, fmul, fdiv, f0, fhalf, Qc_scalar in *;
  repeat match goal with
         | H : @eq Qc _ _ |- _ => apply Qc_this_eq in H
         | |- @eq Qc _ _ => apply Qc_is_canon
         end;
  unfold Qcle, Qclt, Qcminus, Qcopp, Qcplus, Qcmult, Q2Qc in *;
  cbn [this] in *;
  rewrite ?Qred_correct in *.

Ltac qc_lra := qc_to_q; lra.

Lemma fltb_Qc (a b : Qc) : fltb a b = true ↔ a < b.
Proof.
  unfold fltb, Qc_scalar. rewrite Qclt_alt. destruct (a ?= b); naive_solver.
Qed.

Lemma fltb_Qc_false (a b : Qc) : fltb a b = false ↔ b ≤ a.
Proof.
  split.
  - intros Hf. apply Qcnot_lt_le. intros Hlt%fltb_Qc. congruence.
  - intros Hle. destruct (fltb a b) eqn:E; [|done].
    apply fltb_Qc in E. by apply Qcle_not_lt in Hle.
Qed.

Lemma fleb_Qc (a b : Qc) : fleb a b = true ↔ a ≤ b.
Proof.
  unfold fleb, Qc_scalar. rewrite Qcle_alt. destruct (a ?= b); naive_solver.
Qed.

Lemma fleb_Qc_false (a b : Qc) : fleb a b = false ↔ b < a.
Proof.
  split.
  - intros Hf. apply Qcnot_le_lt. intros Hle%fleb_Qc. congruence.
  - intros Hlt. destruct (fleb a b) eqn:E; [|done].
    apply fleb_Qc in E. by apply Qclt_not_le in Hlt.
Qed.

Lemma feqb_Qc (a b : Qc) : feqb a b = true ↔ a = b.
Proof.
  unfold feqb, Qc_scalar. split; [apply Qc_eq_bool_correct|].
  intros ->. unfold Qc_eq_bool. by destruct (Qcanon.Qc_eq_dec b b).
Qed.

Lemma fmax_Qc (a b : Qc) :
  a ≤ fmax a b ∧ b ≤ fmax a b ∧ (fmax a b = a ∨ fmax a b = b).
Proof.
  unfold fmax. destruct (fltb a b) eqn:E.
  - apply fltb_Qc in E. split; [by apply Qclt_le_weak|].
    split; [apply Qcle_refl|by right].
  - apply fltb_Qc_false in E. split; [apply Qcle_refl|]. split; [done|by left].
Qed.

(** Over the rationals [maximum] is the larger operand. *)
Lemma np_maximum_Qc (a b : Qc) :
  a ≤ np_maximum a b ∧ b ≤ np_maximum a b ∧
  (np_maximum a b = a ∨ np_maximum a b = b).
Proof.
  unfold np_maximum. rewrite (proj2 (feqb_Qc a a) eq_refl), orb_false_r.
  destruct (fleb b a) eqn:E.
  - apply fleb_Qc in E. split; [apply Qcle_refl|]. split; [done|by left].
  - apply fleb_Qc_false in E. split; [by apply Qclt_le_weak|].
    split; [apply Qcle_refl|by right].
Qed.

Lemma foldl_np_maximum_Qc (v : list Qc) (x : Qc) :
  x ≤ foldl np_maximum x v ∧ (∀ e, e ∈ v → e ≤ foldl np_maximum x v) ∧
  (foldl np_maximum x v = x ∨ foldl np_maximum x v ∈ v).
Proof.
  revert x. induction v as [|y v IH]; intros x; simpl.
  - split; [apply Qcle_refl|]. split; [|by left]. intros e He. inversion He.
  - destruct (IH (np_maximum x y)) as (H1 & H2 & H3).
    destruct (np_maximum_Qc x y) as (Hx & Hy & Hxy).
    split; [by eapply Qcle_trans|]. split.
    + intros e [->|He]%elem_of_cons; [by eapply Qcle_trans|by apply H2].
    + destruct H3 as [H3|H3].
      * rewrite H3. destruct Hxy as [->| ->]; [by left|right; by left].
      * right. by right.
Qed.

Lemma np_amax_Qc (v : list Qc) m :
  np_amax v = Ok m → m ∈ v ∧ ∀ e, e ∈ v → e ≤ m.
Proof.
  destruct v as [|x v]; [done|]. simpl. intros [= <-].
  destruct (foldl_np_maximum_Qc v x) as (H1 & H2 & H3). split.
  - destruct H3 as [-> |H3]; [by left|by right].
  - intros e [->|He]%elem_of_cons; [done|by apply H2].
Qed.

Lemma elem_of_map_abs (v : list Qc) a :
  a ∈ map fabs v ↔ ∃ e, e ∈ v ∧ a = Qcabs e.
Proof.
  rewrite list_elem_of_In, in_map_iff. split.
  - intros (e & <- & He). exists e. by rewrite list_elem_of_In.
  - intros (e & He & ->). exists e. by rewrite <-list_elem_of_In.
Qed.

(** The scan of lines 95-100 ends with the largest of its start value and
    the magnitudes of all the eigenvalues at all the coordinates. *)
Lemma cfl_scan_Qc (self : MacCormackStepper Qc) xs acc lam :
  cfl_scan self xs acc = Ok lam →
  acc ≤ lam ∧
  (∀ x e, x ∈ xs → e ∈ jacEigenvalues (model self) x → Qcabs e ≤ lam) ∧
  (lam = acc ∨
   ∃ x e, x ∈ xs ∧ e ∈ jacEigenvalues (model self) x ∧ lam = Qcabs e).
Proof.
  revert acc. induction xs as [|x xs IH]; intros acc; simpl.
  - intros [= <-]. split; [apply Qcle_refl|]. split; [|by left].
    intros x e Hx. inversion Hx.
  - intros (m & Hm & Hscan)%rbind_Ok.
    destruct (np_amax_Qc _ _ Hm) as [Hmin Hmax].
    destruct (IH _ Hscan) as (H1 & H2 & H3).
    unfold py_max in *. destruct (fmax_Qc acc m) as (Ha & Hb & Hab).
    split; [by eapply Qcle_trans|]. split.
    + intros x' e [->|Hx']%elem_of_cons He; [|by eapply H2].
      eapply Qcle_trans; [|exact H1]. eapply Qcle_trans; [|exact Hb].
      apply Hmax, elem_of_map_abs. by exists e.
    + destruct H3 as [->|(x' & e & Hx' & He & ->)].
      * destruct Hab as [->| ->]; [by left|]. right.
        apply elem_of_map_abs in Hmin as (e & He & ->).
        exists x, e. split; [by left|done].
      * right. exists x', e. split; [by right|done].
Qed.

Lemma cfl_lambda_max_nonneg (self : MacCormackStepper Qc) lam :
  cfl_lambda_max self = Ok lam → 0 ≤ lam.
Proof. intros Hl. by destruct (cfl_scan_Qc _ _ _ _ Hl) as (? & _). Qed.

Lemma cfl_dt_Qc (self : MacCormackStepper Qc) dt0 :
  cfl_dt self = Ok dt0 →
  ∃ lam, cfl_lambda_max self = Ok lam ∧ 0 < lam ∧
         dt0 = epsilon self * (dx (grid self) / lam) ∧
         dt0 * lam = epsilon self * dx (grid self).
Proof.
  unfold cfl_dt. intros (lam & Hlam & Hq)%rbind_Ok.
  apply rbind_Ok in Hq as (q & Hq & [= <-]).
  unfold py_div in Hq. destruct (feqb lam f0) eqn:E; [done|].
  injection Hq as <-.
  assert (lam ≠ 0) as Hne.
  { intros ->. by rewrite (proj2 (feqb_Qc _ _) eq_refl) in E. }
  exists lam. split; [done|]. split.
  - pose proof (cfl_lambda_max_nonneg _ _ Hlam) as Hge.
    destruct (Qcle_lt_or_eq _ _ Hge) as [?|?]; [done|congruence].
  - split; [done|]. unfold fmul, fdiv, Qc_scalar. by field.
Qed.

(** The clamp of lines 105-106 in exact arithmetic: either the step lands
    on [t_final], or it is the unclamped step and stays short of it. *)
Lemma clamp_dt_Qc (t_final t dt0 : Qc) :
  (t_final - t ≤ dt0 ∧ clamp_dt t_final t dt0 = t_final - t ∧
   fadd t (clamp_dt t_final t dt0) = t_final) ∨
  (dt0 < t_final - t ∧ clamp_dt t_final t dt0 = dt0 ∧
   fadd t (clamp_dt t_final t dt0) < t_final).
Proof.
  unfold clamp_dt. destruct (fleb (fsub t_final t) dt0) eqn:E.
  - apply fleb_Qc in E. left. split; [done|]. split; [done|]. qc_lra.
  - apply fleb_Qc_false in E. right. split; [done|]. split; [done|]. qc_lra.
Qed.

(** A pass of a run over the rationals: its time step. *)
Lemma reach_pass_time module_grid (self : MacCormackStepper Qc)
    t_init t_final u_init (σ0 : mstate Qc) fr σ fr' σ' :
  reach module_grid self t_init t_final u_init σ0 fr σ →
  loop_body self t_final fr σ = Returns fr' σ' →
  ∃ dt0, cfl_dt self = Ok dt0 ∧
         t fr' = fadd (t fr) (clamp_dt t_final (t fr) dt0) ∧
         n_steps fr' = (n_steps fr + 1)%nat ∧
         ∃ l, history σ' = history σ ++ [(t fr', l)].
Proof.
  intros Hr Hbody.
  destruct (reach_pass _ _ _ _ _ _ _ _ _ _ Hr Hbody)
    as (g & dt & U & P & C & Hg & Hinv & Hpass).
  destruct Hpass as (dt0 & P0 & C0 & Cc & x0 & xn & vL & vR & σa & σb
                     & Hdt & -> & HU & -> & Hf).
  exists dt0. do 3 (split; [done|]). destruct Hf. by eexists.
Qed.


(** C10 (as amended). Over exact rationals: the [lambda_max] of a pass
    depends on the grid and the model only, so any two passes of a run
    compute the same [lambda_max] and the same unclamped step
    [dt0 = epsilon * (dx / lambda_max)]; and every pass after which the loop
    goes on (the time is still short of [t_final]) advanced the time by
    exactly [dt0]. *)
Theorem same_step_in_every_pass module_grid (self : MacCormackStepper Qc)
    t_init t_final u_init (σ0 : mstate Qc) fr1 σ1 fr1' σ1' fr2 σ2 fr2' σ2' :
  reach module_grid self t_init t_final u_init σ0 fr1 σ1 →
  loop_body self t_final fr1 σ1 = Returns fr1' σ1' →
  reach module_grid self t_init t_final u_init σ0 fr2 σ2 →
  loop_body self t_final fr2 σ2 = Returns fr2' σ2' →
  ∃ lambda_max dt0,
    cfl_lambda_max self = Ok lambda_max ∧
    cfl_dt self = Ok dt0 ∧
    dt0 = epsilon self * (dx (grid self) / lambda_max) ∧
    (fltb (t fr1') t_final = true → t fr1' = t fr1 + dt0) ∧
    (fltb (t fr2') t_final = true → t fr2' = t fr2 + dt0).
Proof.
  intros Hr1 Hb1 Hr2 Hb2.
  destruct (reach_pass_time _ _ _ _ _ _ _ _ _ _ Hr1 Hb1)
    as (dt0 & Hdt & Ht1 & _).
  destruct (reach_pass_time _ _ _ _ _ _ _ _ _ _ Hr2 Hb2)
    as (dt0' & Hdt' & Ht2 & _).
  assert (dt0' = dt0) as -> by congruence.
  destruct (cfl_dt_Qc _ _ Hdt) as (lam & Hlam & Hpos & Hdt0 & Hprod).
  exists lam, dt0. do 3 (split; [done|]).
  split; intros Hlt%fltb_Qc.
  - rewrite Ht1 in *.
    destruct (clamp_dt_Qc t_final (t fr1) dt0) as [(_ & _ & E)|(_ & -> & _)];
      [|done].
    rewrite E in Hlt. by apply Qclt_not_eq in Hlt.
  - rewrite Ht2 in *.
    destruct (clamp_dt_Qc t_final (t fr2) dt0) as [(_ & _ & E)|(_ & -> & _)];
      [|done].
    rewrite E in Hlt. by apply Qclt_not_eq in Hlt.
Qed.

(** C7 (as amended). [lambda_max] is never negative; and when it is zero,
    a run with [t_init < t_final] stops in its first pass with Python's
    [ZeroDivisionError], raised by the division [dx / lambda_max], the
    history holding the initial entry only and no boundary call made. *)
Theorem zero_lambda_max_raises (self : MacCormackStepper Qc) lambda_max :
  cfl_lambda_max self = Ok lambda_max →
  0 ≤ lambda_max ∧
  (lambda_max = 0 →
   ∀ module_grid fuel t_init t_final u_init (σ0 : mstate Qc) fr σ,
     run_init module_grid self t_init u_init σ0 = Returns fr σ →
     t_init < t_final →
     ∃ σ', run module_grid self (S fuel) t_init t_final u_init σ0
             = Raises ZeroDivisionError σ' ∧
           history σ' = history σ ∧ calls σ' = calls σ0).
Proof.
  intros Hlam. split; [by eapply cfl_lambda_max_nonneg|].
  intros -> module_grid fuel t_init t_final u_init σ0 fr σ Hinit Hlt.
  pose proof (wp_elim false _ _ _ _ _
               (run_init_spec false module_grid self t_init u_init σ0
                  (λ E, False_ind _ (Bool.diff_false_true E))) Hinit)
    as (g & C & Hg & HC & Hfr & Hh & Hhist & Hcalls).
  destruct (run_init_inv _ _ _ _ _ _ _ Hinit) as (g' & _ & Hinv).
  destruct (ri_bufs _ _ _ _ _ Hinv) as (_ & _ & _ & _ & _ & _ & (U & HU & _)).
  destruct (wp_total _ _ _ (begin_step_spec true _ _ fr σ U
                              (ri_bufs _ _ _ _ _ Hinv) HU))
    as (fr1 & σ1 & Hbegin & -> & ->).
  assert (t fr = t_init) as Ht by (by rewrite Hfr).
  exists (upd (u_prev fr) U σ). split; [|by rewrite <-Hcalls].
  unfold run, bind. rewrite Hinit. cbn [while_loop].
  rewrite Ht, (proj2 (fltb_Qc _ _) Hlt).
  unfold bind, loop_body, bind. rewrite Hbegin.
  unfold cfl_dt. rewrite Hlam. done.
Qed.

(** *** Termination and the final time *)

Lemma Qc_div_pos (a b : Qc) : 0 < a → 0 < b → 0 < a / b.
Proof.
  intros Ha Hb. unfold Qcdiv, Qcinv. qc_to_q.
  apply Qmult_lt_0_compat; [done|]. by apply Qinv_lt_0_compat.
Qed.

Lemma Qc_mult_pos (a b : Qc) : 0 < a → 0 < b → 0 < a * b.
Proof. intros Ha Hb. qc_to_q. by apply Qmult_lt_0_compat. Qed.

Lemma Qc_archimedean (a d : Qc) :
  0 < d → ∃ n : nat, a ≤ Q2Qc (inject_Z (Z.of_nat n)) * d.
Proof.
  intros Hd. destruct (Qarchimedean (this a / this d)) as [p Hp].
  exists (Pos.to_nat p). rewrite positive_nat_Z. qc_to_q.
  assert (this a == this a / this d * this d)%Q as ->.
  { field. intros E. rewrite E in Hd. by apply Qlt_irrefl in Hd. }
  apply Qlt_le_weak, Qmult_lt_compat_r; done.
Qed.

Lemma reach_time_le module_grid (self : MacCormackStepper Qc)
    t_init t_final u_init (σ0 : mstate Qc) fr σ :
  t_init ≤ t_final →
  reach module_grid self t_init t_final u_init σ0 fr σ →
  t fr ≤ t_final ∧ Forall (λ e, e.1 ≤ t_final) (history σ).
Proof.
  intros Hle Hr. induction Hr as [fr σ Hinit|fr σ fr' σ' Hr [IHt IHh] _ Hbody].
  - pose proof (wp_elim false _ _ _ _ _
                 (run_init_spec false module_grid self t_init u_init σ0
                    (λ E, False_ind _ (Bool.diff_false_true E))) Hinit)
      as (g & C & Hg & HC & -> & Hh & -> & Hcalls).
    split; [done|]. by repeat constructor.
  - destruct (reach_pass_time _ _ _ _ _ _ _ _ _ _ Hr Hbody)
      as (dt0 & Hdt & Ht & _ & l & ->).
    assert (t fr' ≤ t_final) as Hle'.
    { rewrite Ht.
      destruct (clamp_dt_Qc t_final (t fr) dt0) as [(_ & _ & ->)|(_ & _ & ?)];
        [apply Qcle_refl|by apply Qclt_le_weak]. }
    split; [done|]. apply Forall_app. split; [done|]. by repeat constructor.
Qed.

Lemma while_loop_terminates (self : MacCormackStepper Qc) r c
    t_init t_final dt0 n fr (σ : mstate Qc) :
  run_inv r c t_init fr σ → total_ok self r c →
  cfl_dt self = Ok dt0 → 0 < dt0 →
  t_final - t fr ≤ Q2Qc (inject_Z (Z.of_nat n)) * dt0 →
  ∃ fr' σ', while_loop self t_final n fr σ = Returns fr' σ'.
Proof.
  intros Hinv Hok Hdt Hpos. revert fr σ Hinv.
  induction n as [|n IH]; intros fr σ Hinv Hn;
    cbn [while_loop]; destruct (fltb (t fr) t_final) eqn:Hlt;
    try (by eexists _, _).
  - apply fltb_Qc in Hlt. exfalso. qc_to_q.
    change (inject_Z (Z.of_nat 0)) with 0%Q in Hn. lra.
  - apply fltb_Qc in Hlt.
    destruct (wp_total _ _ _
                (loop_body_spec true self r c t_final fr σ
                   (ri_bufs _ _ _ _ _ Hinv)
                   (λ _, conj Hok (ex_intro _ dt0 Hdt))))
      as (fr1 & σ1 & Hbody & dt & U & P & C & Hpass).
    pose proof (pass_inv _ _ _ _ _ _ _ _ _ _ _ _ _ Hinv Hpass) as Hinv1.
    destruct Hpass as (dt0' & P0 & C0 & Cc & x0 & xn & vL & vR & σa & σb
                       & Hdt' & -> & HU & Hfr1 & Hf).
    assert (dt0' = dt0) as -> by congruence.
    destruct (IH fr1 σ1 Hinv1) as (fr' & σ' & Hloop).
    { rewrite Hfr1. cbn [t]. rewrite Nat2Z.inj_succ in Hn.
      destruct (clamp_dt_Qc t_final (t fr) dt0) as [(_ & _ & ->)|(Hc & -> & _)].
      - qc_to_q. unfold Z.succ in Hn. rewrite inject_Z_plus in Hn.
        assert (0 <= inject_Z (Z.of_nat n))%Q.
        { change 0%Q with (inject_Z 0). rewrite <-Zle_Qle. lia. }
        nra.
      - qc_to_q. unfold Z.succ in Hn. rewrite inject_Z_plus in Hn.
        change (inject_Z 1) with 1%Q in Hn. lra. }
    exists fr', σ'. unfold bind. by rewrite Hbody.
Qed.

(** C3 (as amended). Over exact rationals: for a run with
    [t_init < t_final] over a well-formed model and grid whose CFL step is
    defined and positive, [run] returns; whenever [t_final - t <= dt] the
    clamp sets the step to [t_final - t], which lands the time on [t_final]
    exactly; and when [run] has returned, the history has [n_steps + 1]
    entries, the first at [t_init], the last at [t_final], none past
    [t_final]. *)
Theorem run_lands_on_t_final (self : MacCormackStepper Qc)
    t_init t_final u_init (σ0 : mstate Qc) dt0 :
  model_ok (model self) → grid_ok (grid self) →
  shape (numVars (model self)) (nx (grid self) + 1) u_init →
  cfl_dt self = Ok dt0 → 0 < epsilon self → 0 < dx (grid self) →
  t_init < t_final →
  (∃ fuel fr σ,
     run (Some (grid self)) self fuel t_init t_final u_init σ0 = Returns fr σ) ∧
  (∀ t dt, t_final - t ≤ dt →
     clamp_dt t_final t dt = t_final - t ∧
     t + clamp_dt t_final t dt = t_final) ∧
  (∀ fuel fr σ,
     run (Some (grid self)) self fuel t_init t_final u_init σ0 = Returns fr σ →
     (1 ≤ n_steps fr)%nat ∧
     length (history σ) = (n_steps fr + 1)%nat ∧
     (∃ l, history σ !! 0%nat = Some (t_init, l)) ∧
     (∃ l, history σ !! n_steps fr = Some (t_final, l)) ∧
     Forall (λ e, e.1 ≤ t_final) (history σ)).
Proof.
  intros Hm Hg Hu Hdt Heps Hdx Hlt. split; [|split].
  - assert (0 < dt0) as Hpos.
    { destruct (cfl_dt_Qc _ _ Hdt) as (lam & _ & Hlam & -> & _).
      apply Qc_mult_pos; [done|]. by apply Qc_div_pos. }
    destruct (wp_total _ _ _
                (run_init_spec true (Some (grid self)) self t_init u_init σ0
                   (λ _, ex_intro _ (grid self) (ex_intro _ u_init (conj eq_refl
                      (np_copyto_same _ _ _ _ (shape_np_zeros _ _) Hu
                         ltac:(lia)))))))
      as (fr0 & σ1 & Hinit & _).
    destruct (run_init_inv _ _ _ _ _ _ _ Hinit) as (g & [= <-] & Hinv).
    destruct (Qc_archimedean (t_final - t fr0) dt0 Hpos) as [n Hn].
    destruct (while_loop_terminates self _ _ t_init t_final dt0 n fr0 σ1 Hinv)
      as (fr & σ & Hloop); try done.
    { split; [done|]. split; [done|]. split; [lia|done]. }
    exists n, fr, σ. unfold run, bind. by rewrite Hinit.
  - intros t dt Hle.
    destruct (clamp_dt_Qc t_final t dt) as [(_ & E1 & E2)|(Hc & _ & _)].
    + split; [exact E1|exact E2].
    + by apply Qclt_not_le in Hc.
  - intros fuel fr σ Hrun.
    destruct (run_reach _ _ _ _ _ _ _ _ _ Hrun) as [Hr Hend].
    apply fltb_Qc_false in Hend.
    destruct (reach_time_le _ _ _ _ _ _ _ _ (Qclt_le_weak _ _ Hlt) Hr)
      as [Hle Hall].
    assert (t fr = t_final) as Ht by by apply Qcle_antisym.
    destruct (reach_inv _ _ _ _ _ _ _ _ Hr) as (g & _ & Hinv).
    destruct Hinv as [_ Hlen (l0 & Hfirst) (ll & Hlast & _) _].
    split.
    { destruct (n_steps fr) eqn:E; [|lia]. exfalso.
      rewrite Hfirst in Hlast. injection Hlast as E1 _.
      rewrite <-E1 in Ht. rewrite Ht in Hlt. by apply Qclt_not_eq in Hlt. }
    split; [lia|]. split; [by exists l0|]. split; [|done].
    exists ll. by rewrite <-Ht.
Qed.

(** *** A Jacobian that is zero everywhere *)

Lemma foldl_zero_products (acc : Qc) n (v : list Qc) :
  foldl fadd acc (zip_with fmul (replicate n f0) v) = acc.
Proof.
  revert acc v.
  induction n as [|n IH]; intros acc [|y v]; cbn [replicate zip_with foldl];
    try done.
  rewrite IH. unfold fadd, fmul, f0, Qc_scalar. ring.
Qed.

Lemma dot_zero_row n (v : list Qc) : dot (replicate n f0) v = 0.
Proof. unfold dot. apply foldl_zero_products. Qed.

Lemma matvec_zero n m (v : list Qc) :
  matvec (replicate n (replicate m f0)) v = replicate n 0.
Proof.
  unfold matvec. induction n as [|n IH]; cbn [replicate map]; [done|].
  by rewrite IH, dot_zero_row.
Qed.

Lemma scale_zeros (c : Qc) n : scale c (replicate n 0) = replicate n 0.
Proof.
  unfold scale. induction n as [|n IH]; cbn [replicate map]; [done|].
  rewrite IH. f_equal. unfold fmul, Qc_scalar. ring.
Qed.

Lemma vsub_zeros (b : list Qc) : vsub b (replicate (length b) 0) = b.
Proof.
  unfold vsub. induction b as [|x b IH]; cbn [length replicate zip_with]; [done|].
  rewrite IH. f_equal. unfold fsub, Qc_scalar. ring.
Qed.

Lemma half_of_double (b : list Qc) : scale fhalf (vadd b b) = b.
Proof.
  unfold scale, vadd. induction b as [|x b IH]; cbn [zip_with map]; [done|].
  rewrite IH. f_equal. qc_lra.
Qed.

Lemma predictor_formula_zero (dt dx : Qc) (b a : list Qc) :
  predictor_formula dt dx (replicate (length b) (replicate (length b) f0)) b a
  = b.
Proof.
  unfold predictor_formula. by rewrite matvec_zero, scale_zeros, vsub_zeros.
Qed.

Lemma corrector_formula_zero (dt dx : Qc) (b p' : list Qc) :
  corrector_formula dt dx (replicate (length b) (replicate (length b) f0))
    b b p' = b.
Proof.
  unfold corrector_formula.
  rewrite matvec_zero, scale_zeros, half_of_double. apply vsub_zeros.
Qed.

Lemma jac_zero_ok (m : Model Qc) : jac_zero m → jacobian_ok m.
Proof.
  intros Hz x. rewrite Hz. split; [apply length_replicate|].
  apply Forall_replicate, length_replicate.
Qed.

(** With a zero Jacobian a pass leaves every interior column of the state
    as it was. *)
Lemma pass_zero_jacobian (self : MacCormackStepper Qc) c t_final fr
    (σ : mstate Qc) fr' σ' dt U P C :
  jac_zero (model self) → shape (numVars (model self)) c U →
  pass self (numVars (model self)) c t_final fr σ fr' σ' dt U P C →
  ∀ i, (1 ≤ i < nx (grid self))%nat → C !! i = U !! i.
Proof.
  intros Hz HsU Hpass i Hi.
  destruct (pass_interior _ _ _ _ _ _ _ _ _ _ _ _ (jac_zero_ok _ Hz) eq_refl
              HsU Hpass i Hi)
    as (x & b & a & p & p' & Hx & Hb & Ha & Hp & Hp' & -> & ->).
  destruct (shape_lookup _ _ _ _ _ HsU Hb) as [Hlb _].
  rewrite Hb, Hz, <-Hlb. by rewrite predictor_formula_zero, corrector_formula_zero.
Qed.

(** C8 (as amended). Over exact rationals: if the Jacobian is the zero
    matrix at every grid point (and the spacing is positive, so that no
    quotient by zero is formed), the interior columns (1 <= i < nx) of every
    recorded state equal those of the first recorded state, the copy of the
    initial state. *)
Theorem zero_jacobian_keeps_interior module_grid (self : MacCormackStepper Qc)
    t_init t_final u_init (σ0 : mstate Qc) fr σ :
  jac_zero (model self) → 0 < dx (grid self) →
  reach module_grid self t_init t_final u_init σ0 fr σ →
  ∃ l0 S0,
    history σ !! 0%nat = Some (t_init, l0) ∧ heap σ !! l0 = Some S0 ∧
    ∀ k tk l S, history σ !! k = Some (tk, l) → heap σ !! l = Some S →
      ∀ i, (1 ≤ i < nx (grid self))%nat → S !! i = S0 !! i.
Proof.
  intros Hz _ Hr. induction Hr as [fr σ Hinit|fr σ fr' σ' Hr IH Hlt Hbody].
  - pose proof (wp_elim false _ _ _ _ _
                 (run_init_spec false module_grid self t_init u_init σ0
                    (λ E, False_ind _ (Bool.diff_false_true E))) Hinit)
      as (g & C & Hg & HC & -> & Hh & Hhist & Hcalls).
    exists (length (heap σ0) + 3)%nat, C. rewrite Hhist. split; [done|].
    assert (heap σ !! (length (heap σ0) + 3)%nat = Some C) as HlC.
    { rewrite Hh, lookup_app_r by lia.
      by replace (length (heap σ0) + 3 - length (heap σ0))%nat with 3%nat by lia. }
    split; [done|]. intros k tk l S Hk HS i Hi.
    destruct k; simpl in Hk; [|done]. congruence.
  - destruct IH as (l0 & S0 & H0 & HS0 & IH).
    destruct (reach_pass _ _ _ _ _ _ _ _ _ _ Hr Hbody)
      as (g & dt & U & P & C & Hg & Hinv & Hpass).
    destruct (pass_history _ _ _ _ _ _ _ _ _ _ _ _ _ Hinv Hpass)
      as (Hhist & Hsnap & Hold).
    destruct (pass_buffers _ _ _ _ _ _ _ _ _ _ _ _ Hpass) as (HU & _).
    assert (shape (numVars (model self)) (nx g + 1) U) as HsU.
    { destruct (ri_bufs _ _ _ _ _ Hinv)
        as (_ & _ & _ & _ & _ & _ & (U' & HU0 & HsU)).
      congruence. }
    destruct (Hold _ _ _ H0) as [H0' Hl0].
    exists l0, S0. split; [done|]. split; [congruence|].
    intros k tk l S Hk HS i Hi. rewrite Hhist in Hk.
    apply lookup_app_Some in Hk as [Hk|[_ Hk]].
    + destruct (Hold _ _ _ Hk) as [_ Hl]. apply (IH k tk l); [done|congruence|done].
    + destruct (k - length (history σ))%nat; simpl in Hk; [|done].
      injection Hk as _ <-. assert (S = C) as -> by congruence.
      rewrite (pass_zero_jacobian _ _ _ _ _ _ _ _ _ _ _ Hz HsU Hpass i Hi).
      destruct (ri_last _ _ _ _ _ Hinv) as (ll & Hll & Hllc).
      apply (IH (n_steps fr) (t fr) ll); [done|congruence|done].
Qed.

(** *** The recorded times *)

Lemma after_steps_0 t_init dt0 : after_steps t_init 0 dt0 = t_init.
Proof. unfold after_steps. change (inject_Z (Z.of_nat 0)) with 0%Q. qc_lra. Qed.

Lemma after_steps_S t_init k dt0 :
  after_steps t_init (S k) dt0 = after_steps t_init k dt0 + dt0.
Proof.
  unfold after_steps. rewrite Nat2Z.inj_succ. unfold Z.succ.
  qc_to_q. rewrite inject_Z_plus. change (inject_Z 1) with 1%Q. ring.
Qed.

Lemma reach_times module_grid (self : MacCormackStepper Qc)
    t_init t_final u_init (σ0 : mstate Qc) fr σ dt0 :
  cfl_dt self = Ok dt0 →
  reach module_grid self t_init t_final u_init σ0 fr σ →
  (∀ k tk l, history σ !! k = Some (tk, l) → (k < n_steps fr)%nat →
     tk = after_steps t_init k dt0 ∧ tk < t_final) ∧
  (t fr = after_steps t_init (n_steps fr) dt0 ∨
   (t fr = t_final ∧ (0 < n_steps fr)%nat ∧
    t_final ≤ after_steps t_init (n_steps fr) dt0)).
Proof.
  intros Hdt Hr. induction Hr as [fr σ Hinit|fr σ fr' σ' Hr [IHh IHt] Hlt Hbody].
  - apply run_init_unfold in Hinit
      as (g & C & Hg & HC & -> & Hh & Hhist & Hcalls).
    cbn [t n_steps]. split; [intros; lia|]. left. by rewrite after_steps_0.
  - destruct (reach_inv _ _ _ _ _ _ _ _ Hr) as (g & _ & Hinv).
    destruct (reach_pass_time _ _ _ _ _ _ _ _ _ _ Hr Hbody)
      as (dt0' & Hdt' & Ht & Hn & l & Hhist).
    assert (dt0' = dt0) as -> by congruence.
    apply fltb_Qc in Hlt.
    assert (t fr = after_steps t_init (n_steps fr) dt0) as Htn.
    { destruct IHt as [?|(E & _)]; [done|].
      rewrite E in Hlt. by apply Qclt_not_eq in Hlt. }
    rewrite Hn. split.
    + intros k tk l' Hk Hkn. rewrite Hhist in Hk.
      destruct (decide (k = n_steps fr)) as [->|Hne].
      * destruct (ri_last _ _ _ _ _ Hinv) as (ll & Hll & _).
        rewrite (lookup_app_l_Some _ _ _ _ Hll) in Hk.
        injection Hk as <- _. split; done.
      * pose proof (ri_len _ _ _ _ _ Hinv) as Hlen.
        rewrite lookup_app_l in Hk by lia. apply (IHh k tk l'); [done|lia].
    + rewrite Ht. replace (n_steps fr + 1)%nat with (S (n_steps fr)) by lia.
      rewrite after_steps_S, <-Htn.
      destruct (clamp_dt_Qc t_final (t fr) dt0) as [(Hle & _ & ->)|(_ & -> & _)].
      * right. split; [done|]. split; [lia|]. qc_lra.
      * by left.
Qed.

Lemma reach_cfl_dt module_grid (self : MacCormackStepper Qc)
    t_init t_final u_init (σ0 : mstate Qc) fr σ :
  reach module_grid self t_init t_final u_init σ0 fr σ →
  (n_steps fr = 0%nat ∧ t fr = t_init) ∨ ∃ dt0, cfl_dt self = Ok dt0.
Proof.
  intros Hr. destruct Hr as [fr σ Hinit|fr σ fr' σ' Hr Hlt Hbody].
  - apply run_init_unfold in Hinit as (g & C & Hg & HC & -> & _). by left.
  - destruct (reach_pass_time _ _ _ _ _ _ _ _ _ _ Hr Hbody) as (dt0 & Hdt & _).
    right. by exists dt0.
Qed.

(** X10. A run with [t_init < t_final] that returns has recorded the times
    [t_init + k * dt0] for [k < n_steps] and then [t_final], [dt0] being the
    CFL step, which is then positive; and [n_steps] is the least number of
    steps of size [dt0] that reach [t_final]:
    [t_init + (n_steps - 1) * dt0 < t_final <= t_init + n_steps * dt0]. *)
Theorem history_times module_grid (self : MacCormackStepper Qc) fuel
    t_init t_final u_init (σ0 : mstate Qc) fr σ :
  t_init < t_final →
  run module_grid self fuel t_init t_final u_init σ0 = Returns fr σ →
  ∃ dt0,
    cfl_dt self = Ok dt0 ∧ 0 < dt0 ∧ (0 < n_steps fr)%nat ∧
    (∀ k tk l, history σ !! k = Some (tk, l) → (k < n_steps fr)%nat →
       tk = after_steps t_init k dt0) ∧
    (∃ l, history σ !! n_steps fr = Some (t_final, l)) ∧
    after_steps t_init (n_steps fr - 1) dt0 < t_final ∧
    t_final ≤ after_steps t_init (n_steps fr) dt0.
Proof.
  intros Hlt [Hr Hend]%run_reach. apply fltb_Qc_false in Hend.
  destruct (reach_time_le _ _ _ _ _ _ _ _ (Qclt_le_weak _ _ Hlt) Hr) as [Hle _].
  assert (t fr = t_final) as Ht by by apply Qcle_antisym.
  destruct (reach_cfl_dt _ _ _ _ _ _ _ _ Hr) as [[_ E]|[dt0 Hdt]].
  { rewrite E in Ht. rewrite Ht in Hlt. by apply Qclt_not_eq in Hlt. }
  destruct (reach_times _ _ _ _ _ _ _ _ _ Hdt Hr) as [Hh Htn].
  destruct (reach_inv _ _ _ _ _ _ _ _ Hr) as (g & _ & Hinv).
  pose proof (ri_len _ _ _ _ _ Hinv) as Hlen.
  destruct (ri_last _ _ _ _ _ Hinv) as (ll & Hll & _).
  assert (0 < n_steps fr)%nat as Hn.
  { destruct Htn as [E|(_ & ? & _)]; [|done].
    destruct (n_steps fr); [|lia]. rewrite after_steps_0 in E.
    rewrite <-E, Ht in Hlt. by apply Qclt_not_eq in Hlt. }
  assert (t_final ≤ after_steps t_init (n_steps fr) dt0) as Hup.
  { destruct Htn as [E|(_ & _ & ?)]; [|done]. rewrite <-E, Ht. apply Qcle_refl. }
  destruct (lookup_lt_is_Some_2 (history σ) (n_steps fr - 1)) as [[tk l] Hk];
    [lia|].
  destruct (Hh _ _ _ Hk) as [-> Hlow]; [lia|].
  exists dt0. split; [done|]. split.
  { replace (n_steps fr) with (S (n_steps fr - 1)) in Hup by lia.
    rewrite after_steps_S in Hup. qc_lra. }
  split; [done|]. split.
  { intros k tk l' Hk' Hkn. by destruct (Hh _ _ _ Hk' Hkn). }
  split; [|done]. exists ll. by rewrite <-Ht.
Qed.

(** *** A step that is not positive *)

Lemma while_loop_never_ends (self : MacCormackStepper Qc) r c
    t_init t_final dt0 fuel fr (σ : mstate Qc) :
  run_inv r c t_init fr σ → total_ok self r c →
  cfl_dt self = Ok dt0 → dt0 ≤ 0 → t fr < t_final →
  while_loop self t_final fuel fr σ = OutOfFuel.
Proof.
  intros Hinv Hok Hdt Hneg. revert fr σ Hinv.
  induction fuel as [|fuel IH]; intros fr σ Hinv Hlt;
    cbn [while_loop]; rewrite (proj2 (fltb_Qc _ _) Hlt); [done|].
  destruct (wp_total _ _ _
              (loop_body_spec true self r c t_final fr σ
                 (ri_bufs _ _ _ _ _ Hinv)
                 (λ _, conj Hok (ex_intro _ dt0 Hdt))))
    as (fr1 & σ1 & Hbody & dt & U & P & C & Hpass).
  pose proof (pass_inv _ _ _ _ _ _ _ _ _ _ _ _ _ Hinv Hpass) as Hinv1.
  destruct Hpass as (dt0' & P0 & C0 & Cc & x0 & xn & vL & vR & σa & σb
                     & Hdt' & -> & HU & Hfr1 & Hf).
  assert (dt0' = dt0) as -> by congruence.
  unfold bind. rewrite Hbody. apply IH; [done|].
  rewrite Hfr1. cbn [t].
  destruct (clamp_dt_Qc t_final (t fr) dt0) as [(Hc & _ & _)|(_ & -> & _)];
    qc_lra.
Qed.

Lemma reach_stays_short module_grid (self : MacCormackStepper Qc)
    t_init t_final u_init (σ0 : mstate Qc) fr σ dt0 :
  cfl_dt self = Ok dt0 → dt0 ≤ 0 → t_init < t_final →
  reach module_grid self t_init t_final u_init σ0 fr σ →
  t fr < t_final.
Proof.
  intros Hdt Hneg Hlt Hr.
  induction Hr as [fr σ Hinit|fr σ fr' σ' Hr IH _ Hbody].
  - apply run_init_unfold in Hinit as (g & C & Hg & HC & -> & _). done.
  - destruct (reach_pass_time _ _ _ _ _ _ _ _ _ _ Hr Hbody)
      as (dt0' & Hdt' & -> & _).
    assert (dt0' = dt0) as -> by congruence.
    destruct (clamp_dt_Qc t_final (t fr) dt0) as [(Hc & _ & _)|(_ & -> & _)];
      qc_lra.
Qed.

(** X11. When the CFL step is zero or negative (a safety factor or a grid
    spacing that is not positive) and [t_init < t_final], the [while] loop
    never ends: no run returns, and over a well-formed model, grid and
    initial state every run exhausts its fuel without raising anything. *)
Theorem nonpositive_step_runs_forever (self : MacCormackStepper Qc)
    t_init t_final u_init (σ0 : mstate Qc) dt0 :
  cfl_dt self = Ok dt0 → dt0 ≤ 0 → t_init < t_final →
  (∀ module_grid fuel fr σ,
     run module_grid self fuel t_init t_final u_init σ0 ≠ Returns fr σ) ∧
  (model_ok (model self) → grid_ok (grid self) →
   shape (numVars (model self)) (nx (grid self) + 1) u_init →
   ∀ fuel,
     run (Some (grid self)) self fuel t_init t_final u_init σ0 = OutOfFuel).
Proof.
  intros Hdt Hneg Hlt. split.
  - intros module_grid fuel fr σ [Hr Hend]%run_reach.
    apply fltb_Qc_false in Hend.
    pose proof (reach_stays_short _ _ _ _ _ _ _ _ _ Hdt Hneg Hlt Hr) as Hs.
    by apply Qclt_not_le in Hs.
  - intros Hm Hg Hu fuel.
    destruct (wp_total _ _ _
                (run_init_spec true (Some (grid self)) self t_init u_init σ0
                   (λ _, ex_intro _ (grid self) (ex_intro _ u_init (conj eq_refl
                      (np_copyto_same _ _ _ _ (shape_np_zeros _ _) Hu
                         ltac:(lia)))))))
      as (fr0 & σ1 & Hinit & _).
    destruct (run_init_inv _ _ _ _ _ _ _ Hinit) as (g & [= <-] & Hinv).
    unfold run, bind. rewrite Hinit.
    apply (while_loop_never_ends self (numVars (model self))
             (nx (grid self) + 1)%nat t_init t_final dt0); try done.
    + split; [done|]. split; [done|]. split; [lia|done].
    + apply run_init_unfold in Hinit as (g & C & Hg' & HC & -> & _). done.
Qed.

(** *** Vectors over the rationals *)

Lemma foldl_Qcplus (acc : Qc) (l : list Qc) :
  foldl fadd acc l = acc + foldl fadd 0 l.
Proof.
  revert acc. induction l as [|x l IH]; intros acc; cbn [foldl].
  - ring.
  - rewrite IH, (IH (fadd 0 x)). unfold fadd, Qc_scalar. ring.
Qed.

Lemma dot_cons (x : Qc) r y v : dot (x :: r) (y :: v) = x * y + dot r v.
Proof.
  unfold dot. simpl. rewrite foldl_Qcplus. unfold fadd, fmul, f0, Qc_scalar. ring.
Qed.

Lemma dot_nil_r (r : list Qc) : dot r [] = 0.
Proof. by destruct r. Qed.

Lemma dot_vsub (r a b : list Qc) :
  length a = length b → dot r (vsub a b) = dot r a - dot r b.
Proof.
  revert a b. induction r as [|x r IH]; intros [|y a] [|z b] Hl;
    simpl in Hl; try lia; try (unfold dot; simpl; ring).
  unfold vsub. cbn [zip_with]. rewrite !dot_cons. fold (vsub a b).
  rewrite IH by lia. unfold fsub, Qc_scalar. ring.
Qed.

Lemma dot_vadd (r a b : list Qc) :
  length a = length b → dot r (vadd a b) = dot r a + dot r b.
Proof.
  revert a b. induction r as [|x r IH]; intros [|y a] [|z b] Hl;
    simpl in Hl; try lia; try (unfold dot; simpl; ring).
  unfold vadd. cbn [zip_with]. rewrite !dot_cons. fold (vadd a b).
  rewrite IH by lia. unfold fadd, Qc_scalar. ring.
Qed.

Lemma dot_scale (r : list Qc) c v : dot r (scale c v) = c * dot r v.
Proof.
  revert v. induction r as [|x r IH]; intros [|y v];
    try (unfold dot; simpl; ring).
  unfold scale. cbn [map]. rewrite !dot_cons. fold (scale c v).
  rewrite IH. unfold fmul, Qc_scalar. ring.
Qed.

Lemma dot_divide (r : list Qc) v c : dot r (divide v c) = dot r v / c.
Proof.
  revert v. induction r as [|x r IH]; intros [|y v];
    try (unfold dot; simpl; unfold Qcdiv; ring).
  unfold divide. cbn [map]. rewrite !dot_cons. fold (divide v c).
  rewrite IH. unfold fdiv, Qc_scalar, Qcdiv. ring.
Qed.

Lemma length_matvec (J : list (list Qc)) v : length (matvec J v) = length J.
Proof. apply length_map. Qed.

Lemma length_vsub (a b : list Qc) :
  length a = length b → length (vsub a b) = length a.
Proof. intros. unfold vsub. rewrite length_zip_with. lia. Qed.

Lemma length_vadd (a b : list Qc) :
  length a = length b → length (vadd a b) = length a.
Proof. intros. unfold vadd. rewrite length_zip_with. lia. Qed.

Lemma zip_with_map_same {A B C D} (f : B → C → D) (g : A → B) (h : A → C)
    (l : list A) :
  zip_with f (map g l) (map h l) = map (λ x, f (g x) (h x)) l.
Proof. induction l as [|x l IH]; [done|]. cbn [map zip_with]. by rewrite IH. Qed.

Lemma matvec_vsub (J : list (list Qc)) a b :
  length a = length b → matvec J (vsub a b) = vsub (matvec J a) (matvec J b).
Proof.
  intros Hl. unfold matvec. unfold vsub at 2. rewrite zip_with_map_same.
  apply map_ext. intros r. by apply dot_vsub.
Qed.

Lemma matvec_vadd (J : list (list Qc)) a b :
  length a = length b → matvec J (vadd a b) = vadd (matvec J a) (matvec J b).
Proof.
  intros Hl. unfold matvec. unfold vadd at 2. rewrite zip_with_map_same.
  apply map_ext. intros r. by apply dot_vadd.
Qed.

Lemma matvec_scale (J : list (list Qc)) c v :
  matvec J (scale c v) = scale c (matvec J v).
Proof.
  unfold matvec. unfold scale at 2. rewrite map_map.
  apply map_ext. intros r. by apply dot_scale.
Qed.

Lemma matvec_divide (J : list (list Qc)) v c :
  matvec J (divide v c) = divide (matvec J v) c.
Proof.
  unfold matvec. unfold divide at 2. rewrite map_map.
  apply map_ext. intros r. by apply dot_divide.
Qed.

Lemma lookup_map_Some {A B} (f : A → B) (l : list A) k y :
  map f l !! k = Some y → ∃ x, l !! k = Some x ∧ y = f x.
Proof.
  revert k. induction l as [|x l IH]; intros [|k]; simpl; try done.
  - intros [= <-]. by exists x.
  - apply IH.
Qed.

Lemma lookup_vsub_Some (a b : list Qc) k x :
  vsub a b !! k = Some x → ∃ y z, a !! k = Some y ∧ b !! k = Some z ∧ x = y - z.
Proof.
  unfold vsub. intros (y & z & -> & ? & ?)%lookup_zip_with_Some. by exists y, z.
Qed.

Lemma lookup_vadd_Some (a b : list Qc) k x :
  vadd a b !! k = Some x → ∃ y z, a !! k = Some y ∧ b !! k = Some z ∧ x = y + z.
Proof.
  unfold vadd. intros (y & z & -> & ? & ?)%lookup_zip_with_Some. by exists y, z.
Qed.

Lemma lookup_scale_Some (c : Qc) v k x :
  scale c v !! k = Some x → ∃ y, v !! k = Some y ∧ x = c * y.
Proof. apply lookup_map_Some. Qed.

Lemma lookup_matvec_Some (J : list (list Qc)) v k x :
  matvec J v !! k = Some x → ∃ r, J !! k = Some r ∧ x = dot r v.
Proof. apply (lookup_map_Some (λ row, dot row v)). Qed.

Ltac inv_lookups :=
  repeat match goal with
         | H : vsub _ _ !! _ = Some _ |- _ =>
             apply lookup_vsub_Some in H as (? & ? & ? & H & ->)
         | H : vadd _ _ !! _ = Some _ |- _ =>
             apply lookup_vadd_Some in H as (? & ? & ? & H & ->)
         | H : scale _ _ !! _ = Some _ |- _ =>
             apply lookup_scale_Some in H as (? & H & ->)
         | H : matvec _ _ !! _ = Some _ |- _ =>
             apply lookup_matvec_Some in H as (? & H & ->)
         end.

Ltac vlen :=
  unfold vsub, vadd, scale, divide, matvec;
  repeat (progress rewrite ?length_zip_with, ?length_map); lia.

Ltac vnorm :=
  repeat first
    [ rewrite dot_divide | rewrite dot_scale
    | rewrite matvec_divide | rewrite matvec_scale
    | rewrite dot_vsub by vlen | rewrite dot_vadd by vlen
    | rewrite matvec_vsub by vlen | rewrite matvec_vadd by vlen ].

(** *** Lax-Wendroff steps and flat states *)

Lemma half_plus_half : (fhalf + fhalf : Qc) = 1.
Proof. qc_lra. Qed.

Lemma lax_wendroff_eq n (dt dx : Qc) J (um u up : list Qc) :
  dx ≠ 0 →
  length J = n → length um = n → length u = n → length up = n →
  corrector_formula dt dx J u (predictor_formula dt dx J u up)
    (predictor_formula dt dx J um u)
  = lax_wendroff (dt / dx) J um u up.
Proof.
  intros Hdx HJ Hum Hu Hup.
  assert (∀ a b : list Qc, length a = n → length b = n →
            length (predictor_formula dt dx J a b) = n) as Hlp.
  { intros a b Ha Hb. unfold predictor_formula.
    rewrite length_vsub; [done|].
    by rewrite length_scale, length_matvec, HJ. }
  apply (list_eq_same_length _ _ n).
  { unfold lax_wendroff. rewrite length_vadd.
    - rewrite length_vsub; [done|]. by rewrite length_scale, length_matvec, HJ.
    - rewrite length_vsub by (by rewrite length_scale, length_matvec, HJ).
      by rewrite length_scale, !length_matvec, HJ. }
  { unfold corrector_formula. rewrite length_vsub.
    - rewrite length_scale, length_vadd; [by apply Hlp|]. rewrite Hlp; done.
    - rewrite !length_scale, length_matvec, HJ, length_vadd; [by apply Hlp|].
      rewrite Hlp; done. }
  intros k x y Hk Hx Hy. unfold corrector_formula, lax_wendroff in *.
  inv_lookups.
  unfold predictor_formula in *. inv_lookups. simplify_eq.
  vnorm.
  match goal with |- _ = ?a - ?b + ?c =>
    transitivity ((fhalf + fhalf) * a - b + c); [|by rewrite half_plus_half; ring]
  end.
  unfold fmul, Qc_scalar. field. done.
Qed.

Lemma flat_stays_flat n (dt dx : Qc) J1 J2 (u : list Qc) :
  length J1 = n → length J2 = n → length u = n →
  corrector_formula dt dx J1 u (predictor_formula dt dx J1 u u)
    (predictor_formula dt dx J2 u u) = u.
Proof.
  intros HJ1 HJ2 Hu.
  apply (list_eq_same_length _ _ n); [done| |].
  { unfold corrector_formula, predictor_formula. vlen. }
  intros k x y Hk Hx Hy. unfold corrector_formula in *.
  inv_lookups.
  unfold predictor_formula in *. inv_lookups. simplify_eq.
  vnorm.
  match goal with |- _ = ?a =>
    transitivity ((fhalf + fhalf) * a); [|by rewrite half_plus_half; ring]
  end.
  unfold fmul, Qc_scalar, Qcdiv. ring.
Qed.

Lemma jacobian_ok_length (m : Model Qc) x :
  jacobian_ok m → length (jacobian m x) = numVars m.
Proof. intros Hm. by destruct (Hm x). Qed.

Lemma pass_lax_wendroff (self : MacCormackStepper Qc) c t_final fr
    (σ : mstate Qc) fr' σ' dt U P C J :
  jacobian_ok (model self) → (∀ x, jacobian (model self) x = J) →
  dx (grid self) ≠ 0 → shape (numVars (model self)) c U →
  pass self (numVars (model self)) c t_final fr σ fr' σ' dt U P C →
  ∀ i, (2 ≤ i < nx (grid self))%nat →
    ∃ um u up,
      U !! (i - 1)%nat = Some um ∧ U !! i = Some u ∧ U !! (i + 1)%nat = Some up ∧
      C !! i = Some (lax_wendroff (dt / dx (grid self)) J um u up).
Proof.
  intros Hm HJ Hdx HsU Hpass i Hi.
  destruct (pass_stencil _ _ _ _ _ _ _ _ _ _ _ _ Hm eq_refl HsU Hpass)
    as (x0 & vL & _ & _ & Hst).
  destruct (Hst i) as (x & u & up & pm & Hx & Hu & Hup & HC & _ & Hpm); [lia|].
  destruct Hpm as (xm & um & Hxm & Hum & ->); [lia|].
  exists um, u, up. do 3 (split; [done|]).
  rewrite HC, !HJ. f_equal.
  destruct (shape_lookup _ _ _ _ _ HsU Hu) as [Hlu _].
  destruct (shape_lookup _ _ _ _ _ HsU Hup) as [Hlup _].
  destruct (shape_lookup _ _ _ _ _ HsU Hum) as [Hlum _].
  apply (lax_wendroff_eq (numVars (model self))); try done.
  rewrite <-(HJ x). by apply jacobian_ok_length.
Qed.

Lemma pass_flat (self : MacCormackStepper Qc) c t_final fr
    (σ : mstate Qc) fr' σ' dt U P C :
  jacobian_ok (model self) → shape (numVars (model self)) c U →
  pass self (numVars (model self)) c t_final fr σ fr' σ' dt U P C →
  ∀ i u, (2 ≤ i < nx (grid self))%nat →
    U !! (i - 1)%nat = Some u → U !! i = Some u → U !! (i + 1)%nat = Some u →
    C !! i = Some u.
Proof.
  intros Hm HsU Hpass i u Hi Hum Hu Hup.
  destruct (pass_stencil _ _ _ _ _ _ _ _ _ _ _ _ Hm eq_refl HsU Hpass)
    as (x0 & vL & _ & _ & Hst).
  destruct (Hst i) as (x & u' & up & pm & Hx & Hu' & Hup' & HC & _ & Hpm); [lia|].
  destruct Hpm as (xm & um & Hxm & Hum' & ->); [lia|].
  simplify_eq. rewrite HC. f_equal.
  destruct (shape_lookup _ _ _ _ _ HsU Hu) as [Hlu _].
  apply (flat_stays_flat (numVars (model self)));
    first [by apply jacobian_ok_length | done].
Qed.

(** X12. With a Jacobian that is the same matrix [J] at every point, a pass
    is a Lax-Wendroff step at every interior column [i >= 2]: the new column
    is [u_i - nu/2 * J (u_(i+1) - u_(i-1)) + nu^2/2 * J J (u_(i+1) - 2 u_i + u_(i-1))],
    with [nu = dt / dx]. *)
Theorem constant_jacobian_is_lax_wendroff module_grid
    (self : MacCormackStepper Qc) t_init t_final u_init (σ0 : mstate Qc)
    fr σ fr' σ' J :
  jacobian_ok (model self) → (∀ x, jacobian (model self) x = J) →
  dx (grid self) ≠ 0 →
  reach module_grid self t_init t_final u_init σ0 fr σ →
  loop_body self t_final fr σ = Returns fr' σ' →
  ∃ dt U C,
    t fr' = t fr + dt ∧
    heap σ !! u_cur fr = Some U ∧ heap σ' !! u_cur fr = Some C ∧
    ∀ i, (2 ≤ i < nx (grid self))%nat →
      ∃ um u up,
        U !! (i - 1)%nat = Some um ∧ U !! i = Some u ∧
        U !! (i + 1)%nat = Some up ∧
        C !! i = Some (lax_wendroff (dt / dx (grid self)) J um u up).
Proof.
  intros Hm HJ Hdx Hr Hbody.
  destruct (reach_pass _ _ _ _ _ _ _ _ _ _ Hr Hbody)
    as (g & dt & U & P & C & Hg & Hinv & Hpass).
  destruct (pass_buffers _ _ _ _ _ _ _ _ _ _ _ _ Hpass) as (HU & _ & _ & HC).
  assert (shape (numVars (model self)) (nx g + 1) U) as HsU.
  { destruct (ri_bufs _ _ _ _ _ Hinv) as (_ & _ & _ & _ & _ & _ & (U' & HU0 & HsU)).
    congruence. }
  exists dt, U, C. split.
  { destruct Hpass as (dt0 & _ & _ & _ & _ & _ & _ & _ & _ & _ & _ & _ & _ & -> & _).
    done. }
  do 2 (split; [done|]).
  by apply (pass_lax_wendroff self (nx g + 1)%nat t_final fr σ fr' σ' dt U P C J).
Qed.

(** X13. A pass leaves alone what is flat: when the grid spacing is not
    zero, an interior column [i >= 2] whose two neighbours hold the same
    values [u] as it does still holds [u] after the pass, whatever the
    Jacobian and the time step are. *)
Theorem flat_state_preserved module_grid (self : MacCormackStepper Qc)
    t_init t_final u_init (σ0 : mstate Qc) fr σ fr' σ' U i u :
  jacobian_ok (model self) → dx (grid self) ≠ 0 →
  reach module_grid self t_init t_final u_init σ0 fr σ →
  loop_body self t_final fr σ = Returns fr' σ' →
  heap σ !! u_cur fr = Some U →
  (2 ≤ i < nx (grid self))%nat →
  U !! (i - 1)%nat = Some u → U !! i = Some u → U !! (i + 1)%nat = Some u →
  ∃ C, heap σ' !! u_cur fr = Some C ∧ C !! i = Some u.
Proof.
  intros Hm _ Hr Hbody HU0 Hi Hum Hu Hup.
  destruct (reach_pass _ _ _ _ _ _ _ _ _ _ Hr Hbody)
    as (g & dt & U' & P & C & Hg & Hinv & Hpass).
  destruct (pass_buffers _ _ _ _ _ _ _ _ _ _ _ _ Hpass) as (HU & _ & _ & HC).
  assert (U' = U) as -> by congruence.
  assert (shape (numVars (model self)) (nx g + 1) U) as HsU.
  { destruct (ri_bufs _ _ _ _ _ Hinv) as (_ & _ & _ & _ & _ & _ & (U' & HU' & HsU)).
    congruence. }
  exists C. split; [done|].
  by apply (pass_flat self (nx g + 1)%nat t_final fr σ fr' σ' dt U P C).
Qed.

(** *** The error loop of the script *)

Lemma collect_Ok {A} (l : list (result A)) (xs : list A) :
  collect l = Ok xs ↔ l = map Ok xs.
Proof.
  revert xs. induction l as [|r l IH]; intros xs; simpl.
  - split; [intros [= <-]; done|]. by destruct xs.
  - destruct r as [x|e]; simpl.
    + destruct (collect l) as [rest|e] eqn:Hc; simpl.
      * split.
        -- intros [= <-]. simpl. f_equal. by apply IH.
        -- destruct xs as [|y ys]; [done|]. simpl. intros [= -> Hl].
           apply IH in Hl. injection Hl as <-. done.
      * split; [done|]. destruct xs as [|y ys]; [done|]. simpl.
        intros [= -> Hl]. apply IH in Hl. done.
    + split; [done|]. by destruct xs.
Qed.

Lemma np_binop2_same (f : Qc → Qc → Qc) r c (a b : list (list Qc)) :
  shape r c a → shape r c b →
  np_binop2 f a b = Ok (zip_with (zip_with f) a b).
Proof.
  intros [Hla Hfa] [Hlb Hfb]. unfold np_binop2.
  rewrite decide_True by congruence. apply collect_Ok.
  clear Hla Hlb. revert b Hfb.
  induction Hfa as [|u a Hu _ IH]; intros [|v b] Hfb; try done.
  inversion Hfb; subst. cbn [zip_with map]. f_equal; [|by apply IH].
  apply np_binop_same. congruence.
Qed.

Lemma abs_sum_nonneg (col : list Qc) : 0 ≤ abs_sum col.
Proof.
  unfold abs_sum. induction col as [|x col IH]; [apply Qcle_refl|].
  cbn [map foldl]. rewrite foldl_Qcplus.
  pose proof (Qcabs_nonneg x) as Hx. change (fabs x) with (Qcabs x).
  change (f0 : Qc) with (0 : Qc) in *.
  generalize dependent (foldl fadd 0 (map fabs col)). intros s Hs.
  generalize dependent (Qcabs x). intros a Ha. qc_lra.
Qed.

Lemma err_norm_spec nx r c (Wex W : list (list Qc)) :
  shape r c Wex → shape r c W → (0 < c)%nat → (0 < nx)%nat →
  ∃ e, err_norm nx Wex W = Ok e ∧ 0 ≤ e ∧
       ∀ j colE colW, Wex !! j = Some colE → W !! j = Some colW →
         abs_sum (vsub colE colW)
         ≤ Q2Qc 2 * Q2Qc (inject_Z (Z.of_nat nx)) * e.
Proof.
  intros HsE HsW Hc Hnx. unfold err_norm.
  rewrite (np_binop2_same _ r c) by done. cbn [rbind].
  unfold np_linalg_norm_1.
  destruct (np_amax (map abs_sum (zip_with (zip_with fsub) Wex W)))
    as [n|e] eqn:Hn.
  2:{ exfalso. destruct HsE as [HlE _], HsW as [HlW _].
      destruct Wex, W; simpl in *; try lia. done. }
  cbn [rbind]. eexists. split; [done|].
  destruct (np_amax_Qc _ _ Hn) as [Hin Hmax].
  assert (0 < Q2Qc (inject_Z (Z.of_nat nx))) as Hpos.
  { qc_to_q. change 0%Q with (inject_Z 0). rewrite <-Zlt_Qlt. lia. }
  assert (0 ≤ n) as Hn0.
  { apply list_elem_of_fmap in Hin as (col & -> & _). apply abs_sum_nonneg. }
  assert (∀ x : Qc, Q2Qc 2 * Q2Qc (inject_Z (Z.of_nat nx))
                    * (x / Q2Qc (inject_Z (Z.of_nat nx)) / Q2Qc 2) = x) as Hcancel.
  { intros x. field. split.
    - intros E. rewrite E in Hpos. by apply Qclt_not_eq in Hpos.
    - intros E. apply (f_equal this) in E. vm_compute in E. discriminate. }
  split.
  - assert (0 < Q2Qc 2) as H2 by reflexivity.
    destruct (Qcle_lt_or_eq _ _ Hn0) as [Hlt|<-].
    + apply Qclt_le_weak. apply Qc_div_pos; [|done]. by apply Qc_div_pos.
    + unfold Qcdiv. rewrite !Qcmult_0_l. apply Qcle_refl.
  - intros j colE colW HE HW. rewrite Hcancel. apply Hmax.
    apply list_elem_of_fmap. exists (zip_with fsub colE colW). split; [done|].
    apply (list_elem_of_lookup_2 _ j).
    rewrite lookup_zip_with, HE, HW. done.
Qed.

Lemma max_err_scan_spec exact_solution (X : list Qc) nx r c entries acc :
  (0 < c)%nat → (0 < nx)%nat → (∀ t, shape r c (exact_solution X t)) →
  Forall (λ v : Qc * list (list Qc), shape r c v.2) entries →
  ∃ m, max_err_scan exact_solution X nx entries acc = Ok m ∧ acc ≤ m ∧
    (∀ v, v ∈ entries →
       ∃ e, err_norm nx (exact_solution X v.1) v.2 = Ok e ∧ 0 ≤ e ∧ e ≤ m) ∧
    (m = acc ∨
     ∃ v, v ∈ entries ∧ err_norm nx (exact_solution X v.1) v.2 = Ok m).
Proof.
  intros Hc Hnx Hex Hent. revert acc.
  induction Hent as [|v entries Hv _ IH]; intros acc; cbn [max_err_scan].
  - exists acc. split; [done|]. split; [apply Qcle_refl|]. split; [|by left].
    intros v Hv. inversion Hv.
  - destruct (err_norm_spec nx r c (exact_solution X v.1) v.2 (Hex _) Hv Hc Hnx)
      as (e & He & He0 & _).
    rewrite He. cbn [rbind].
    destruct (IH (py_max e acc)) as (m & Hm & Hle & Hall & Hatt).
    unfold py_max in *. destruct (fmax_Qc e acc) as (H1 & H2 & H3).
    exists m. split; [done|]. split; [by eapply Qcle_trans|]. split.
    + intros v' [->|Hv']%elem_of_cons; [|by apply Hall].
      exists e. split; [done|]. split; [done|]. by eapply Qcle_trans.
    + destruct Hatt as [->|(v' & Hv' & Hm')].
      * destruct H3 as [->| ->]; [|by left]. right. exists v. split; [by left|done].
      * right. exists v'. split; [by right|done].
Qed.

(** X14. The error loop of the script (lines 174-181) after a run that
    returned, with the stepper's grid as the module-level [grid], an exact
    solution of the shape of the state and a positive [nx]: the loop raises
    nothing; its result [max_err] is not negative; at every recorded time
    and every grid point the sum over the variables of the magnitudes of
    [Wex - W] is at most [2 * nx * max_err] (the norm of line 180 is the
    largest column sum, not the sum of all entries); and [max_err] is 0.0 or
    the [err_norm] of one of the recorded states. *)
Theorem script_max_err_bounds (self : MacCormackStepper Qc) fuel
    t_init t_final u_init (σ0 : mstate Qc) fr σ exact_solution n :
  run (Some (grid self)) self fuel t_init t_final u_init σ0 = Returns fr σ →
  (∀ t, shape (numVars (model self)) (nx (grid self) + 1)
          (exact_solution (X (grid self)) t)) →
  (0 < n)%nat →
  ∃ m,
    script_max_err exact_solution (X (grid self)) n σ = Ok m ∧ 0 ≤ m ∧
    (∀ k tk l W j colE colW,
       history σ !! k = Some (tk, l) → heap σ !! l = Some W →
       exact_solution (X (grid self)) tk !! j = Some colE →
       W !! j = Some colW →
       abs_sum (vsub colE colW) ≤ Q2Qc 2 * Q2Qc (inject_Z (Z.of_nat n)) * m) ∧
    (m = 0 ∨
     ∃ k tk l W, history σ !! k = Some (tk, l) ∧ heap σ !! l = Some W ∧
                 err_norm n (exact_solution (X (grid self)) tk) W = Ok m).
Proof.
  intros [Hr _]%run_reach Hex Hn.
  destruct (reach_inv _ _ _ _ _ _ _ _ Hr) as (g & [= <-] & Hinv).
  assert (∀ k tk l, history σ !! k = Some (tk, l) →
            ∃ S, heap σ !! l = Some S ∧
                 shape (numVars (model self)) (nx (grid self) + 1) S) as Hshape.
  { intros k tk l Hk. by destruct (ri_entries _ _ _ _ _ Hinv k tk l Hk). }
  assert (Forall (λ v : Qc * list (list Qc),
                    shape (numVars (model self)) (nx (grid self) + 1) v.2)
            (history_entries σ)) as Hent.
  { unfold history_entries. apply Forall_forall. intros v Hv.
    apply list_elem_of_In, list_elem_of_fmap in Hv as ([tk l] & -> & Hin).
    apply list_elem_of_lookup in Hin as [k Hk].
    destruct (Hshape k tk l Hk) as (S & HS & HsS). simpl.
    by rewrite (list_lookup_total_correct _ _ _ HS). }
  destruct (max_err_scan_spec exact_solution (X (grid self)) n
              (numVars (model self)) (nx (grid self) + 1)
              (history_entries σ) f0 ltac:(lia) Hn Hex Hent)
    as (m & Hm & Hle & Hall & Hatt).
  exists m. split; [done|]. split; [done|]. split.
  - intros k tk l W j colE colW Hk HW HE HWj.
    destruct (Hall (tk, W)) as (e & He & _ & Hem).
    { unfold history_entries. apply list_elem_of_fmap. exists (tk, l).
      simpl. rewrite (list_lookup_total_correct _ _ _ HW). split; [done|].
      by eapply list_elem_of_lookup_2. }
    simpl in He.
    destruct (Hshape k tk l Hk) as (S & HS & HsS).
    assert (S = W) as -> by congruence.
    destruct (err_norm_spec n (numVars (model self)) (nx (grid self) + 1) _ W
                (Hex tk) HsS ltac:(lia) Hn)
      as (e' & He' & _ & Hcol).
    assert (e' = e) as -> by congruence.
    eapply Qcle_trans; [by apply (Hcol j)|].
    assert (0 ≤ Q2Qc 2 * Q2Qc (inject_Z (Z.of_nat n))) as Hpos.
    { qc_to_q. assert (0 <= inject_Z (Z.of_nat n))%Q.
      { change 0%Q with (inject_Z 0). rewrite <-Zle_Qle. lia. }
      lra. }
    generalize dependent (Q2Qc 2 * Q2Qc (inject_Z (Z.of_nat n))).
    intros q Hq. clear -Hem Hq. qc_to_q. nra.
  - destruct Hatt as [->|((tk & W) & Hin & He)]; [by left|]. right.
    unfold history_entries in Hin.
    apply list_elem_of_fmap in Hin as ([tk' l] & [= -> ->] & Hin).
    apply list_elem_of_lookup in Hin as [k Hk].
    destruct (Hshape k tk' l Hk) as (S & HS & HsS).
    exists k, tk', l, S. split; [done|]. split; [done|].
    simpl in He. by rewrite (list_lookup_total_correct _ _ _ HS) in He.
Qed.

(** ** error_rate: the least-squares slope *)

Lemma map_nth_seq (l : list Qc) (d : Qc) :
  map (λ j, nth j l d) (seq 0 (length l)) = l.
Proof.
  induction l as [|x l IH]; [done|].
  cbn [length seq map nth]. f_equal.
  rewrite <-seq_shift, map_map. exact IH.
Qed.

Lemma transpose_of_two (r0 r1 : list Qc) :
  length r1 = length r0 →
  a2_transpose (a2_transpose (np_array_of_two r0 r1)) = np_array_of_two r0 r1.
Proof.
  intros Hl. unfold a2_transpose, np_array_of_two, a2_column.
  cbn [a2_rows a2_ncols]. rewrite length_map, length_seq. f_equal.
  cbn [length seq map]. rewrite !map_map. cbn [nth].
  rewrite map_nth_seq. rewrite <-Hl at 1. by rewrite map_nth_seq.
Qed.

Lemma columns_of_transposed (r0 r1 : list Qc) :
  length r1 = length r0 →
  a2_column (a2_transpose (np_array_of_two r0 r1)) 0 = r0 ∧
  a2_column (a2_transpose (np_array_of_two r0 r1)) 1 = r1.
Proof.
  intros Hl. unfold a2_transpose, np_array_of_two, a2_column.
  cbn [a2_rows a2_ncols]. rewrite !map_map. cbn [map nth]. split.
  - apply map_nth_seq.
  - rewrite <-Hl. apply map_nth_seq.
Qed.

Lemma dot_products (r v : list Qc) : dot r v = qsum (products r v).
Proof.
  revert v. induction r as [|x r IH]; intros [|y v]; try done.
  rewrite dot_cons, IH. done.
Qed.

Lemma products_ones (l : list Qc) :
  products (replicate (length l) (Q2Qc 1)) l = l ∧
  products l (replicate (length l) (Q2Qc 1)) = l.
Proof.
  unfold products. induction l as [|x l [IH1 IH2]]; [done|].
  cbn [length replicate zip_with]. rewrite IH1, IH2. split; f_equal; ring.
Qed.

Lemma qsum_ones n :
  qsum (replicate n (Q2Qc 1)) = Q2Qc (inject_Z (Z.of_nat n)).
Proof.
  induction n as [|n IH]; [done|].
  cbn [replicate qsum foldr]. fold (qsum (replicate n (Q2Qc 1))). rewrite IH.
  rewrite Nat2Z.inj_succ. unfold Z.succ. qc_to_q.
  rewrite inject_Z_plus. change (inject_Z 1) with 1%Q. ring.
Qed.

Lemma Qcabs_le_0 (x : Qc) : Qcabs x ≤ 0 → x = 0.
Proof.
  intros Hx. apply Qcabs_Qcle_condition in Hx as [H1 H2].
  apply Qcle_antisym; [done|]. by rewrite Qcopp_involutive in H1 || done.
Qed.

Lemma feqb_Qc_false (a b : Qc) : feqb a b = false ↔ a ≠ b.
Proof.
  split.
  - intros Hf E%feqb_Qc. congruence.
  - intros Hne. destruct (feqb a b) eqn:E; [|done]. by apply feqb_Qc in E.
Qed.

(** The elimination returns the solution Cramer's rule gives, and reports
    a singular matrix exactly when the determinant is zero. *)
Lemma np_linalg_solve_2x2 n (a11 a12 a21 a22 b1 b2 : Qc) :
  np_linalg_solve (Array2 n [[a11; a12]; [a21; a22]]) [b1; b2] =
  if decide (a11 * a22 - a12 * a21 = 0) then Throws LinAlgError
  else Value [(b1 * a22 - a12 * b2) / (a11 * a22 - a12 * a21);
              (a11 * b2 - a21 * b1) / (a11 * a22 - a12 * a21)].
Proof.
  assert (Qcabs 0 = 0) as Habs0 by apply Qcabs_pos, Qcle_refl.
  unfold np_linalg_solve. cbn [a2_rows].
  destruct (fltb (fabs a11) (fabs a21)) eqn:Hpiv.
  - apply fltb_Qc in Hpiv. change (Qcabs a11 < Qcabs a21) in Hpiv.
    assert (a21 ≠ 0) as Hne.
    { intros ->. pose proof (Qcabs_nonneg a11) as Hge.
      rewrite Habs0 in Hpiv. by apply Qclt_not_le in Hpiv. }
    destruct (feqb a21 f0) eqn:Hz; [by apply feqb_Qc in Hz|].
    destruct (feqb (fsub a12 (fmul (fdiv a11 a21) a22)) f0) eqn:Hu.
    + apply feqb_Qc in Hu. change (a12 - a11 / a21 * a22 = 0) in Hu.
      rewrite decide_True; [done|].
      transitivity (- (a12 - a11 / a21 * a22) * a21); [by field|].
      rewrite Hu. ring.
    + apply feqb_Qc_false in Hu. change (a12 - a11 / a21 * a22 ≠ 0) in Hu.
      assert (a11 * a22 - a12 * a21 ≠ 0) as Hd.
      { intros Hd. apply Hu.
        transitivity (- (a11 * a22 - a12 * a21) / a21); [by field|].
        rewrite Hd. by field. }
      rewrite decide_False by done.
      unfold fsub, fmul, fdiv, Qc_scalar.
      do 2 f_equal; [|f_equal]; field; repeat split; try done;
        intros E; apply Hd;
        match type of E with
        | ?l = _ => transitivity (- l); [ring|rewrite E; ring]
        end.
  - apply fltb_Qc_false in Hpiv. change (Qcabs a21 ≤ Qcabs a11) in Hpiv.
    destruct (feqb a11 f0) eqn:Hz.
    + apply feqb_Qc in Hz. change (a11 = 0) in Hz. subst a11.
      rewrite Habs0 in Hpiv. apply Qcabs_le_0 in Hpiv. subst a21.
      rewrite decide_True; [done|]. ring.
    + apply feqb_Qc_false in Hz. change (a11 ≠ 0) in Hz.
      destruct (feqb (fsub a22 (fmul (fdiv a21 a11) a12)) f0) eqn:Hu.
      * apply feqb_Qc in Hu. change (a22 - a21 / a11 * a12 = 0) in Hu.
        rewrite decide_True; [done|].
        transitivity ((a22 - a21 / a11 * a12) * a11); [by field|].
        rewrite Hu. ring.
      * apply feqb_Qc_false in Hu. change (a22 - a21 / a11 * a12 ≠ 0) in Hu.
        assert (a11 * a22 - a12 * a21 ≠ 0) as Hd.
        { intros Hd. apply Hu.
          transitivity ((a11 * a22 - a12 * a21) / a11); [by field|].
          rewrite Hd. by field. }
        rewrite decide_False by done.
        unfold fsub, fmul, fdiv, Qc_scalar.
        do 2 f_equal; [|f_equal]; field; repeat split; try done;
          intros E; apply Hd;
          match type of E with
          | ?l = _ => transitivity (- l); [ring|rewrite E; ring]
          end.
Qed.

Lemma qcount_map (f : Qc → Qc) l : qcount (map f l) = qcount l.
Proof. unfold qcount. by rewrite length_map. Qed.

(** The system [error_rate] solves: the normal equations of the fit. *)
Lemma error_rate_system np_log (Nx error : list Qc) :
  let xs := map np_log Nx in
  let ys := map np_log error in
  error_rate np_log Nx error =
  if decide (length Nx = length error) then
    np_bind (np_linalg_solve
               (Array2 2 [[qcount xs; qsum xs];
                          [qsum xs; qsum (products xs xs)]])
               [qsum ys; qsum (products xs ys)])
      (λ c, match c !! 1%nat with
            | Some c1 => Value c1
            | None => Throws NpIndexError
            end)
  else Throws NpValueError.
Proof.
  intros xs ys. unfold error_rate. fold xs ys.
  set (ones := replicate (length xs) (Q2Qc 1)).
  assert (length xs = length ones) as Hl by (unfold ones; by rewrite length_replicate).
  rewrite (transpose_of_two ones xs Hl).
  destruct (columns_of_transposed ones xs Hl) as [Hc0 Hc1].
  unfold np_matmul_2d.
  assert (a2_ncols (np_array_of_two ones xs)
          = length (a2_rows (a2_transpose (np_array_of_two ones xs)))) as Hn.
  { unfold a2_transpose, np_array_of_two. cbn [a2_rows a2_ncols].
    by rewrite length_map, length_seq. }
  rewrite decide_True by exact Hn. cbn [np_bind].
  unfold np_matmul_2d_1d.
  assert (a2_ncols (np_array_of_two ones xs) = length Nx) as ->.
  { unfold np_array_of_two. cbn [a2_ncols]. unfold ones, xs.
    by rewrite length_replicate, length_map. }
  assert (length ys = length error) as -> by (unfold ys; by rewrite length_map).
  case_decide as Hlen; [|done]. cbn [np_bind].
  assert (a2_ncols (a2_transpose (np_array_of_two ones xs)) = 2%nat) as ->
    by done.
  cbn [seq map np_array_of_two a2_rows]. rewrite Hc0, Hc1.
  rewrite !dot_products.
  destruct (products_ones xs) as [E1 E2]. fold ones in E1, E2.
  rewrite E1, E2.
  assert (products ones ones = ones) as ->.
  { unfold ones. rewrite <-(length_replicate (length xs) (Q2Qc 1)) at 1.
    apply products_ones. }
  assert (products ones ys = ys) as ->.
  { unfold ones. replace (length xs) with (length ys).
    - apply products_ones.
    - unfold xs, ys. rewrite !length_map. done. }
  assert (qsum ones = qcount xs) as ->.
  { unfold ones, qcount. apply qsum_ones. }
  done.
Qed.

(** [error_rate] returns the slope of the least-squares line through the
    points [(log Nx, log error)], and raises LinAlgError when the logs of
    the node counts have no spread. *)
Lemma error_rate_closed_form np_log (Nx error : list Qc) :
  length Nx = length error →
  error_rate np_log Nx error =
  if decide (spread (map np_log Nx) = 0) then Throws LinAlgError
  else Value (ols_slope (map np_log Nx) (map np_log error)).
Proof.
  intros Hlen. rewrite error_rate_system, decide_True by done.
  rewrite np_linalg_solve_2x2. unfold spread, ols_slope, spread.
  set (xs := map np_log Nx). set (ys := map np_log error).
  by case_decide.
Qed.

(** *** Sums *)

Lemma qsum_cons x l : qsum (x :: l) = x + qsum l.
Proof. done. Qed.

Lemma qcount_cons x l : qcount (x :: l) = qcount l + 1.
Proof.
  unfold qcount. cbn [length]. rewrite Nat2Z.inj_succ. unfold Z.succ.
  qc_to_q. rewrite inject_Z_plus. change (inject_Z 1) with 1%Q. ring.
Qed.

Lemma qcount_nil : qcount [] = 0.
Proof. done. Qed.

Lemma qcount_nonneg l : 0 ≤ qcount l.
Proof.
  unfold qcount. qc_to_q. change 0%Q with (inject_Z 0). rewrite <-Zle_Qle. lia.
Qed.

Lemma qcount_pos x l : 0 < qcount (x :: l).
Proof. rewrite qcount_cons. pose proof (qcount_nonneg l). qc_lra. Qed.

Lemma products_cons x xs y ys :
  products (x :: xs) (y :: ys) = x * y :: products xs ys.
Proof. done. Qed.

Lemma Qc_square_nonneg (x : Qc) : 0 ≤ x * x.
Proof. qc_to_q. nra. Qed.

(** The sum of the squares of [a + b x] over the points. *)
Lemma qsum_squares_expand (a b : Qc) xs :
  qsum (map (λ x, (a + b * x) * (a + b * x)) xs)
  = qcount xs * a * a + (1 + 1) * a * b * qsum xs
    + b * b * qsum (products xs xs).
Proof.
  induction xs as [|x xs IH].
  - cbn [map qsum foldr products zip_with]. rewrite qcount_nil. ring.
  - cbn [map]. rewrite products_cons, !qsum_cons, qcount_cons, IH. ring.
Qed.

Lemma qsum_squares_nonneg (f : Qc → Qc) xs :
  0 ≤ qsum (map (λ x, f x * f x) xs).
Proof.
  induction xs as [|x xs IH]; [apply Qcle_refl|].
  cbn [map]. rewrite qsum_cons. pose proof (Qc_square_nonneg (f x)). qc_lra.
Qed.

Lemma qsum_squares_zero (f : Qc → Qc) xs :
  qsum (map (λ x, f x * f x) xs) = 0 → ∀ x, x ∈ xs → f x = 0.
Proof.
  induction xs as [|x xs IH]; intros Hs y Hy; [inversion Hy|].
  cbn [map] in Hs. rewrite qsum_cons in Hs.
  pose proof (Qc_square_nonneg (f x)) as H1.
  pose proof (qsum_squares_nonneg f xs) as H2.
  assert (f x * f x = 0) as Hx by qc_lra.
  assert (qsum (map (λ x, f x * f x) xs) = 0) as Hr by qc_lra.
  apply elem_of_cons in Hy as [->|Hy]; [|by apply IH].
  by destruct (Qcmult_integral _ _ Hx).
Qed.

(** [n * spread] is the sum of the squares of [n x - sum x]. *)
Lemma spread_squares xs :
  qcount xs * spread xs
  = qsum (map (λ x, (- qsum xs + qcount xs * x) * (- qsum xs + qcount xs * x)) xs).
Proof. rewrite qsum_squares_expand. unfold spread. ring. Qed.

Lemma spread_zero_iff xs :
  spread xs = 0 ↔ ∀ x x', x ∈ xs → x' ∈ xs → x = x'.
Proof.
  destruct xs as [|x0 xs].
  { split; [|done]. intros _ x x' Hx. inversion Hx. }
  pose proof (qcount_pos x0 xs) as Hn. set (l := x0 :: xs) in *.
  split.
  - intros Hz.
    assert (∀ x, x ∈ l → qcount l * x = qsum l) as Hall.
    { intros x Hx.
      pose proof (qsum_squares_zero (λ x, - qsum l + qcount l * x) l) as Hq.
      cbv beta in Hq. rewrite <-spread_squares, Hz in Hq.
      specialize (Hq ltac:(ring) x Hx). cbv beta in Hq.
      transitivity (qsum l + (- qsum l + qcount l * x)); [ring|].
      rewrite Hq. ring. }
    intros x x' Hx Hx'.
    assert (qcount l * x = qcount l * x') as E by (by rewrite !Hall).
    assert (qcount l ≠ 0) as Hne.
    { intros E0. rewrite E0 in Hn. by apply Qclt_not_eq in Hn. }
    transitivity (qcount l * x / qcount l); [by field|].
    rewrite E. by field.
  - intros Heq.
    assert (∀ l' : list Qc, (∀ x, x ∈ l' → x = x0) →
              qsum l' = qcount l' * x0 ∧
              qsum (products l' l') = qcount l' * x0 * x0) as Hconst.
    { induction l' as [|y l' IH]; intros Hl'.
      - rewrite qcount_nil. cbn. split; ring.
      - destruct IH as [I1 I2]; [intros; apply Hl'; by right|].
        rewrite products_cons, !qsum_cons, qcount_cons, I1, I2.
        rewrite (Hl' y) by by left. split; ring. }
    destruct (Hconst l) as [E1 E2].
    { intros x Hx. apply Heq; [done|by left]. }
    unfold spread. rewrite E1, E2. ring.
Qed.

(** *** Points on a line *)

Lemma sums_on_line np_log (a p : Qc) (Nx error : list Qc) :
  Forall2 (λ N e, np_log e = a + p * np_log N) Nx error →
  qsum (map np_log error)
  = qcount (map np_log Nx) * a + p * qsum (map np_log Nx) ∧
  qsum (products (map np_log Nx) (map np_log error))
  = a * qsum (map np_log Nx)
    + p * qsum (products (map np_log Nx) (map np_log Nx)).
Proof.
  induction 1 as [|N e Nx error He _ [IH1 IH2]].
  - cbn. rewrite qcount_nil. split; ring.
  - cbn [map]. rewrite !products_cons, !qsum_cons, qcount_cons, IH1, IH2, He.
    split; ring.
Qed.

(** *** The statements about error_rate *)

Lemma error_rate_cases np_log (Nx error : list Qc) :
  (length Nx ≠ length error ∧
   error_rate np_log Nx error = Throws NpValueError) ∨
  (length Nx = length error ∧ spread (map np_log Nx) = 0 ∧
   error_rate np_log Nx error = Throws LinAlgError) ∨
  (length Nx = length error ∧ spread (map np_log Nx) ≠ 0 ∧
   error_rate np_log Nx error
   = Value (ols_slope (map np_log Nx) (map np_log error))).
Proof.
  destruct (decide (length Nx = length error)) as [Hl|Hl].
  - right. rewrite (error_rate_closed_form _ _ _ Hl).
    case_decide; [left|right]; done.
  - left. split; [done|]. rewrite error_rate_system. by rewrite decide_False.
Qed.

(** X16. [error_rate] raises in two cases only: ValueError, from [matmul],
    exactly when there are not as many errors as node counts; LinAlgError,
    from [np.linalg.solve], exactly when there are as many and all node
    counts have the same logarithm (in particular with fewer than two
    nodes). *)
Theorem error_rate_raises np_log (Nx error : list Qc) e :
  error_rate np_log Nx error = Throws e ↔
  (e = NpValueError ∧ length Nx ≠ length error) ∨
  (e = LinAlgError ∧ length Nx = length error ∧
   ∀ N N', N ∈ Nx → N' ∈ Nx → np_log N = np_log N').
Proof.
  assert (spread (map np_log Nx) = 0 ↔
          ∀ N N', N ∈ Nx → N' ∈ Nx → np_log N = np_log N') as Hsp.
  { rewrite spread_zero_iff. split.
    - intros Hx N N' HN HN'. apply Hx; apply list_elem_of_fmap_2; done.
    - intros HN x x' Hx Hx'.
      apply list_elem_of_fmap in Hx as (N & -> & HNin).
      apply list_elem_of_fmap in Hx' as (N' & -> & HNin').
      by apply HN. }
  destruct (error_rate_cases np_log Nx error)
    as [(Hl & ->)|[(Hl & Hs & ->)|(Hl & Hs & ->)]].
  - split; [intros [= <-]; by left|]. intros [[-> _]|(_ & ? & _)]; done.
  - split; [intros [= <-]; right; by rewrite <-Hsp|].
    intros [[_ ?]|(-> & _)]; done.
  - split; [done|]. intros [[_ ?]|(_ & _ & Hall)]; [done|].
    by apply Hsp in Hall.
Qed.

(** X15. For as many errors as node counts, not all of the same logarithm,
    [error_rate] returns the slope of the least-squares line through the
    points [(log Nx, log error)]:
    [(n * sum x y - sum x * sum y) / (n * sum x^2 - (sum x)^2)]. *)
Theorem error_rate_least_squares_slope np_log (Nx error : list Qc) N N' :
  length Nx = length error →
  N ∈ Nx → N' ∈ Nx → np_log N ≠ np_log N' →
  error_rate np_log Nx error
  = Value (ols_slope (map np_log Nx) (map np_log error)).
Proof.
  intros Hl HN HN' Hne.
  destruct (error_rate_cases np_log Nx error)
    as [(Hl' & _)|[(_ & Hs & _)|(_ & _ & ->)]]; [done| |done].
  exfalso. apply Hne. rewrite spread_zero_iff in Hs.
  apply Hs; apply list_elem_of_fmap_2; done.
Qed.

(** X17. When the points lie on a line, [log error = a + p * log Nx] for
    every pair, and not all node counts have the same logarithm,
    [error_rate] returns [p]. *)
Theorem error_rate_recovers_slope np_log (a p : Qc) (Nx error : list Qc) N N' :
  Forall2 (λ N e, np_log e = a + p * np_log N) Nx error →
  N ∈ Nx → N' ∈ Nx → np_log N ≠ np_log N' →
  error_rate np_log Nx error = Value p.
Proof.
  intros Hline HN HN' Hne.
  assert (length Nx = length error) as Hl by (by eapply Forall2_length).
  destruct (error_rate_cases np_log Nx error)
    as [(Hl' & _)|[(_ & Hs & _)|(_ & Hs & ->)]]; [done| |].
  { exfalso. apply Hne. rewrite spread_zero_iff in Hs.
    apply Hs; apply list_elem_of_fmap_2; done. }
  destruct (sums_on_line np_log a p Nx error Hline) as [E1 E2].
  f_equal. unfold ols_slope. rewrite E1, E2.
  unfold spread in *. field. exact Hs.
Qed.

(** *** Least squares *)

Lemma sq_residuals_expand (xs ys : list Qc) (a b : Qc) :
  length xs = length ys →
  sq_residuals xs ys a b
  = qsum (products ys ys) - (1 + 1) * (a * qsum ys + b * qsum (products xs ys))
    + (qcount xs * a * a + (1 + 1) * a * b * qsum xs
       + b * b * qsum (products xs xs)).
Proof.
  unfold sq_residuals. revert ys.
  induction xs as [|x xs IH]; intros [|y ys] Hl; simpl in Hl; try lia.
  - cbn. rewrite qcount_nil. ring.
  - cbn [zip_with]. rewrite !products_cons, !qsum_cons, qcount_cons, IH by lia.
    ring.
Qed.

Lemma sq_residuals_least (xs ys : list Qc) (c0 c1 a b : Qc) :
  length xs = length ys →
  qcount xs * c0 + qsum xs * c1 = qsum ys →
  qsum xs * c0 + qsum (products xs xs) * c1 = qsum (products xs ys) →
  sq_residuals xs ys c0 c1 ≤ sq_residuals xs ys a b.
Proof.
  intros Hl H1 H2.
  assert (sq_residuals xs ys a b
          = sq_residuals xs ys c0 c1
            + qsum (map (λ x, ((a - c0) + (b - c1) * x)
                              * ((a - c0) + (b - c1) * x)) xs)) as ->.
  { rewrite qsum_squares_expand, !sq_residuals_expand by done.
    rewrite <-H1, <-H2. ring. }
  pose proof (qsum_squares_nonneg (λ x, (a - c0) + (b - c1) * x) xs) as Hge.
  cbv beta in Hge. qc_lra.
Qed.

Lemma spread_nonzero_count xs : spread xs ≠ 0 → qcount xs ≠ 0.
Proof.
  intros Hs E. apply Hs. destruct xs as [|x xs]; [by cbn|].
  pose proof (qcount_pos x xs) as Hp. rewrite E in Hp.
  by apply Qclt_not_eq in Hp.
Qed.

(** X18. The value [error_rate] returns is the slope of a line that no other
    line beats: with a suitable intercept [c0], the sum of the squares of
    [log error - (c0 + p * log Nx)] is at most that of every line
    [a + b * log Nx]. *)
Theorem error_rate_minimises_residuals np_log (Nx error : list Qc) p :
  error_rate np_log Nx error = Value p →
  ∃ c0, ∀ a b,
    sq_residuals (map np_log Nx) (map np_log error) c0 p
    ≤ sq_residuals (map np_log Nx) (map np_log error) a b.
Proof.
  intros Hp.
  destruct (error_rate_cases np_log Nx error)
    as [(_ & E)|[(_ & _ & E)|(Hl & Hs & E)]]; [congruence..|].
  rewrite E in Hp. injection Hp as <-.
  set (xs := map np_log Nx) in *. set (ys := map np_log error) in *.
  pose proof (spread_nonzero_count _ Hs) as Hn. unfold spread in Hs.
  exists ((qsum ys - qsum xs * ols_slope xs ys) / qcount xs).
  intros a b. apply sq_residuals_least.
  - unfold xs, ys. by rewrite !length_map.
  - by field.
  - unfold ols_slope, spread. by field.
Qed.

(** *** Changes of unit *)

Lemma sums_shifted np_log (kx ky : Qc) (Nx Nx' error error' : list Qc) :
  Forall2 (λ N N', np_log N' = np_log N + kx) Nx Nx' →
  Forall2 (λ e e', np_log e' = np_log e + ky) error error' →
  length Nx = length error →
  let xs := map np_log Nx in let ys := map np_log error in
  let xs' := map np_log Nx' in let ys' := map np_log error' in
  qcount xs' = qcount xs ∧
  qsum xs' = qsum xs + qcount xs * kx ∧
  qsum ys' = qsum ys + qcount xs * ky ∧
  qsum (products xs' xs')
  = qsum (products xs xs) + (1 + 1) * kx * qsum xs + qcount xs * kx * kx ∧
  qsum (products xs' ys')
  = qsum (products xs ys) + ky * qsum xs + kx * qsum ys + qcount xs * kx * ky.
Proof.
  intros HN. revert error error'.
  induction HN as [|N N' Nx Nx' HNN' _ IH]; intros error error' He Hl.
  - destruct error; [|done]. inversion He; subst. cbn.
    rewrite qcount_nil. repeat split; ring.
  - destruct He as [|e e' error error' Hee' He]; [done|].
    destruct (IH error error' He) as (I1 & I2 & I3 & I4 & I5);
      [simpl in Hl; lia|].
    cbn [map]. cbv zeta in *.
    rewrite !products_cons, !qsum_cons, !qcount_cons, I1, I2, I3, I4, I5,
      HNN', Hee'.
    repeat split; ring.
Qed.

(** X19. [error_rate] does not depend on the units: adding one constant to
    the logarithms of all node counts and another to the logarithms of all
    errors changes neither its value nor whether it raises. *)
Theorem error_rate_shift_invariant np_log (kx ky : Qc)
    (Nx Nx' error error' : list Qc) :
  Forall2 (λ N N', np_log N' = np_log N + kx) Nx Nx' →
  Forall2 (λ e e', np_log e' = np_log e + ky) error error' →
  error_rate np_log Nx' error' = error_rate np_log Nx error.
Proof.
  intros HN He.
  assert (length Nx = length Nx') as HlN by (by eapply Forall2_length).
  assert (length error = length error') as Hle by (by eapply Forall2_length).
  destruct (decide (length Nx = length error)) as [Hl|Hl].
  2:{ rewrite !error_rate_system, !decide_False by congruence. done. }
  destruct (sums_shifted np_log kx ky _ _ _ _ HN He Hl)
    as (E1 & E2 & E3 & E4 & E5).
  rewrite !error_rate_closed_form by congruence.
  assert (spread (map np_log Nx') = spread (map np_log Nx)) as Hs.
  { unfold spread. rewrite E1, E2, E4. ring. }
  rewrite Hs. case_decide; [done|]. f_equal.
  unfold ols_slope. rewrite Hs, E1, E2, E3, E5. f_equal. ring.
Qed.

(** ** The statements at the small problems *)

Lemma ex_model_ok : model_ok ex_model.
Proof.
  unfold model_ok, jacobian_ok. simpl. repeat split; auto.
Qed.

Lemma ex_grid_ok : grid_ok ex_grid.
Proof. reflexivity. Qed.

Lemma ex_init_eq :
  run_init (Some ex_grid) ex_stepper (qc 0 1) ex_u_init ex_empty
  = Returns ex_start.1 ex_start.2.
Proof. vm_compute. reflexivity. Qed.

Lemma ex_reach_start :
  reach (Some ex_grid) ex_stepper (qc 0 1) (qc 1 8) ex_u_init ex_empty
    ex_start.1 ex_start.2.
Proof. apply reach_init, ex_init_eq. Qed.

Lemma ex_pass_eq :
  loop_body ex_stepper (qc 1 8) ex_start.1 ex_start.2
    = Returns ex_next.1 ex_next.2.
Proof. vm_compute. reflexivity. Qed.

Lemma ex_dt0_eq : cfl_dt ex_stepper = Ok ex_dt0.
Proof. vm_compute. reflexivity. Qed.

Lemma interior_columns_updated_witness :
  jacobian_ok (model ex_stepper) ∧
  reach (Some ex_grid) ex_stepper (qc 0 1) (qc 1 8) ex_u_init ex_empty
    ex_start.1 ex_start.2 ∧
  loop_body ex_stepper (qc 1 8) ex_start.1 ex_start.2
    = Returns ex_next.1 ex_next.2 ∧
  ∃ dt0 dt U P C,
    cfl_dt ex_stepper = Ok dt0 ∧ dt = clamp_dt (qc 1 8) (t ex_start.1) dt0 ∧
    heap ex_start.2 !! u_cur ex_start.1 = Some U ∧
    heap ex_next.2 !! u_prev ex_start.1 = Some U ∧
    heap ex_next.2 !! u_pred ex_start.1 = Some P ∧
    heap ex_next.2 !! u_cur ex_start.1 = Some C ∧
    ∀ i, (1 ≤ i < nx (grid ex_stepper))%nat →
      ∃ x prev_i prev_next pred_i pred_before,
        X (grid ex_stepper) !! i = Some x ∧
        U !! i = Some prev_i ∧ U !! (i + 1)%nat = Some prev_next ∧
        P !! i = Some pred_i ∧ P !! (i - 1)%nat = Some pred_before ∧
        pred_i = predictor_formula dt (dx (grid ex_stepper))
                   (jacobian (model ex_stepper) x) prev_i prev_next ∧
        C !! i = Some (corrector_formula dt (dx (grid ex_stepper))
                         (jacobian (model ex_stepper) x) prev_i pred_i
                         pred_before).
Proof.
  split; [exact (proj1 ex_model_ok)|]. split; [exact ex_reach_start|].
  split; [exact ex_pass_eq|].
  exact (interior_columns_updated (Some ex_grid) ex_stepper (qc 0 1) (qc 1 8)
           ex_u_init ex_empty _ _ _ _ (proj1 ex_model_ok) ex_reach_start
           ex_pass_eq).
Defined.


Lemma run_lands_on_t_final_witness :
  model_ok (model ex_stepper) ∧ grid_ok (grid ex_stepper) ∧
  shape (numVars (model ex_stepper)) (nx (grid ex_stepper) + 1) ex_u_init ∧
  cfl_dt ex_stepper = Ok ex_dt0 ∧ 0 < epsilon ex_stepper ∧
  0 < dx (grid ex_stepper) ∧ qc 0 1 < qc 1 8 ∧
  (∃ fuel fr σ,
     run (Some (grid ex_stepper)) ex_stepper fuel (qc 0 1) (qc 1 8) ex_u_init
       ex_empty = Returns fr σ) ∧
  (∀ t dt, qc 1 8 - t ≤ dt →
     clamp_dt (qc 1 8) t dt = qc 1 8 - t ∧
     t + clamp_dt (qc 1 8) t dt = qc 1 8) ∧
  (∀ fuel fr σ,
     run (Some (grid ex_stepper)) ex_stepper fuel (qc 0 1) (qc 1 8) ex_u_init
       ex_empty = Returns fr σ →
     (1 ≤ n_steps fr)%nat ∧
     length (history σ) = (n_steps fr + 1)%nat ∧
     (∃ l, history σ !! 0%nat = Some (qc 0 1, l)) ∧
     (∃ l, history σ !! n_steps fr = Some (qc 1 8, l)) ∧
     Forall (λ e, e.1 ≤ qc 1 8) (history σ)).
Proof.
  assert (shape (numVars (model ex_stepper)) (nx (grid ex_stepper) + 1)
            ex_u_init) as Hs by (by vm_compute; split; repeat constructor).
  split; [exact ex_model_ok|]. split; [exact ex_grid_ok|].
  split; [exact Hs|]. split; [exact ex_dt0_eq|].
  do 3 (split; [reflexivity|]).
  exact (run_lands_on_t_final ex_stepper (qc 0 1) (qc 1 8) ex_u_init ex_empty
           ex_dt0 ex_model_ok ex_grid_ok Hs ex_dt0_eq eq_refl eq_refl eq_refl).
Defined.

Lemma boundary_calls_once_witness :
  reach (Some ex_grid) ex_stepper (qc 0 1) (qc 1 8) ex_u_init ex_empty
    ex_start.1 ex_start.2 ∧
  loop_body ex_stepper (qc 1 8) ex_start.1 ex_start.2
    = Returns ex_next.1 ex_next.2 ∧
  ∃ dt0 dt U x0 xn vL vR frb σ1 σp σa σb σc Pa Ca Cb C,
    cfl_dt ex_stepper = Ok dt0 ∧ dt = clamp_dt (qc 1 8) (t ex_start.1) dt0 ∧
    heap ex_start.2 !! u_cur ex_start.1 = Some U ∧
    X (grid ex_stepper) !! 0%nat = Some x0 ∧
    index_last (X (grid ex_stepper)) = Ok xn ∧
    begin_step ex_start.1 ex_start.2 = Returns frb σ1 ∧
    predictor ex_stepper frb dt σ1 = Returns tt σp ∧
    left_boundary ex_stepper frb (fadd (t ex_start.1) dt) dt σp
      = Returns tt σa ∧
    corrector ex_stepper frb dt σa = Returns tt σb ∧
    right_boundary ex_stepper frb (fadd (t ex_start.1) dt) dt σb
      = Returns tt σc ∧
    record frb (fadd (t ex_start.1) dt) σc = Returns ex_next.1 ex_next.2 ∧
    calls ex_next.2 = calls ex_start.2 ++
      [CallLeftBC x0 (fadd (t ex_start.1) dt) (dx (grid ex_stepper)) dt U;
       CallRightBC xn (fadd (t ex_start.1) dt) (dx (grid ex_stepper)) dt U] ∧
    broadcast_to (numVars (model ex_stepper))
      (applyLeftBC (model ex_stepper) x0 (fadd (t ex_start.1) dt)
         (dx (grid ex_stepper)) dt U) = Ok vL ∧
    broadcast_to (numVars (model ex_stepper))
      (applyRightBC (model ex_stepper) xn (fadd (t ex_start.1) dt)
         (dx (grid ex_stepper)) dt U) = Ok vR ∧
    heap σa !! u_prev ex_start.1 = Some U ∧
    heap σa !! u_pred ex_start.1 = Some Pa ∧ Pa !! 0%nat = Some vL ∧
    heap σa !! u_cur ex_start.1 = Some Ca ∧ Ca !! 0%nat = Some vL ∧
    calls σa = calls ex_start.2 ++
      [CallLeftBC x0 (fadd (t ex_start.1) dt) (dx (grid ex_stepper)) dt U] ∧
    heap σb !! u_pred ex_start.1 = Some Pa ∧
    heap σb !! u_cur ex_start.1 = Some Cb ∧ Cb !! 0%nat = Some vL ∧
    calls σb = calls ex_start.2 ++
      [CallLeftBC x0 (fadd (t ex_start.1) dt) (dx (grid ex_stepper)) dt U] ∧
    heap ex_next.2 !! u_cur ex_start.1 = Some C ∧
    C !! (length C - 1)%nat = Some vR.
Proof.
  split; [exact ex_reach_start|]. split; [exact ex_pass_eq|].
  exact (boundary_calls_once _ _ _ _ _ _ _ _ _ _ ex_reach_start ex_pass_eq).
Defined.

(** The pass of the statement above, evaluated: when the corrector loop
    starts, column 0 of [u_pred] and of [u_cur] hold the left boundary value
    7, and the corrector's value at node 1 depends on it. *)
Lemma ex_corrector_start :
  option_map (λ p : unit * mstate Qc,
                fractions [heap p.2 !! u_pred ex_start.1;
                           heap p.2 !! u_cur ex_start.1])
    (returned
       (bind (begin_step ex_start.1)
          (λ frb, bind (predictor ex_stepper frb ex_dt0)
                    (λ _, left_boundary ex_stepper frb
                            (fadd (t ex_start.1) ex_dt0) ex_dt0))
          ex_start.2))
  = Some [Some (row_state [7 # 1; 3 # 2; 3 # 1; 6 # 1; 0 # 1]);
          Some (row_state [7 # 1; 2 # 1; 4 # 1; 8 # 1; 16 # 1])]%Q ∧
  fractions (heap ex_next.2 !! u_cur ex_start.1 :: nil)
  = (Some (row_state [7 # 1; 39 # 16; 53 # 16; 53 # 8; 9 # 1]) :: nil)%Q.
Proof. split; vm_compute; reflexivity. Qed.

Lemma history_entries_are_copies_witness :
  reach (Some ex_grid) ex_stepper (qc 0 1) (qc 1 8) ex_u_init ex_empty
    ex_start.1 ex_start.2 ∧
  (∀ k tk l, history ex_start.2 !! k = Some (tk, l) →
     ¬ is_buffer ex_start.1 l ∧ is_Some (heap ex_start.2 !! l) ∧
     ∀ a b c : list (list Qc),
       <[u_prev ex_start.1 := a]>
         (<[u_pred ex_start.1 := b]>
            (<[u_cur ex_start.1 := c]> (heap ex_start.2))) !! l
       = heap ex_start.2 !! l) ∧
  (∃ l, history ex_start.2 !! n_steps ex_start.1 = Some (t ex_start.1, l) ∧
        heap ex_start.2 !! l = heap ex_start.2 !! u_cur ex_start.1) ∧
  (∀ fr' σ', loop_body ex_stepper (qc 1 8) ex_start.1 ex_start.2
             = Returns fr' σ' →
     ∀ k tk l, history ex_start.2 !! k = Some (tk, l) →
       history σ' !! k = Some (tk, l) ∧
       heap σ' !! l = heap ex_start.2 !! l).
Proof.
  split; [exact ex_reach_start|].
  exact (history_entries_are_copies _ _ _ _ _ _ _ _ ex_reach_start).
Defined.

(** What an alias would have cost: the pass changes the contents of [u_cur],
    and leaves the recorded initial state alone. *)
Lemma ex_buffer_changes_but_entry_stays :
  fractions [heap ex_start.2 !! u_cur ex_start.1;
             heap ex_next.2 !! u_cur ex_start.1]
  = [Some (row_state [1 # 1; 2 # 1; 4 # 1; 8 # 1; 16 # 1]);
     Some (row_state [7 # 1; 39 # 16; 53 # 16; 53 # 8; 9 # 1])]%Q ∧
  fractions (take 1 (recorded ex_start.2)) = fractions (take 1 (recorded ex_next.2)).
Proof. split; vm_compute; reflexivity. Qed.

Lemma ex_reach_next :
  reach (Some ex_grid) ex_stepper (qc 0 1) (qc 1 8) ex_u_init ex_empty
    ex_next.1 ex_next.2.
Proof.
  eapply reach_step; [exact ex_reach_start|reflexivity|exact ex_pass_eq].
Qed.

Lemma ex_last_eq :
  loop_body ex_stepper (qc 1 8) ex_next.1 ex_next.2
  = Returns ex_last.1 ex_last.2.
Proof. vm_compute. reflexivity. Qed.

Lemma same_step_in_every_pass_witness :
  reach (Some ex_grid) ex_stepper (qc 0 1) (qc 1 8) ex_u_init ex_empty
    ex_start.1 ex_start.2 ∧
  loop_body ex_stepper (qc 1 8) ex_start.1 ex_start.2
    = Returns ex_next.1 ex_next.2 ∧
  reach (Some ex_grid) ex_stepper (qc 0 1) (qc 1 8) ex_u_init ex_empty
    ex_next.1 ex_next.2 ∧
  loop_body ex_stepper (qc 1 8) ex_next.1 ex_next.2
    = Returns ex_last.1 ex_last.2 ∧
  ∃ lambda_max dt0,
    cfl_lambda_max ex_stepper = Ok lambda_max ∧
    cfl_dt ex_stepper = Ok dt0 ∧
    dt0 = epsilon ex_stepper * (dx (grid ex_stepper) / lambda_max) ∧
    (fltb (t ex_next.1) (qc 1 8) = true → t ex_next.1 = t ex_start.1 + dt0) ∧
    (fltb (t ex_last.1) (qc 1 8) = true → t ex_last.1 = t ex_next.1 + dt0).
Proof.
  split; [exact ex_reach_start|]. split; [exact ex_pass_eq|].
  split; [exact ex_reach_next|]. split; [exact ex_last_eq|].
  exact (same_step_in_every_pass _ _ _ _ _ _ _ _ _ _ _ _ _ _
           ex_reach_start ex_pass_eq ex_reach_next ex_last_eq).
Defined.




Lemma ex_frozen_lambda : cfl_lambda_max ex_frozen = Ok 0.
Proof. vm_compute. reflexivity. Qed.

Lemma zero_lambda_max_raises_witness :
  cfl_lambda_max ex_frozen = Ok 0 ∧
  0 ≤ 0 ∧
  (0 = 0 →
   ∀ module_grid fuel t_init t_final u_init (σ0 : mstate Qc) fr σ,
     run_init module_grid ex_frozen t_init u_init σ0 = Returns fr σ →
     t_init < t_final →
     ∃ σ', run module_grid ex_frozen (S fuel) t_init t_final u_init σ0
             = Raises ZeroDivisionError σ' ∧
           history σ' = history σ ∧ calls σ' = calls σ0).
Proof.
  split; [exact ex_frozen_lambda|].
  exact (zero_lambda_max_raises ex_frozen 0 ex_frozen_lambda).
Defined.

(** The run that the statement above is about, evaluated. *)
Lemma ex_frozen_run :
  raised (run (Some ex_grid) ex_frozen 5 (qc 0 1) (qc 1 8) ex_u_init ex_empty)
  = Some ZeroDivisionError.
Proof. vm_compute. reflexivity. Qed.

(** C7, the claim as it stands, fails: in binary64, with an infinite
    eigenvalue, [lambda_max] is infinite and the step is 0.0; nothing is
    raised, the first pass completes without advancing the time, and the
    run goes on for as long as it is given fuel. *)
Lemma infinite_lambda_max_goes_unnoticed :
  cfl_lambda_max ex_inf = Ok infinity ∧
  cfl_dt ex_inf = Ok 0%float ∧
  option_map (λ p : frame float * mstate float,
                (t p.1, n_steps p.1, length (history p.2)))
    (returned (first_pass (Some ex_inf_grid) ex_inf 0%float 1%float
                 ex_inf_u_init (MState nil nil nil)))
  = Some (0%float, 1%nat, 2%nat) ∧
  raised (run (Some ex_inf_grid) ex_inf 100 0%float 1%float ex_inf_u_init
            (MState nil nil nil)) = None ∧
  gave_up (run (Some ex_inf_grid) ex_inf 100 0%float 1%float ex_inf_u_init
             (MState nil nil nil)) = true.
Proof. repeat split; vm_compute; reflexivity. Qed.

Lemma ex_still_zero : jac_zero (model ex_still).
Proof. intros x. reflexivity. Qed.

Lemma ex_still_init_eq :
  run_init (Some ex_grid) ex_still (qc 0 1) ex_u_init ex_empty
  = Returns ex_still_start.1 ex_still_start.2.
Proof. vm_compute. reflexivity. Qed.

Lemma ex_still_pass_eq :
  loop_body ex_still (qc 1 8) ex_still_start.1 ex_still_start.2
  = Returns ex_still_next.1 ex_still_next.2.
Proof. vm_compute. reflexivity. Qed.

Lemma ex_still_reach :
  reach (Some ex_grid) ex_still (qc 0 1) (qc 1 8) ex_u_init ex_empty
    ex_still_next.1 ex_still_next.2.
Proof.
  eapply reach_step;
    [apply reach_init, ex_still_init_eq|reflexivity|exact ex_still_pass_eq].
Qed.

Lemma zero_jacobian_keeps_interior_witness :
  jac_zero (model ex_still) ∧ 0 < dx (grid ex_still) ∧
  reach (Some ex_grid) ex_still (qc 0 1) (qc 1 8) ex_u_init ex_empty
    ex_still_next.1 ex_still_next.2 ∧
  ∃ l0 S0,
    history ex_still_next.2 !! 0%nat = Some (qc 0 1, l0) ∧
    heap ex_still_next.2 !! l0 = Some S0 ∧
    ∀ k tk l S, history ex_still_next.2 !! k = Some (tk, l) →
      heap ex_still_next.2 !! l = Some S →
      ∀ i, (1 ≤ i < nx (grid ex_still))%nat → S !! i = S0 !! i.
Proof.
  split; [exact ex_still_zero|]. split; [reflexivity|].
  split; [exact ex_still_reach|].
  exact (zero_jacobian_keeps_interior _ _ _ _ _ _ _ _
           ex_still_zero eq_refl ex_still_reach).
Defined.

(** C8, the claim as it stands, fails: with a zero Jacobian the recorded
    states after the first and the second step differ from the initial
    state in their two boundary columns. *)
Lemma zero_jacobian_boundary_changes :
  jac_zero (model ex_still) ∧
  option_map (λ p : frame Qc * mstate Qc, fractions (recorded p.2))
    (returned (run (Some ex_grid) ex_still 5 (qc 0 1) (qc 1 8) ex_u_init
                 ex_empty))
  = Some [Some (row_state [1 # 1; 2 # 1; 4 # 1; 8 # 1; 16 # 1]);
          Some (row_state [7 # 1; 2 # 1; 4 # 1; 8 # 1; 9 # 1]);
          Some (row_state [7 # 1; 2 # 1; 4 # 1; 8 # 1; 9 # 1])]%Q.
Proof. split; [exact ex_still_zero|]. vm_compute. reflexivity. Qed.

(** *** The shape of the recorded states *)

(** Without a module-level [grid], line 55 raises before anything is done. *)
Lemma run_without_module_grid {F} `{Scalar F} (self : MacCormackStepper F)
    fuel t_init t_final u_init (σ0 : mstate F) :
  run None self fuel t_init t_final u_init σ0 = Raises NameError σ0.
Proof. reflexivity. Qed.

(** Every recorded state has the shape of the buffers, which lines 55-57
    take from the model and from the module-level [grid]. *)
Lemma recorded_shape {F} `{Scalar F} module_grid (self : MacCormackStepper F)
    t_init t_final u_init (σ0 : mstate F) fr σ :
  reach module_grid self t_init t_final u_init σ0 fr σ →
  ∃ g, module_grid = Some g ∧
       ∀ k tk l, history σ !! k = Some (tk, l) →
         ∃ S, heap σ !! l = Some S ∧
              shape (numVars (model self)) (nx g + 1)%nat S.
Proof.
  intros Hr. destruct (reach_inv _ _ _ _ _ _ _ _ Hr) as (g & Hg & Hinv).
  exists g. split; [done|]. intros k tk l Hl.
  by destruct (ri_entries _ _ _ _ _ Hinv k tk l Hl) as [_ ?].
Qed.

(** C9 at a failing input: the stepper holds a grid with nx = 4 while the
    module-level [grid] has nx = 6.  With an initial state of the stepper's
    own shape, 1 by 5, [np.copyto] raises; with a one-column initial state,
    which [np.copyto] broadcasts, the run completes and every recorded state
    has 7 columns, not 5; with no module-level [grid], [run] raises
    NameError. *)
Lemma recorded_shape_follows_module_grid :
  nx (grid ex_stepper) = 4%nat ∧ nx ex_other_grid = 6%nat ∧
  shape 1 5 ex_u_init ∧
  raised (run (Some ex_other_grid) ex_stepper 5 (qc 0 1) (qc 1 8) ex_u_init
            ex_empty) = Some ValueError ∧
  option_map (λ p : frame Qc * mstate Qc,
                map (option_map length) (recorded p.2))
    (returned (run (Some ex_other_grid) ex_stepper 5 (qc 0 1) (qc 1 8)
                 ((qc 1 1 :: nil) :: nil) ex_empty))
  = Some [Some 7%nat; Some 7%nat; Some 7%nat] ∧
  raised (run None ex_stepper 5 (qc 0 1) (qc 1 8) ex_u_init ex_empty)
  = Some NameError.
Proof.
  split; [reflexivity|]. split; [reflexivity|].
  split; [by vm_compute; split; repeat constructor|].
  repeat split; vm_compute; reflexivity.
Qed.

(** ** The further statements at the small problems *)

Lemma ex_run_eq :
  run (Some ex_grid) ex_stepper 5 (qc 0 1) (qc 1 8) ex_u_init ex_empty
  = Returns ex_last.1 ex_last.2.
Proof. vm_compute. reflexivity. Qed.

Lemma ex_again_eq :
  run (Some ex_grid) ex_stepper 7 (qc 0 1) (qc 1 8) ex_u_init ex_last.2
  = Returns ex_again.1 ex_again.2.
Proof. vm_compute. reflexivity. Qed.

Lemma ex_stalled_dt0_eq : cfl_dt ex_stalled = Ok ex_stalled_dt0.
Proof. vm_compute. reflexivity. Qed.

Lemma ex_rate_eq : error_rate (λ x, x) ex_nodes ex_errors = Value ex_rate.
Proof. vm_compute. reflexivity. Qed.

Lemma ex_u_init_shape : shape 1 5 ex_u_init.
Proof. by vm_compute; split; repeat constructor. Qed.

Lemma run_only_allocates_witness :
  run (Some ex_grid) ex_stepper 5 (qc 0 1) (qc 1 8) ex_u_init ex_empty
    = Returns ex_last.1 ex_last.2 ∧
  take (length (heap ex_empty)) (heap ex_last.2) = heap ex_empty ∧
  length (heap ex_last.2) = (length (heap ex_empty) + 4 + n_steps ex_last.1)%nat ∧
  length (history ex_last.2) = (n_steps ex_last.1 + 1)%nat ∧
  ∀ k tk l, history ex_last.2 !! k = Some (tk, l) →
            l = (length (heap ex_empty) + 3 + k)%nat.
Proof.
  split; [exact ex_run_eq|].
  exact (run_only_allocates _ _ _ _ _ _ _ _ _ ex_run_eq).
Defined.


Lemma run_depends_on_arguments_only_witness :
  run (Some ex_grid) ex_stepper 5 (qc 0 1) (qc 1 8) ex_u_init ex_empty
    = Returns ex_last.1 ex_last.2 ∧
  run (Some ex_grid) ex_stepper 7 (qc 0 1) (qc 1 8) ex_u_init ex_last.2
    = Returns ex_again.1 ex_again.2 ∧
  n_steps ex_last.1 = n_steps ex_again.1 ∧ t ex_last.1 = t ex_again.1 ∧
  map fst (history ex_last.2) = map fst (history ex_again.2) ∧
  recorded ex_last.2 = recorded ex_again.2.
Proof.
  split; [exact ex_run_eq|]. split; [exact ex_again_eq|].
  exact (run_depends_on_arguments_only _ _ _ _ _ _ _ _ _ _ _ _ _
           ex_run_eq ex_again_eq).
Defined.

Lemma well_formed_run_never_raises_witness :
  model_ok (model ex_stepper) ∧ grid_ok (grid ex_stepper) ∧
  shape (numVars (model ex_stepper)) (nx (grid ex_stepper) + 1) ex_u_init ∧
  cfl_dt ex_stepper = Ok ex_dt0 ∧
  raised (run (Some (grid ex_stepper)) ex_stepper 5 (qc 0 1) (qc 1 8)
            ex_u_init ex_empty) = None.
Proof.
  split; [exact ex_model_ok|]. split; [exact ex_grid_ok|].
  split; [exact ex_u_init_shape|]. split; [exact ex_dt0_eq|].
  exact (well_formed_run_never_raises ex_stepper 5 (qc 0 1) (qc 1 8) ex_u_init
           ex_empty ex_dt0 ex_model_ok ex_grid_ok ex_u_init_shape ex_dt0_eq).
Defined.

Lemma wrong_shape_raises_before_clear_witness :
  Some ex_other_grid = Some ex_other_grid ∧ shape 1 5 ex_u_init ∧
  ((5 ≠ nx ex_other_grid + 1 ∧ 5 ≠ 1)%nat ∨
   (0 < 5 ∧ 1 ≠ numVars (model ex_stepper) ∧ 1 ≠ 1)%nat) ∧
  ∃ σ', run (Some ex_other_grid) ex_stepper 5 (qc 0 1) (qc 1 8) ex_u_init
          ex_last.2 = Raises ValueError σ' ∧
        history σ' = history ex_last.2 ∧ calls σ' = calls ex_last.2 ∧
        take (length (heap ex_last.2)) (heap σ') = heap ex_last.2.
Proof.
  assert ((5 ≠ nx ex_other_grid + 1 ∧ 5 ≠ 1)%nat ∨
          (0 < 5 ∧ 1 ≠ numVars (model ex_stepper) ∧ 1 ≠ 1)%nat) as Hbad
    by (left; simpl; lia).
  split; [reflexivity|]. split; [exact ex_u_init_shape|]. split; [exact Hbad|].
  exact (wrong_shape_raises_before_clear (Some ex_other_grid) ex_stepper 5
           (qc 0 1) (qc 1 8) ex_u_init ex_last.2 ex_other_grid 1%nat 5%nat
           eq_refl ex_u_init_shape Hbad).
Defined.

Lemma initial_state_is_broadcast_witness :
  run (Some ex_grid) ex_stepper 5 (qc 0 1) (qc 1 8) ex_u_init ex_empty
    = Returns ex_last.1 ex_last.2 ∧
  ∃ g l S0,
    Some ex_grid = Some g ∧
    history ex_last.2 !! 0%nat = Some (qc 0 1, l) ∧
    heap ex_last.2 !! l = Some S0 ∧
    shape (numVars (model ex_stepper)) (nx g + 1) S0 ∧
    ∀ r' c', shape r' c' ex_u_init →
      (c' = nx g + 1 ∨ c' = 1)%nat ∧
      ((0 < c')%nat → r' = numVars (model ex_stepper) ∨ r' = 1%nat) ∧
      ∀ i j, (i < numVars (model ex_stepper))%nat → (j < nx g + 1)%nat →
        ∃ col col',
          ex_u_init !! (if decide (c' = nx g + 1)%nat then j else 0%nat)
            = Some col ∧
          S0 !! j = Some col' ∧
          col' !! i
          = col !! (if decide (r' = numVars (model ex_stepper)) then i
                    else 0%nat).
Proof.
  split; [exact ex_run_eq|].
  exact (initial_state_is_broadcast _ _ _ _ _ _ _ _ _ ex_run_eq).
Defined.

Lemma boundary_calls_follow_history_witness :
  run (Some ex_grid) ex_stepper 5 (qc 0 1) (qc 1 8) ex_u_init ex_empty
    = Returns ex_last.1 ex_last.2 ∧
  length (calls ex_last.2)
    = (length (calls ex_empty) + 2 * n_steps ex_last.1)%nat ∧
  take (length (calls ex_empty)) (calls ex_last.2) = calls ex_empty ∧
  ∀ k, (k < n_steps ex_last.1)%nat →
    ∃ tk l S t' l' dt x0 xn,
      history ex_last.2 !! k = Some (tk, l) ∧ heap ex_last.2 !! l = Some S ∧
      history ex_last.2 !! (k + 1)%nat = Some (t', l') ∧ t' = fadd tk dt ∧
      X (grid ex_stepper) !! 0%nat = Some x0 ∧
      index_last (X (grid ex_stepper)) = Ok xn ∧
      calls ex_last.2 !! (length (calls ex_empty) + 2 * k)%nat
        = Some (CallLeftBC x0 t' (dx (grid ex_stepper)) dt S) ∧
      calls ex_last.2 !! (length (calls ex_empty) + 2 * k + 1)%nat
        = Some (CallRightBC xn t' (dx (grid ex_stepper)) dt S).
Proof.
  split; [exact ex_run_eq|].
  exact (boundary_calls_follow_history _ _ _ _ _ _ _ _ _ ex_run_eq).
Defined.

Lemma recorded_boundary_columns_witness :
  run (Some ex_grid) ex_stepper 5 (qc 0 1) (qc 1 8) ex_u_init ex_empty
    = Returns ex_last.1 ex_last.2 ∧
  ∀ k, (k < n_steps ex_last.1)%nat →
    ∃ tk l S dt0 dt l' S' x0 xn vL vR,
      history ex_last.2 !! k = Some (tk, l) ∧ heap ex_last.2 !! l = Some S ∧
      cfl_dt ex_stepper = Ok dt0 ∧ dt = clamp_dt (qc 1 8) tk dt0 ∧
      history ex_last.2 !! (k + 1)%nat = Some (fadd tk dt, l') ∧
      heap ex_last.2 !! l' = Some S' ∧
      X (grid ex_stepper) !! 0%nat = Some x0 ∧
      index_last (X (grid ex_stepper)) = Ok xn ∧
      broadcast_to (numVars (model ex_stepper))
        (applyLeftBC (model ex_stepper) x0 (fadd tk dt) (dx (grid ex_stepper))
           dt S) = Ok vL ∧
      broadcast_to (numVars (model ex_stepper))
        (applyRightBC (model ex_stepper) xn (fadd tk dt) (dx (grid ex_stepper))
           dt S) = Ok vR ∧
      S' !! (length S' - 1)%nat = Some vR ∧
      ((2 ≤ length S')%nat → S' !! 0%nat = Some vL).
Proof.
  split; [exact ex_run_eq|].
  exact (recorded_boundary_columns _ _ _ _ _ _ _ _ _ ex_run_eq).
Defined.

Lemma three_point_stencil_witness :
  jacobian_ok (model ex_stepper) ∧
  reach (Some ex_grid) ex_stepper (qc 0 1) (qc 1 8) ex_u_init ex_empty
    ex_start.1 ex_start.2 ∧
  loop_body ex_stepper (qc 1 8) ex_start.1 ex_start.2
    = Returns ex_next.1 ex_next.2 ∧
  ∃ dt0 dt U C x0 vL,
    cfl_dt ex_stepper = Ok dt0 ∧ dt = clamp_dt (qc 1 8) (t ex_start.1) dt0 ∧
    heap ex_start.2 !! u_cur ex_start.1 = Some U ∧
    heap ex_next.2 !! u_cur ex_start.1 = Some C ∧
    X (grid ex_stepper) !! 0%nat = Some x0 ∧
    broadcast_to (numVars (model ex_stepper))
      (applyLeftBC (model ex_stepper) x0 (fadd (t ex_start.1) dt)
         (dx (grid ex_stepper)) dt U) = Ok vL ∧
    ∀ i, (1 ≤ i < nx (grid ex_stepper))%nat →
      ∃ x u up pm,
        X (grid ex_stepper) !! i = Some x ∧ U !! i = Some u ∧
        U !! (i + 1)%nat = Some up ∧
        C !! i = Some (corrector_formula dt (dx (grid ex_stepper))
                         (jacobian (model ex_stepper) x) u
                         (predictor_formula dt (dx (grid ex_stepper))
                            (jacobian (model ex_stepper) x) u up) pm) ∧
        (i = 1%nat → pm = vL) ∧
        ((2 ≤ i)%nat → ∃ xm um,
           X (grid ex_stepper) !! (i - 1)%nat = Some xm ∧
           U !! (i - 1)%nat = Some um ∧
           pm = predictor_formula dt (dx (grid ex_stepper))
                  (jacobian (model ex_stepper) xm) um u).
Proof.
  split; [exact (proj1 ex_model_ok)|]. split; [exact ex_reach_start|].
  split; [exact ex_pass_eq|].
  exact (three_point_stencil (Some ex_grid) ex_stepper (qc 0 1) (qc 1 8)
           ex_u_init ex_empty _ _ _ _ (proj1 ex_model_ok) ex_reach_start
           ex_pass_eq).
Defined.

Lemma history_times_witness :
  qc 0 1 < qc 1 8 ∧
  run (Some ex_grid) ex_stepper 5 (qc 0 1) (qc 1 8) ex_u_init ex_empty
    = Returns ex_last.1 ex_last.2 ∧
  ∃ dt0,
    cfl_dt ex_stepper = Ok dt0 ∧ 0 < dt0 ∧ (0 < n_steps ex_last.1)%nat ∧
    (∀ k tk l, history ex_last.2 !! k = Some (tk, l) →
       (k < n_steps ex_last.1)%nat → tk = after_steps (qc 0 1) k dt0) ∧
    (∃ l, history ex_last.2 !! n_steps ex_last.1 = Some (qc 1 8, l)) ∧
    after_steps (qc 0 1) (n_steps ex_last.1 - 1) dt0 < qc 1 8 ∧
    qc 1 8 ≤ after_steps (qc 0 1) (n_steps ex_last.1) dt0.
Proof.
  split; [reflexivity|]. split; [exact ex_run_eq|].
  exact (history_times (Some ex_grid) ex_stepper 5 (qc 0 1) (qc 1 8) ex_u_init
           ex_empty _ _ eq_refl ex_run_eq).
Defined.

Lemma nonpositive_step_runs_forever_witness :
  cfl_dt ex_stalled = Ok ex_stalled_dt0 ∧ ex_stalled_dt0 ≤ 0 ∧
  qc 0 1 < qc 1 8 ∧
  (∀ module_grid fuel fr σ,
     run module_grid ex_stalled fuel (qc 0 1) (qc 1 8) ex_u_init ex_empty
     ≠ Returns fr σ) ∧
  (model_ok (model ex_stalled) → grid_ok (grid ex_stalled) →
   shape (numVars (model ex_stalled)) (nx (grid ex_stalled) + 1) ex_u_init →
   ∀ fuel,
     run (Some (grid ex_stalled)) ex_stalled fuel (qc 0 1) (qc 1 8) ex_u_init
       ex_empty = OutOfFuel).
Proof.
  assert (ex_stalled_dt0 ≤ 0) as Hle by (by vm_compute).
  split; [exact ex_stalled_dt0_eq|]. split; [exact Hle|].
  split; [reflexivity|].
  exact (nonpositive_step_runs_forever ex_stalled (qc 0 1) (qc 1 8) ex_u_init
           ex_empty ex_stalled_dt0 ex_stalled_dt0_eq Hle eq_refl).
Defined.

Lemma ex_constant_jacobian :
  ∀ x, jacobian (model ex_stepper) x = ((qc 1 1 :: nil) :: nil).
Proof. reflexivity. Qed.

Lemma ex_dx_nonzero : dx (grid ex_stepper) ≠ 0.
Proof. intros E. apply (f_equal this) in E. vm_compute in E. discriminate. Qed.

Lemma constant_jacobian_is_lax_wendroff_witness :
  jacobian_ok (model ex_stepper) ∧
  (∀ x, jacobian (model ex_stepper) x = ((qc 1 1 :: nil) :: nil)) ∧
  dx (grid ex_stepper) ≠ 0 ∧
  reach (Some ex_grid) ex_stepper (qc 0 1) (qc 1 8) ex_u_init ex_empty
    ex_start.1 ex_start.2 ∧
  loop_body ex_stepper (qc 1 8) ex_start.1 ex_start.2
    = Returns ex_next.1 ex_next.2 ∧
  ∃ dt U C,
    t ex_next.1 = t ex_start.1 + dt ∧
    heap ex_start.2 !! u_cur ex_start.1 = Some U ∧
    heap ex_next.2 !! u_cur ex_start.1 = Some C ∧
    ∀ i, (2 ≤ i < nx (grid ex_stepper))%nat →
      ∃ um u up,
        U !! (i - 1)%nat = Some um ∧ U !! i = Some u ∧
        U !! (i + 1)%nat = Some up ∧
        C !! i = Some (lax_wendroff (dt / dx (grid ex_stepper))
                         ((qc 1 1 :: nil) :: nil) um u up).
Proof.
  split; [exact (proj1 ex_model_ok)|]. split; [exact ex_constant_jacobian|].
  split; [exact ex_dx_nonzero|]. split; [exact ex_reach_start|].
  split; [exact ex_pass_eq|].
  exact (constant_jacobian_is_lax_wendroff (Some ex_grid) ex_stepper (qc 0 1)
           (qc 1 8) ex_u_init ex_empty _ _ _ _ _ (proj1 ex_model_ok)
           ex_constant_jacobian ex_dx_nonzero ex_reach_start ex_pass_eq).
Defined.

Lemma ex_flat_init_eq :
  run_init (Some ex_grid) ex_stepper (qc 0 1) ex_flat_u_init ex_empty
  = Returns ex_flat_start.1 ex_flat_start.2.
Proof. vm_compute. reflexivity. Qed.

Lemma ex_flat_pass_eq :
  loop_body ex_stepper (qc 1 8) ex_flat_start.1 ex_flat_start.2
  = Returns ex_flat_next.1 ex_flat_next.2.
Proof. vm_compute. reflexivity. Qed.

Lemma flat_state_preserved_witness :
  jacobian_ok (model ex_stepper) ∧ dx (grid ex_stepper) ≠ 0 ∧
  reach (Some ex_grid) ex_stepper (qc 0 1) (qc 1 8) ex_flat_u_init ex_empty
    ex_flat_start.1 ex_flat_start.2 ∧
  loop_body ex_stepper (qc 1 8) ex_flat_start.1 ex_flat_start.2
    = Returns ex_flat_next.1 ex_flat_next.2 ∧
  heap ex_flat_start.2 !! u_cur ex_flat_start.1 = Some ex_flat_u_init ∧
  (2 ≤ 2 < nx (grid ex_stepper))%nat ∧
  ex_flat_u_init !! (2 - 1)%nat = Some (qc 5 1 :: nil) ∧
  ex_flat_u_init !! 2%nat = Some (qc 5 1 :: nil) ∧
  ex_flat_u_init !! (2 + 1)%nat = Some (qc 5 1 :: nil) ∧
  ∃ C, heap ex_flat_next.2 !! u_cur ex_flat_start.1 = Some C ∧
       C !! 2%nat = Some (qc 5 1 :: nil).
Proof.
  split; [exact (proj1 ex_model_ok)|]. split; [exact ex_dx_nonzero|].
  split; [exact (reach_init _ _ _ _ _ _ _ _ ex_flat_init_eq)|].
  split; [exact ex_flat_pass_eq|]. split; [reflexivity|].
  split; [simpl; lia|]. do 3 (split; [reflexivity|]).
  exact (flat_state_preserved (Some ex_grid) ex_stepper (qc 0 1) (qc 1 8)
           ex_flat_u_init ex_empty _ _ _ _ ex_flat_u_init 2%nat (qc 5 1 :: nil)
           (proj1 ex_model_ok) ex_dx_nonzero
           (reach_init _ _ _ _ _ _ _ _ ex_flat_init_eq) ex_flat_pass_eq
           eq_refl ltac:(simpl; lia) eq_refl eq_refl eq_refl).
Defined.

(** The pass of the statement above, evaluated: node 2 keeps the value 5,
    node 3, whose right neighbour differs, does not. *)
Lemma ex_flat_pass :
  fractions [heap ex_flat_start.2 !! u_cur ex_flat_start.1;
             heap ex_flat_next.2 !! u_cur ex_flat_start.1]
  = [Some (row_state [1 # 1; 5 # 1; 5 # 1; 5 # 1; 16 # 1]);
     Some (row_state [7 # 1; 21 # 4; 5 # 1; 127 # 32; 9 # 1])]%Q.
Proof. vm_compute. reflexivity. Qed.

Lemma ex_exact_shape :
  ∀ t : Qc, shape (numVars (model ex_stepper)) (nx (grid ex_stepper) + 1)
              ((λ (_ : list Qc) (_ : Qc), ex_u_init) (X (grid ex_stepper)) t).
Proof. intros t. exact ex_u_init_shape. Qed.

Lemma script_max_err_bounds_witness :
  run (Some (grid ex_stepper)) ex_stepper 5 (qc 0 1) (qc 1 8) ex_u_init ex_empty
    = Returns ex_last.1 ex_last.2 ∧
  (∀ t : Qc, shape (numVars (model ex_stepper)) (nx (grid ex_stepper) + 1)
               ((λ (_ : list Qc) (_ : Qc), ex_u_init) (X (grid ex_stepper)) t)) ∧
  (0 < 4)%nat ∧
  ∃ m,
    script_max_err (λ _ _, ex_u_init) (X (grid ex_stepper)) 4 ex_last.2 = Ok m ∧
    0 ≤ m ∧
    (∀ k tk l W j colE colW,
       history ex_last.2 !! k = Some (tk, l) → heap ex_last.2 !! l = Some W →
       (λ (_ : list Qc) (_ : Qc), ex_u_init) (X (grid ex_stepper)) tk !! j
         = Some colE →
       W !! j = Some colW →
       abs_sum (vsub colE colW)
       ≤ Q2Qc 2 * Q2Qc (inject_Z (Z.of_nat 4)) * m) ∧
    (m = 0 ∨
     ∃ k tk l W, history ex_last.2 !! k = Some (tk, l) ∧
                 heap ex_last.2 !! l = Some W ∧
                 err_norm 4 ((λ (_ : list Qc) (_ : Qc), ex_u_init)
                               (X (grid ex_stepper)) tk) W = Ok m).
Proof.
  split; [exact ex_run_eq|]. split; [exact ex_exact_shape|].
  split; [lia|].
  exact (script_max_err_bounds ex_stepper 5 (qc 0 1) (qc 1 8) ex_u_init ex_empty
           ex_last.1 ex_last.2 (λ _ _, ex_u_init) 4 ex_run_eq ex_exact_shape
           ltac:(lia)).
Defined.

Lemma ex_nodes_differ : (λ x : Qc, x) (qc 1 1) ≠ (λ x : Qc, x) (qc 2 1).
Proof. intros E. apply (f_equal this) in E. vm_compute in E. discriminate. Qed.

Lemma ex_node_1 : qc 1 1 ∈ ex_nodes.
Proof. unfold ex_nodes. by left. Qed.

Lemma ex_node_2 : qc 2 1 ∈ ex_nodes.
Proof. unfold ex_nodes. right. by left. Qed.

Lemma ex_on_line :
  Forall2 (λ N e : Qc, (λ x : Qc, x) e = qc 7 1 + qc (-2) 1 * (λ x : Qc, x) N)
    ex_nodes ex_errors.
Proof. repeat constructor; apply Qc_is_canon; reflexivity. Qed.

Lemma error_rate_least_squares_slope_witness :
  length ex_nodes = length ex_errors ∧
  qc 1 1 ∈ ex_nodes ∧ qc 2 1 ∈ ex_nodes ∧
  (λ x : Qc, x) (qc 1 1) ≠ (λ x : Qc, x) (qc 2 1) ∧
  error_rate (λ x, x) ex_nodes ex_errors
  = Value (ols_slope (map (λ x, x) ex_nodes) (map (λ x, x) ex_errors)).
Proof.
  split; [reflexivity|]. split; [exact ex_node_1|]. split; [exact ex_node_2|].
  split; [exact ex_nodes_differ|].
  exact (error_rate_least_squares_slope (λ x, x) ex_nodes ex_errors (qc 1 1)
           (qc 2 1) eq_refl ex_node_1 ex_node_2 ex_nodes_differ).
Defined.

Lemma error_rate_recovers_slope_witness :
  Forall2 (λ N e : Qc, (λ x : Qc, x) e = qc 7 1 + qc (-2) 1 * (λ x : Qc, x) N)
    ex_nodes ex_errors ∧
  qc 1 1 ∈ ex_nodes ∧ qc 2 1 ∈ ex_nodes ∧
  (λ x : Qc, x) (qc 1 1) ≠ (λ x : Qc, x) (qc 2 1) ∧
  error_rate (λ x, x) ex_nodes ex_errors = Value (qc (-2) 1).
Proof.
  split; [exact ex_on_line|]. split; [exact ex_node_1|].
  split; [exact ex_node_2|]. split; [exact ex_nodes_differ|].
  exact (error_rate_recovers_slope (λ x, x) (qc 7 1) (qc (-2) 1) ex_nodes
           ex_errors (qc 1 1) (qc 2 1) ex_on_line ex_node_1 ex_node_2
           ex_nodes_differ).
Defined.

Lemma error_rate_minimises_residuals_witness :
  error_rate (λ x, x) ex_nodes ex_errors = Value ex_rate ∧
  ∃ c0, ∀ a b,
    sq_residuals (map (λ x, x) ex_nodes) (map (λ x, x) ex_errors) c0 ex_rate
    ≤ sq_residuals (map (λ x, x) ex_nodes) (map (λ x, x) ex_errors) a b.
Proof.
  split; [exact ex_rate_eq|].
  exact (error_rate_minimises_residuals (λ x, x) ex_nodes ex_errors ex_rate
           ex_rate_eq).
Defined.

(** The same points with the node counts moved by 1 and the errors by 10. *)
Lemma ex_nodes_shifted :
  Forall2 (λ N N' : Qc, (λ x : Qc, x) N' = (λ x : Qc, x) N + qc 1 1)
    ex_nodes (qc 2 1 :: qc 3 1 :: qc 5 1 :: nil).
Proof. repeat constructor; apply Qc_is_canon; reflexivity. Qed.

Lemma ex_errors_shifted :
  Forall2 (λ e e' : Qc, (λ x : Qc, x) e' = (λ x : Qc, x) e + qc 10 1)
    ex_errors (qc 15 1 :: qc 13 1 :: qc 9 1 :: nil).
Proof. repeat constructor; apply Qc_is_canon; reflexivity. Qed.

Lemma error_rate_shift_invariant_witness :
  Forall2 (λ N N' : Qc, (λ x : Qc, x) N' = (λ x : Qc, x) N + qc 1 1)
    ex_nodes (qc 2 1 :: qc 3 1 :: qc 5 1 :: nil) ∧
  Forall2 (λ e e' : Qc, (λ x : Qc, x) e' = (λ x : Qc, x) e + qc 10 1)
    ex_errors (qc 15 1 :: qc 13 1 :: qc 9 1 :: nil) ∧
  error_rate (λ x, x) (qc 2 1 :: qc 3 1 :: qc 5 1 :: nil)
    (qc 15 1 :: qc 13 1 :: qc 9 1 :: nil)
  = error_rate (λ x, x) ex_nodes ex_errors.
Proof.
  split; [exact ex_nodes_shifted|]. split; [exact ex_errors_shifted|].
  exact (error_rate_shift_invariant (λ x, x) (qc 1 1) (qc 10 1) ex_nodes _
           ex_errors _ ex_nodes_shifted ex_errors_shifted).
Defined.

(** ** The statements in binary64

    Python floats and numpy's float64 round; the statements made over the
    rationals that rest on an exact sum, difference, product or quotient do
    not carry over, as the runs below show. *)

Local Close Scope Qc_scope.

Lemma ex_unit_step_dt0 : cfl_dt ex_unit_step = Ok 1%float.
Proof. vm_compute. reflexivity. Qed.


Lemma ex_unit_step_ok :
  model_ok (model ex_unit_step) ∧ grid_ok (grid ex_unit_step) ∧
  shape (numVars (model ex_unit_step)) (nx (grid ex_unit_step) + 1)
    ex_inf_u_init.
Proof.
  split; [|split].
  - unfold model_ok, jacobian_ok. simpl. repeat split; auto.
  - reflexivity.
  - vm_compute. split; [done|]. repeat constructor.
Qed.

(** C3, the claim as it stands, fails in binary64.  A run from 0.3 to 0.9
    with the CFL step 1.0, over a well-formed model and grid, clamps its
    only step to [0.9 - 0.3]; and [0.3 + (0.9 - 0.3)] is 0.9000000000000001:
    the last recorded time is not [t_final], it is past it. *)
Lemma run_ends_past_t_final :
  model_ok (model ex_unit_step) ∧ grid_ok (grid ex_unit_step) ∧
  shape (numVars (model ex_unit_step)) (nx (grid ex_unit_step) + 1)
    ex_inf_u_init ∧
  cfl_dt ex_unit_step = Ok 1%float ∧
  fltb 0%float (epsilon ex_unit_step) = true ∧
  fltb 0%float (dx (grid ex_unit_step)) = true ∧
  fltb float_0_3 float_0_9 = true ∧
  clamp_dt float_0_9 float_0_3 1%float = fsub float_0_9 float_0_3 ∧
  option_map (λ p : frame float * mstate float,
                (n_steps p.1, map fst (history p.2)))
    (returned (run (Some (grid ex_unit_step)) ex_unit_step 5 float_0_3
                 float_0_9 ex_inf_u_init (MState [] [] [])))
  = Some (1, [float_0_3; float_above_0_9]) ∧
  fltb float_0_9 float_above_0_9 = true.
Proof.
  destruct ex_unit_step_ok as (Hm & Hg & Hs).
  do 3 (split; [done|]). repeat split; vm_compute; reflexivity.
Qed.

Lemma ex_unit_run_eq :
  run (Some ex_inf_grid) ex_unit_step 5 float_0_3 float_0_9 ex_inf_u_init
    (MState [] [] [])
  = Returns ex_unit_run.1 ex_unit_run.2.
Proof. vm_compute. reflexivity. Qed.

Lemma only_last_time_reaches_t_final_witness :
  run (Some ex_inf_grid) ex_unit_step 5 float_0_3 float_0_9 ex_inf_u_init
    (MState [] [] [])
  = Returns ex_unit_run.1 ex_unit_run.2 ∧
  (∀ k tk l, history ex_unit_run.2 !! k = Some (tk, l) →
     k < n_steps ex_unit_run.1 → fltb tk float_0_9 = true) ∧
  (∃ l, history ex_unit_run.2 !! n_steps ex_unit_run.1
        = Some (t ex_unit_run.1, l)) ∧
  fltb (t ex_unit_run.1) float_0_9 = false.
Proof.
  split; [exact ex_unit_run_eq|].
  exact (only_last_time_reaches_t_final _ _ _ _ _ _ _ _ _ ex_unit_run_eq).
Defined.

(** C10, the claim as it stands, fails in binary64.  In a run from 0.2 to
    0.9 with the CFL step 1.0 the first step is clamped to [0.9 - 0.2] and
    ends at 0.8999999999999999, short of [t_final]; the loop goes on, and a
    second step brings the time to 0.9.  The first of the two steps is not
    the final one, and it is not the CFL step. *)
Lemma clamped_step_is_not_the_last :
  cfl_dt ex_unit_step = Ok 1%float ∧
  option_map (λ p : frame float * mstate float,
                (n_steps p.1, map fst (history p.2)))
    (returned (run (Some (grid ex_unit_step)) ex_unit_step 5 float_0_2
                 float_0_9 ex_inf_u_init (MState [] [] [])))
  = Some (2, [float_0_2; float_below_0_9; float_0_9]) ∧
  clamp_dt float_0_9 float_0_2 1%float = fsub float_0_9 float_0_2 ∧
  fadd float_0_2 (fsub float_0_9 float_0_2) = float_below_0_9 ∧
  fltb float_below_0_9 float_0_9 = true ∧
  feqb (fsub float_below_0_9 float_0_2) 1%float = false.
Proof. repeat split; vm_compute; reflexivity. Qed.

(** C8 in binary64: with a zero Jacobian an interior value can still be
    lost.  For the interior value 2^1023 and [dx = 0.5] the difference
    quotient of the predictor overflows to an infinity, its product with
    the zero of the Jacobian is NaN, and the first step records NaN at the
    interior node. *)
Lemma zero_jacobian_overflow :
  jac_zero (model ex_still_float) ∧
  option_map (λ p : frame float * mstate float, recorded p.2)
    (returned (first_pass (Some ex_inf_grid) ex_still_float 0%float 1%float
                 ex_huge_u_init (MState [] [] [])))
  = Some [Some [[1%float]; [0x1p+1023%float]; [4%float]];
          Some [[7%float]; [nan]; [9%float]]].
Proof. split; [intros x; reflexivity|]. vm_compute. reflexivity. Qed.

(** A NaN among the eigenvalues: [np.amax] returns NaN, Python's [max]
    then keeps the 0.0 it started from, and line 102 divides by zero. *)
Lemma nan_eigenvalue_raises :
  model_ok (model ex_nan) ∧
  np_amax (map fabs [1%float; nan]) = Ok nan ∧
  py_max 0%float nan = 0%float ∧
  cfl_lambda_max ex_nan = Ok 0%float ∧
  cfl_dt ex_nan = Raise ZeroDivisionError ∧
  raised (run (Some ex_inf_grid) ex_nan 5 0%float 1%float ex_nan_u_init
            (MState [] [] []))
  = Some ZeroDivisionError.
Proof.
  split.
  { unfold model_ok, jacobian_ok. simpl. repeat split; auto. }
  repeat split; vm_compute; reflexivity.
Qed.
